(** * GlobalstoxFX UI enhancements ([js/script.js]): a shallow embedding

    The script is one IIFE that attaches independent event handlers to
    DOM nodes.  Part I embeds

    - JavaScript strings as sequences of UTF-16 code units,
    - the regular expression used by the e-mail validator,
    - a small DOM (a rose tree of elements with identities),
    - every handler as a function on an explicit page state; the
      smooth-scroll handler and the counters are written over an interface
      of the host's numbers (the script computes in doubles), and the sticky
      header, which only compares two offsets, holds them as rationals.

    Part II proves the properties of the handlers. *)

From Stdlib Require Import List NArith ZArith QArith Qminmax Qround Qabs Bool Lia.
From Stdlib Require Import String Ascii DecimalString.
From Stdlib Require PrimFloat.
Import ListNotations.

Set Implicit Arguments.
Local Open Scope nat_scope.

(* ################################################################## *)
(** * Part I: the program *)

(* ================================================================== *)
(** ** JavaScript strings *)

Module JsString.

Local Open Scope N_scope.

(** A JavaScript string is a sequence of 16-bit code units. *)
Abbreviation jschar := N (only parsing).
Abbreviation jsstring := (list N) (only parsing).

(** String literals of the script (all ASCII). *)
Definition lit (s : string) : jsstring :=
  List.map N_of_ascii (list_ascii_of_string s).

Definition str_eqb (a b : jsstring) : bool :=
  if list_eq_dec N.eq_dec a b then true else false.

(** [!s] for a string: only the empty string is falsy. *)
Definition falsy (s : jsstring) : bool :=
  match s with [] => true | _ => false end.

(** [s.length] counts code units. *)
Definition str_length (s : jsstring) : N := N.of_nat (List.length s).

(** ECMAScript WhiteSpace and LineTerminator code points: the set removed
    by [String.prototype.trim] and matched by the regexp class [\s]. *)
Definition is_ws (c : jschar) : bool :=
  (c =? 9) || (c =? 10) || (c =? 11) || (c =? 12) || (c =? 13) ||
  (c =? 32) || (c =? 160) || (c =? 5760) ||
  ((8192 <=? c) && (c <=? 8202)) ||
  (c =? 8232) || (c =? 8233) || (c =? 8239) || (c =? 8287) ||
  (c =? 12288) || (c =? 65279).

Fixpoint trimStart (s : jsstring) : jsstring :=
  match s with
  | c :: s' => if is_ws c then trimStart s' else s
  | [] => []
  end.

Definition trimEnd (s : jsstring) : jsstring := rev (trimStart (rev s)).

Definition trim (s : jsstring) : jsstring := trimEnd (trimStart s).

(** A string of white space only. *)
Definition blank (s : jsstring) : Prop := Forall (fun c => is_ws c = true) s.

End JsString.
Import JsString.

(* ================================================================== *)
(** ** Regular expressions *)

Module Regex.

(** The fragment of regexp syntax the script uses, closed under
    derivatives.  Without the [u] flag a pattern matches code units.  A
    pattern anchored at both ends, [/^r$/], matches a string when the whole
    string is a word of [r]; [test r] decides that by derivatives. *)
Inductive regex : Type :=
| Void : regex
| Eps : regex
| Class : (jschar -> bool) -> regex
| Cat : regex -> regex -> regex
| Alt : regex -> regex -> regex
| Star : regex -> regex.

(** [r+] *)
Definition Plus (r : regex) : regex := Cat r (Star r).

(** [c] *)
Definition Chr (c : jschar) : regex := Class (N.eqb c).

Fixpoint nullable (r : regex) : bool :=
  match r with
  | Void => false
  | Eps => true
  | Class _ => false
  | Cat r1 r2 => nullable r1 && nullable r2
  | Alt r1 r2 => nullable r1 || nullable r2
  | Star _ => true
  end.

Fixpoint deriv (c : jschar) (r : regex) : regex :=
  match r with
  | Void => Void
  | Eps => Void
  | Class p => if p c then Eps else Void
  | Cat r1 r2 =>
      if nullable r1
      then Alt (Cat (deriv c r1) r2) (deriv c r2)
      else Cat (deriv c r1) r2
  | Alt r1 r2 => Alt (deriv c r1) (deriv c r2)
  | Star r1 => Cat (deriv c r1) (Star r1)
  end.

(** [/^r$/.test(s)] *)
Fixpoint test (r : regex) (s : jsstring) : bool :=
  match s with
  | [] => nullable r
  | c :: s' => test (deriv c r) s'
  end.

(** The language of a regexp. *)
Inductive lang : regex -> jsstring -> Prop :=
| lang_eps : lang Eps []
| lang_class p c : p c = true -> lang (Class p) [c]
| lang_cat r1 r2 s1 s2 :
    lang r1 s1 -> lang r2 s2 -> lang (Cat r1 r2) (s1 ++ s2)
| lang_alt_l r1 r2 s : lang r1 s -> lang (Alt r1 r2) s
| lang_alt_r r1 r2 s : lang r2 s -> lang (Alt r1 r2) s
| lang_star_nil r : lang (Star r) []
| lang_star_app r s1 s2 :
    lang r s1 -> lang (Star r) s2 -> lang (Star r) (s1 ++ s2).

End Regex.
Import Regex.

(* ================================================================== *)
(** ** The e-mail validator *)

Module Email.

Local Open Scope N_scope.

Definition at_sign : jschar := 64.
Definition full_stop : jschar := 46.

(** The class [[^\s@]]. *)
Definition not_space_at (c : jschar) : bool :=
  negb (is_ws c || (c =? at_sign)).

(** [const emailRe = /^[^\s@]+@[^\s@]+\.[^\s@]+$/;] *)
Definition emailRe : regex :=
  Cat (Plus (Class not_space_at))
    (Cat (Chr at_sign)
       (Cat (Plus (Class not_space_at))
          (Cat (Chr full_stop)
             (Plus (Class not_space_at))))).

(** The guard of the e-mail branch: [!emailVal || !emailRe.test(emailVal)]. *)
Definition email_fails (emailVal : jsstring) : bool :=
  falsy emailVal || negb (test emailRe emailVal).

Definition email_accepted (emailVal : jsstring) : bool :=
  negb (email_fails emailVal).

(** The spec's words for an accepted value, to compare with [emailRe]: it
    is non-empty, it has the shape [local@domain.tld] (a local part, a
    domain and a tld, so a full stop after the [@]), it holds exactly one
    [@] and no whitespace. *)
Definition has_shape (s : jsstring) : Prop :=
  exists local domain tld,
    local <> [] /\ domain <> [] /\ tld <> [] /\
    s = local ++ [at_sign] ++ domain ++ [full_stop] ++ tld.

Definition spec_email (s : jsstring) : Prop :=
  s <> [] /\
  has_shape s /\
  count_occ N.eq_dec s at_sign = 1%nat /\
  Forall (fun c => is_ws c = false) s.

End Email.

(* ================================================================== *)
(** ** The DOM *)

Module Dom.

(** An element object.  [nid] is the identity of the object (two references
    are the same object when their [nid] agree); text nodes are elements
    with the tag [#text], which no selector of the script matches. *)
Record element : Type := mkElement {
  nid : nat;
  tagName : string;
  attributes : list (string * jsstring);
  classList : list string;
  innerText : jsstring;
  value : jsstring;
  defaultValue : jsstring;
  disabled : bool
}.

(** A node with its child nodes, in document order. *)
#[local] Unset Elimination Schemes.
Inductive node : Type :=
| Node : element -> list node -> node.
#[local] Set Elimination Schemes.

Definition elem (n : node) : element := match n with Node e _ => e end.
Definition childNodes (n : node) : list node := match n with Node _ ks => ks end.

(** *** Attributes *)

Fixpoint assoc (name : string) (l : list (string * jsstring)) : option jsstring :=
  match l with
  | [] => None
  | (k, v) :: l' => if String.eqb k name then Some v else assoc name l'
  end.

Fixpoint assoc_set (name : string) (v : jsstring) (l : list (string * jsstring))
  : list (string * jsstring) :=
  match l with
  | [] => [(name, v)]
  | (k, x) :: l' =>
      if String.eqb k name then (k, v) :: l' else (k, x) :: assoc_set name v l'
  end.

(** [e.getAttribute(name)]: [None] is [null]. *)
Definition getAttribute (name : string) (e : element) : option jsstring :=
  assoc name (attributes e).

Definition hasAttribute (name : string) (e : element) : bool :=
  match getAttribute name e with Some _ => true | None => false end.

(** [e.getAttribute(name) === v] *)
Definition attr_is (name : string) (v : jsstring) (e : element) : bool :=
  match getAttribute name e with Some x => str_eqb x v | None => false end.

Definition setAttribute (name : string) (v : jsstring) (e : element) : element :=
  mkElement (nid e) (tagName e) (assoc_set name v (attributes e)) (classList e)
    (innerText e) (value e) (defaultValue e) (disabled e).

(** *** Properties *)

Definition set_classList (l : list string) (e : element) : element :=
  mkElement (nid e) (tagName e) (attributes e) l
    (innerText e) (value e) (defaultValue e) (disabled e).

Definition set_innerText (t : jsstring) (e : element) : element :=
  mkElement (nid e) (tagName e) (attributes e) (classList e)
    t (value e) (defaultValue e) (disabled e).

Definition set_value (v : jsstring) (e : element) : element :=
  mkElement (nid e) (tagName e) (attributes e) (classList e)
    (innerText e) v (defaultValue e) (disabled e).

Definition set_disabled (b : bool) (e : element) : element :=
  mkElement (nid e) (tagName e) (attributes e) (classList e)
    (innerText e) (value e) (defaultValue e) b.

(** *** [classList] (a token list without repetitions) *)

Definition contains (c : string) (e : element) : bool :=
  existsb (String.eqb c) (classList e).

Definition classList_add (c : string) (e : element) : element :=
  if contains c e then e else set_classList (classList e ++ [c]) e.

Definition classList_remove (c : string) (e : element) : element :=
  set_classList (filter (fun x => negb (String.eqb c x)) (classList e)) e.

Definition classList_toggle (c : string) (e : element) : element :=
  if contains c e then classList_remove c e else classList_add c e.

(** [document.createElement(tag)]; the caller supplies the fresh identity. *)
Definition createElement (tag : string) (i : nat) : element :=
  mkElement i tag [] [] [] [] [] false.

(** *** Trees *)

(** The node and its descendants, in document order. *)
Fixpoint flatten (n : node) : list element :=
  match n with
  | Node e ks => e :: flat_map flatten ks
  end.

Definition descendants (n : node) : list element :=
  flat_map flatten (childNodes n).

(** [ctx.querySelector(sel)] and [ctx.querySelectorAll(sel)], the selector
    given as a predicate on elements. *)
Definition querySelector (sel : element -> bool) (ctx : node) : option element :=
  find sel (descendants ctx).

Definition querySelectorAll (sel : element -> bool) (ctx : node) : list element :=
  filter sel (descendants ctx).

(** The object with identity [i], when it is in the tree. *)
Definition lookup (i : nat) (n : node) : option element :=
  find (fun e => Nat.eqb (nid e) i) (flatten n).

(** Apply [f] to every element. *)
Fixpoint tmap (f : element -> element) (n : node) : node :=
  match n with
  | Node e ks => Node (f e) (map (tmap f) ks)
  end.

(** A property write on the object [i]. *)
Definition upd (i : nat) (f : element -> element) (e : element) : element :=
  if Nat.eqb (nid e) i then f e else e.

Definition update (i : nat) (f : element -> element) (n : node) : node :=
  tmap (upd i f) n.

(** [el.remove()] for the object [i]: it leaves its parent's child list. *)
Fixpoint remove (i : nat) (n : node) : node :=
  match n with
  | Node e ks =>
      Node e (filter (fun k => negb (Nat.eqb (nid (elem k)) i)) (map (remove i) ks))
  end.

(** [f.parentNode.insertBefore(x, f.nextSibling)] for the object [f = i]. *)
Definition insert_after_in (i : nat) (x : node) (ks : list node) : list node :=
  flat_map (fun k => if Nat.eqb (nid (elem k)) i then [k; x] else [k]) ks.

Fixpoint insertAfter (i : nat) (x : node) (n : node) : node :=
  match n with
  | Node e ks => Node e (insert_after_in i x (map (insertAfter i x) ks))
  end.

(** [ctx.insertBefore(x, ctx.firstChild)] *)
Definition prepend (x : node) (ctx : node) : node :=
  match ctx with Node e ks => Node e (x :: ks) end.

(** Whether the object [i] has a parent inside the tree of [ctx]. *)
Definition hasParent (i : nat) (ctx : node) : bool :=
  existsb (fun e => Nat.eqb (nid e) i) (descendants ctx).

(** The siblings that follow the object [i], nearest first. *)
Fixpoint after (i : nat) (ks : list node) : option (list node) :=
  match ks with
  | [] => None
  | k :: ks' => if Nat.eqb (nid (elem k)) i then Some ks' else after i ks'
  end.

Fixpoint first_some {A : Type} (l : list (option A)) : option A :=
  match l with
  | [] => None
  | Some a :: _ => Some a
  | None :: l' => first_some l'
  end.

Fixpoint following (i : nat) (n : node) : option (list node) :=
  match n with
  | Node _ ks =>
      match after i ks with
      | Some l => Some l
      | None => first_some (map (following i) ks)
      end
  end.

(** [el.nextSibling] for the object [i]. *)
Definition nextSibling (i : nat) (n : node) : option node :=
  match following i n with
  | Some (k :: _) => Some k
  | _ => None
  end.

(** [el.parentNode] for the object [i]: the node whose child list holds
    it, when that node is in the tree of [n]. *)
Fixpoint parentNode (i : nat) (n : node) : option node :=
  match n with
  | Node _ ks =>
      if existsb (fun k => Nat.eqb (nid (elem k)) i) ks then Some n
      else first_some (map (parentNode i) ks)
  end.

(** Whether every node with the identity [j] is a leaf. *)
Fixpoint childless (j : nat) (n : node) : bool :=
  match n with
  | Node e ks =>
      (negb (Nat.eqb (nid e) j) || match ks with [] => true | _ :: _ => false end)
      && forallb (childless j) ks
  end.

(** [ctx.firstChild] *)
Definition firstChild (ctx : node) : option node := hd_error (childNodes ctx).

(** *** Selectors of the script *)

Definition tag_is (t : string) (e : element) : bool := String.eqb (tagName e) t.

(** [.c] *)
Definition sel_class (c : string) : element -> bool := contains c.

(** [input[name="n"]] *)
Definition sel_input_name (n : string) (e : element) : bool :=
  tag_is "input" e && attr_is "name" (lit n) e.

(** [textarea[name="n"]] *)
Definition sel_textarea_name (n : string) (e : element) : bool :=
  tag_is "textarea" e && attr_is "name" (lit n) e.

(** [button[type="submit"]] *)
Definition sel_button_submit (e : element) : bool :=
  tag_is "button" e && attr_is "type" (lit "submit") e.

(** Object identities are unique in a tree and older than the allocator. *)
Definition ids (n : node) : list nat := map nid (flatten n).

Definition well_formed (next : nat) (n : node) : Prop :=
  NoDup (ids n) /\ Forall (fun i => (i < next)%nat) (ids n).

End Dom.
Import Dom.

(* ================================================================== *)
(** ** Sticky header *)

Module Sticky.

(** [const STICKY_OFFSET = 48;] *)
Definition STICKY_OFFSET : Q := inject_Z 48.

(** [header = q('.site-header')] (absent: [None]) and [window.scrollY]. *)
Record page : Type := mkPage {
  header : option element;
  scrollY : Q
}.

(** [a > b] on numbers. *)
Definition gt (a b : Q) : bool := negb (Qle_bool a b).

Definition onScroll (p : page) : page :=
  match header p with
  | None => p
  | Some h =>
      if gt (scrollY p) STICKY_OFFSET
      then mkPage (Some (classList_add "is-sticky" h)) (scrollY p)
      else mkPage (Some (classList_remove "is-sticky" h)) (scrollY p)
  end.

(** The two places that run the handler: the call at load time and the
    [scroll] listener, which sees the new offset. *)
Inductive event : Type :=
| PageLoad : event
| ScrollEvent : Q -> event.

Definition handle (ev : event) (p : page) : page :=
  match ev with
  | PageLoad => onScroll p
  | ScrollEvent y => onScroll (mkPage (header p) y)
  end.

Definition is_sticky (p : page) : bool :=
  match header p with
  | Some h => contains "is-sticky" h
  | None => false
  end.

End Sticky.

(* ================================================================== *)
(** ** Mobile menu *)

Module Menu.

(** The glyphs U+2630 and U+2715. *)
Definition burger : jsstring := [9776%N].
Definition cross : jsstring := [10005%N].

(** [menuToggle = q('.menu-toggle')], [mainNav = q('.main-nav')] and the
    focused object. *)
Record page : Type := mkPage {
  menuToggle : option element;
  mainNav : option element;
  activeElement : option nat
}.

Inductive event : Type :=
| ToggleClick : event
| NavLinkClick : event
| KeyDown : jsstring -> event.

(** [String(b)] *)
Definition String_of_bool (b : bool) : jsstring :=
  if b then lit "true" else lit "false".

Definition on_toggle_click (t n : element) (focus : option nat) : page :=
  let expanded := attr_is "aria-expanded" (lit "true") t in
  let t := setAttribute "aria-expanded" (String_of_bool (negb expanded)) t in
  let n := classList_toggle "active" n in
  let t := set_innerText (if contains "active" n then cross else burger) t in
  mkPage (Some t) (Some n) focus.

Definition on_link_click (t n : element) (focus : option nat) : page :=
  if contains "active" n then
    let n := classList_remove "active" n in
    let t := setAttribute "aria-expanded" (lit "false") t in
    let t := set_innerText burger t in
    mkPage (Some t) (Some n) focus
  else mkPage (Some t) (Some n) focus.

Definition on_keydown (key : jsstring) (t n : element) (focus : option nat) : page :=
  if str_eqb key (lit "Escape") && contains "active" n then
    let n := classList_remove "active" n in
    let t := setAttribute "aria-expanded" (lit "false") t in
    let t := set_innerText burger t in
    mkPage (Some t) (Some n) (Some (nid t))
  else mkPage (Some t) (Some n) focus.

(** The listeners exist only under [if (menuToggle && mainNav)]. *)
Definition handle (p : page) (ev : event) : page :=
  match menuToggle p, mainNav p with
  | Some t, Some n =>
      match ev with
      | ToggleClick => on_toggle_click t n (activeElement p)
      | NavLinkClick => on_link_click t n (activeElement p)
      | KeyDown key => on_keydown key t n (activeElement p)
      end
  | _, _ => p
  end.

Definition run (p : page) (evs : list event) : page := fold_left handle evs p.

(** The three pieces of state the spec names. *)
Definition has_active (p : page) : bool :=
  match mainNav p with Some n => contains "active" n | None => false end.

Definition aria_expanded (p : page) : option jsstring :=
  match menuToggle p with Some t => getAttribute "aria-expanded" t | None => None end.

Definition glyph (p : page) : option jsstring :=
  match menuToggle p with Some t => Some (innerText t) | None => None end.

Definition closed (p : page) : Prop :=
  (exists t n, menuToggle p = Some t /\ mainNav p = Some n) /\
  has_active p = false /\
  aria_expanded p = Some (lit "false") /\
  glyph p = Some burger.

Definition opened (p : page) : Prop :=
  (exists t n, menuToggle p = Some t /\ mainNav p = Some n) /\
  has_active p = true /\
  aria_expanded p = Some (lit "true") /\
  glyph p = Some cross.

Definition in_sync (p : page) : Prop :=
  (has_active p = true <-> aria_expanded p = Some (lit "true")) /\
  (aria_expanded p = Some (lit "true") <-> glyph p = Some cross).

End Menu.

(* ================================================================== *)
(** ** Smooth scroll *)

Module Scroll.

Local Open Scope N_scope.

(** The numbers of the host and the operations the handler applies to
    them.  The script runs on the host's doubles: nothing is assumed of
    the arithmetic, which rounds. *)
Record host : Type := mkHost {
  number : Type;
  of_N : N -> number;                       (* the literals 0 and 18 *)
  add : number -> number -> number;
  sub : number -> number -> number;
  max : number -> number -> number;         (* [Math.max] *)
  lt : number -> number -> bool
}.

Section Host.

Variable h : host.

(** The document, [header], [window.scrollY] and the layout: the [top] and
    [height] of [getBoundingClientRect()] for each object. *)
Record page : Type := mkPage {
  document : node;
  header : option element;
  scrollY : number h;
  rect_top : nat -> number h;
  rect_height : nat -> number h
}.

(** What a click leaves behind: whether [e.preventDefault()] ran, and the
    [top] given to [window.scrollTo] with [behavior: 'smooth']. *)
Record outcome : Type := mkOutcome {
  defaultPrevented : bool;
  scrolledTo : option (number h)
}.

Definition native : outcome := mkOutcome false None.

Definition hash : jschar := 35.

(** [a[href^="#"]] *)
Definition sel_hash_link (e : element) : bool :=
  tag_is "a" e &&
  match getAttribute "href" e with
  | Some (c :: _) => N.eqb c hash
  | _ => false
  end.

(** [!href || href === '#' || link.dataset.noSmooth !== undefined] *)
Definition skipped (link : element) : bool :=
  match getAttribute "href" link with
  | None => true
  | Some href =>
      falsy href || str_eqb href [hash] || hasAttribute "data-no-smooth" link
  end.

(** The links that get the click listener when the script runs. *)
Definition listens (link : element) : bool :=
  sel_hash_link link && negb (skipped link).

Definition getHeaderOffset (p : page) : number h :=
  match header p with
  | None => of_N h 0
  | Some hd => rect_height p (nid hd)
  end.

Definition getElementById (id : jsstring) (p : page) : option element :=
  find (attr_is "id" id) (flatten (document p)).

(** [href.slice(1)] *)
Definition slice1 (s : jsstring) : jsstring := tl s.

Definition on_click (href : jsstring) (p : page) : outcome :=
  let targetId := slice1 href in
  match getElementById targetId p with
  | None => native
  | Some targetEl =>
      let headerOffset := getHeaderOffset p in
      let targetTop := add h (rect_top p (nid targetEl)) (scrollY p) in
      let scrollTo :=
        max h (of_N h 0) (sub h (sub h targetTop headerOffset) (of_N h 18)) in
      mkOutcome true (Some scrollTo)
  end.

(** A click on [link]. *)
Definition click (link : element) (p : page) : outcome :=
  if listens link then
    match getAttribute "href" link with
    | Some href => on_click href p
    | None => native
    end
  else native.

End Host.

Arguments native {h}.
Arguments mkOutcome {h} _ _.

(** *** The doubles of a JavaScript host

    IEEE 754 binary64 numbers with round-to-nearest, as the kernel's
    primitive floats have them. *)

Import PrimFloat.

Fixpoint double_of_positive (p : positive) : float :=
  match p with
  | xH => 1
  | xO p => 2 * double_of_positive p
  | xI p => 2 * double_of_positive p + 1
  end%float.

(** The integer literals of the script (exact below 2^53). *)
Definition double_of_N (n : N) : float :=
  match n with
  | N0 => 0%float
  | Npos p => double_of_positive p
  end.

(** [Math.max(a, b)]: NaN when an argument is NaN, and [+0] is larger than
    [-0]. *)
Definition Math_max (a b : float) : float :=
  if is_nan a || is_nan b then nan
  else if (a <? b)%float then b
  else if (b <? a)%float then a
  else if get_sign a then b else a.

Definition ieee : host :=
  @mkHost float double_of_N PrimFloat.add PrimFloat.sub Math_max PrimFloat.ltb.

(** *** A host with exact numbers

    Rationals without rounding: the law of [Math.max] the properties name
    can be proved on it. *)
Definition exact : host :=
  @mkHost Q (fun n => inject_Z (Z.of_N n)) Qplus Qminus Qmax
    (fun a b => negb (Qle_bool b a)).

End Scroll.

(* ================================================================== *)
(** ** Contact form *)

Module Form.

(** The closures given to [setTimeout], with what they capture. *)
Inductive callback : Type :=
| SendDone : option nat -> callback      (* captures [submitBtn] *)
| RemoveSuccess : nat -> callback.       (* captures [success] *)

(** [contactForm] with its subtree, the focused object, the pending timers
    (delay in ms, callback) and the allocator of object identities. *)
Record page : Type := mkPage {
  contactForm : node;
  activeElement : option nat;
  timers : list (N * callback);
  next_id : nat
}.

(** A handler returns normally or throws a [TypeError] (a property read on
    [null]). *)
Inductive result (A : Type) : Type :=
| Ok : A -> result A
| TypeError : result A.
Arguments TypeError {A}.

Definition forEach {A S : Type} (l : list A) (f : A -> S -> S) (s : S) : S :=
  fold_left (fun s a => f a s) l s.

(** [createAlertMessage(message, type)] *)
Definition createAlertMessage (message : jsstring) (type : string) (i : nat) : element :=
  let wrapper := createElement "div" i in
  let wrapper := set_classList ["form-alert"; "form-alert--" ++ type]%string wrapper in
  let wrapper := setAttribute "role" (lit "alert") wrapper in
  set_innerText message wrapper.

(** [clearFormAlerts(form)] *)
Definition clearFormAlerts (form : node) : node :=
  let form :=
    forEach (querySelectorAll (sel_class "form-alert") form)
      (fun el => remove (nid el)) form in
  forEach (querySelectorAll (sel_class "input-error") form)
    (fun el => update (nid el) (classList_remove "input-error")) form.

(** The entries of the [errors] array. *)
Record error : Type := mkError {
  field : option element;
  msg : jsstring
}.

Definition name_msg : jsstring := lit "Please enter your name (2+ characters).".
Definition email_msg : jsstring := lit "Please enter a valid email address.".
Definition message_msg : jsstring := lit "Please enter a message (10+ characters).".
Definition summary_msg : jsstring :=
  lit "Please fix the errors in the form and try again.".
Definition success_msg : jsstring :=
  lit "Thanks! Your message has been sent. We will reply within 24 hours.".

(** [el ? el.value.trim() : ''] *)
Definition trimmed_value (el : option element) : jsstring :=
  match el with
  | Some e => trim (value e)
  | None => []
  end.

(** [!nameVal || nameVal.length < 2] *)
Definition name_fails (nameVal : jsstring) : bool :=
  falsy nameVal || (str_length nameVal <? 2)%N.

(** [!messageVal || messageVal.length < 10] *)
Definition message_fails (messageVal : jsstring) : bool :=
  falsy messageVal || (str_length messageVal <? 10)%N.

(** The three validation blocks; each [errors.push] appends. *)
Definition validate (nameEl emailEl messageEl : option element) : list error :=
  let errors := [] in
  let nameVal := trimmed_value nameEl in
  let errors :=
    if name_fails nameVal then errors ++ [mkError nameEl name_msg] else errors in
  let emailVal := trimmed_value emailEl in
  let errors :=
    if Email.email_fails emailVal then errors ++ [mkError emailEl email_msg] else errors in
  let messageVal := trimmed_value messageEl in
  let errors :=
    if message_fails messageVal then errors ++ [mkError messageEl message_msg] else errors in
  errors.

(** The inline error node built by the [forEach] callback. *)
Definition field_error (text : jsstring) (i : nat) : element :=
  let el := createElement "div" i in
  let el := set_classList ["field-error"%string] el in
  let el := setAttribute "role" (lit "alert") el in
  set_innerText text el.

(** The callback of [errors.forEach(({ field, msg }, i) => ...)].  A missing
    field returns at once; [field.parentNode.insertBefore] throws when the
    field has no parent; [field.focus()] makes the field the active element. *)
Definition show_error (err : error) (i : nat) (p : page) : result page :=
  match field err with
  | None => Ok p
  | Some f =>
      let form := update (nid f) (classList_add "input-error") (contactForm p) in
      let el := field_error (msg err) (next_id p) in
      if hasParent (nid f) form then
        let form := insertAfter (nid f) (Node el []) form in
        let focus := if Nat.eqb i 0 then Some (nid f) else activeElement p in
        Ok (mkPage form focus (timers p) (S (next_id p)))
      else TypeError
  end.

Fixpoint forEach_indexed (errors : list error) (i : nat) (p : page) : result page :=
  match errors with
  | [] => Ok p
  | err :: rest =>
      match show_error err i p with
      | Ok p' => forEach_indexed rest (S i) p'
      | TypeError => TypeError
      end
  end.

(** What the handler looks up after [clearFormAlerts(contactForm)]. *)
Definition cleared (p : page) : node := clearFormAlerts (contactForm p).
Definition nameEl (p : page) := querySelector (sel_input_name "name") (cleared p).
Definition emailEl (p : page) := querySelector (sel_input_name "email") (cleared p).
Definition messageEl (p : page) := querySelector (sel_textarea_name "message") (cleared p).
Definition submitBtn (p : page) := querySelector sel_button_submit (cleared p).
Definition errors_of (p : page) : list error :=
  validate (nameEl p) (emailEl p) (messageEl p).

Definition sending (b : element) : element :=
  set_innerText (lit "Sending...") (set_disabled true b).

Definition restored (b : element) : element :=
  set_innerText (lit "Send Inquiry") (set_disabled false b).

(** The [submit] listener ([e.preventDefault()] always runs first and is
    left out). *)
Definition on_submit (p : page) : result page :=
  let form := clearFormAlerts (contactForm p) in
  let nameEl := querySelector (sel_input_name "name") form in
  let emailEl := querySelector (sel_input_name "email") form in
  let messageEl := querySelector (sel_textarea_name "message") form in
  let submitBtn := querySelector sel_button_submit form in
  let errors := validate nameEl emailEl messageEl in
  let p := mkPage form (activeElement p) (timers p) (next_id p) in
  match errors with
  | _ :: _ =>
      match forEach_indexed errors 0 p with
      | TypeError => TypeError
      | Ok p =>
          let summary := createAlertMessage summary_msg "error" (next_id p) in
          let form := prepend (Node summary []) (contactForm p) in
          Ok (mkPage form (activeElement p) (timers p) (S (next_id p)))
      end
  | [] =>
      let form :=
        match submitBtn with
        | Some b =>
            (* [const originalText = submitBtn.innerText;] is read and dropped *)
            update (nid b) sending form
        | None => form
        end in
      Ok (mkPage form (activeElement p)
            (timers p ++ [(900%N, SendDone (option_map nid submitBtn))])
            (next_id p))
  end.

(** [contactForm.reset()]: every control goes back to its default value. *)
Definition is_control (e : element) : bool :=
  tag_is "input" e || tag_is "textarea" e.

Definition reset_control (e : element) : element :=
  if is_control e then set_value (defaultValue e) e else e.

Definition reset (form : node) : node := tmap reset_control form.

(** The bodies of the two timer callbacks. *)
Definition run_callback (cb : callback) (p : page) : page :=
  match cb with
  | SendDone submitBtn =>
      let success := createAlertMessage success_msg "success" (next_id p) in
      let form := prepend (Node success []) (contactForm p) in
      let form := reset form in
      let form :=
        match submitBtn with
        | Some b => update b restored form
        | None => form
        end in
      mkPage form (activeElement p)
        (timers p ++ [(8000%N, RemoveSuccess (nid success))])
        (S (next_id p))
  | RemoveSuccess success =>
      mkPage (remove success (contactForm p)) (activeElement p) (timers p) (next_id p)
  end.

(** The [k]-th pending timer fires: it leaves the queue and its callback runs. *)
Definition fire (k : nat) (p : page) : option page :=
  match nth_error (timers p) k with
  | None => None
  | Some (_, cb) =>
      Some (run_callback cb
              (mkPage (contactForm p) (activeElement p)
                 (firstn k (timers p) ++ skipn (S k) (timers p)) (next_id p)))
  end.

(** *** Views of a page used by the properties *)

(** The tree after the [forEach] callback ran for the field [f]. *)
Definition render (f : element) (text : jsstring) (k : nat) (form : node) : node :=
  insertAfter (nid f) (Node (field_error text k) [])
    (update (nid f) (classList_add "input-error") form).

(** The callback and the loop when nothing throws. *)
Definition show_error_page (err : error) (i : nat) (p : page) : page :=
  match field err with
  | None => p
  | Some f =>
      mkPage (render f (msg err) (next_id p) (contactForm p))
        (if Nat.eqb i 0 then Some (nid f) else activeElement p)
        (timers p) (S (next_id p))
  end.

Fixpoint shown (errors : list error) (i : nat) (p : page) : page :=
  match errors with
  | [] => p
  | err :: rest => shown rest (S i) (show_error_page err i p)
  end.

(** The page the [submit] listener leaves on its error path. *)
Definition after_errors (p : page) : page :=
  let p' :=
    shown (errors_of p) 0
      (mkPage (cleared p) (activeElement p) (timers p) (next_id p)) in
  let summary := createAlertMessage summary_msg "error" (next_id p') in
  mkPage (prepend (Node summary []) (contactForm p'))
    (activeElement p') (timers p') (S (next_id p')).

(** The page the [submit] listener leaves when every field passes, the
    page after its timer fired, and the page after the banner's timer fired. *)
Definition after_valid (p : page) : page :=
  mkPage
    (match submitBtn p with
     | Some b => update (nid b) sending (cleared p)
     | None => cleared p
     end)
    (activeElement p)
    (timers p ++ [(900%N, SendDone (option_map nid (submitBtn p)))])
    (next_id p).

Definition after_send (p : page) : page :=
  run_callback (SendDone (option_map nid (submitBtn p)))
    (mkPage (contactForm (after_valid p)) (activeElement p) (timers p) (next_id p)).

Definition after_banner (p : page) : page :=
  run_callback (RemoveSuccess (next_id p))
    (mkPage (contactForm (after_send p)) (activeElement p) (timers p) (S (next_id p))).

(** The fields that have an element, in the order of the array. *)
Definition fields (errors : list error) : list element :=
  flat_map (fun err => match field err with Some f => [f] | None => [] end) errors.

(** The field [f] shows its error: it is in the tree with the class
    [input-error], and its next sibling is the error node number [k]. *)
Definition rendered (f : element) (text : jsstring) (k : nat) (form : node) : Prop :=
  lookup (nid f) form = Some (classList_add "input-error" f) /\
  nextSibling (nid f) form = Some (Node (field_error text k) []).

(** Two snapshots of one object that differ at most in the class list. *)
Definition same_but_classes (e e' : element) : Prop :=
  set_classList [] e = set_classList [] e'.

(** Banners, as the script builds them. *)
Definition is_success_banner (e : element) : bool :=
  sel_class "form-alert" e && sel_class "form-alert--success" e.

Definition well_formed_page (p : page) : Prop :=
  well_formed (next_id p) (contactForm p).

(** What a loop of writes [R], one for each of the objects [l], does to an
    element. *)
Definition marked (l : list nat) (R : element -> element) (e : element) : element :=
  if existsb (Nat.eqb (nid e)) l then R e else e.

(** The [input] listener.  [e.target] is the object [i]; the listener hears
    the events that bubble up from the descendants of the form, whose
    [parentNode] is in the tree: the result is [None] for any other [i]. *)
Definition unmark (field : element) : element :=
  if contains "input-error" field then classList_remove "input-error" field
  else field.

Definition on_input (i : nat) (p : page) : option page :=
  let form := update i unmark (contactForm p) in
  match parentNode i form with
  | None => None
  | Some parent =>
      let next := querySelector (sel_class "field-error") parent in
      match next with
      | Some next =>
          Some (mkPage (remove (nid next) form)
                  (activeElement p) (timers p) (next_id p))
      | None => Some (mkPage form (activeElement p) (timers p) (next_id p))
      end
  end.

End Form.

(* ================================================================== *)
(** ** Reveal on scroll *)

Module Reveal.

(** An [IntersectionObserverEntry]: the identity of [entry.target] and
    [entry.isIntersecting], which the host computes from the threshold. *)
Record entry : Type := mkEntry {
  target : nat;
  isIntersecting : bool
}.

(** The document and the targets [revealObserver] observes. *)
Record page : Type := mkPage {
  document : node;
  observed : list nat
}.

(** [obs.observe(el)] (observing a target twice registers it once) and
    [obs.unobserve(el)]. *)
Definition observe (i : nat) (obs : list nat) : list nat :=
  if existsb (Nat.eqb i) obs then obs else obs ++ [i].

Definition unobserve (i : nat) (obs : list nat) : list nat :=
  filter (fun j => negb (Nat.eqb j i)) obs.

(** The body of [entries.forEach(entry => ...)]. *)
Definition on_entry (p : page) (en : entry) : page :=
  if negb (isIntersecting en) then p
  else
    let doc := update (target en) (classList_add "revealed") (document p) in
    mkPage doc (unobserve (target en) (observed p)).

(** The observer's callback. *)
Definition callback (entries : list entry) (p : page) : page :=
  fold_left on_entry entries p.

(** [revealEls = qa('.reveal')] and the set-up under [if (revealEls.length)]. *)
Definition setup (doc : node) : page :=
  let revealEls := querySelectorAll (sel_class "reveal") doc in
  if Nat.eqb (List.length revealEls) 0 then mkPage doc []
  else mkPage doc (fold_left (fun obs el => observe (nid el) obs) revealEls []).

(** The host runs the callback with the entries queued for the targets
    that are observed when the batch is delivered. *)
Definition notify (entries : list entry) (p : page) : page :=
  callback (filter (fun en => existsb (Nat.eqb (target en)) (observed p)) entries) p.

(** *** Views used by the properties *)

(** Whether a batch holds an intersecting entry for the object [i]. *)
Definition intersected (entries : list entry) (i : nat) : bool :=
  existsb (fun en => isIntersecting en && Nat.eqb (target en) i) entries.

(** What a batch does to an element. *)
Definition reveal (entries : list entry) (e : element) : element :=
  if intersected entries (nid e) then classList_add "revealed" e else e.

(** The objects that had the class [reveal] when the script ran, and what
    the batches delivered since then may have done to the document [doc]:
    some of these objects have gained the class [revealed], and only they
    are observed. *)
Definition reveal_ids (doc : node) : list nat :=
  map nid (querySelectorAll (sel_class "reveal") doc).

Definition revealing (doc : node) (p : page) : Prop :=
  (exists F, document p = tmap F doc /\
     forall e, F e = e \/
       (F e = classList_add "revealed" e /\ In (nid e) (reveal_ids doc))) /\
  incl (observed p) (reveal_ids doc).

End Reveal.
(* ================================================================== *)
(** ** Animated counters *)

Module Counter.

Local Open Scope N_scope.

(** The numbers of the host and the built-ins the counters call.  The
    script fixes none of them: it runs on the host's doubles, with the
    host's locale. *)
Record host : Type := mkHost {
  number : Type;
  of_N : N -> number;                       (* the literals 0, 1, 3, 1500 *)
  parseFloat : jsstring -> number;
  to_Number : option jsstring -> number;    (* [Number(v)]; [None] is [null] *)
  truthy : number -> bool;                  (* [false] for 0, -0 and NaN *)
  is_NaN : number -> bool;
  add : number -> number -> number;
  sub : number -> number -> number;
  mul : number -> number -> number;
  div : number -> number -> number;
  pow : number -> number -> number;         (* [Math.pow] *)
  max : number -> number -> number;         (* [Math.max] *)
  min : number -> number -> number;         (* [Math.min] *)
  lt : number -> number -> bool;
  floor : number -> number;                 (* [Math.floor] *)
  toFixed : number -> N -> jsstring;
  toLocaleString : number -> jsstring
}.


Section Host.

Variable h : host.

(** [a || b] on numbers *)
Definition or_else (a b : number h) : number h := if truthy h a then a else b.

(** [const clamp = (v, a, b) => Math.max(a, Math.min(b, v));] *)
Definition clamp (v a b : number h) : number h := max h a (min h b v).

Definition full_stop : jschar := 46.
Definition hyphen : jschar := 45.

Definition is_digit (c : jschar) : bool := (48 <=? c) && (c <=? 57).

(** The characters kept by [replace(/[^0-9.\-]/g, '')]. *)
Definition kept_char (c : jschar) : bool :=
  is_digit c || (c =? full_stop) || (c =? hyphen).

(** [el.textContent]: the counters hold text only, which is the text the
    element record keeps. *)
Definition textContent (el : element) : jsstring := innerText el.
Definition set_textContent (t : jsstring) (el : element) : element := set_innerText t el.

(** [el.getAttribute('data-target') || el.textContent || '0'] *)
Definition raw (el : element) : jsstring :=
  match getAttribute "data-target" el with
  | Some s => if falsy s then (if falsy (textContent el) then lit "0" else textContent el) else s
  | None => if falsy (textContent el) then lit "0" else textContent el
  end.

Definition numericStr (el : element) : jsstring := filter kept_char (raw el).

(** [numericStr.includes('.')] *)
Definition isFloat (el : element) : bool := existsb (N.eqb full_stop) (numericStr el).

(** [parseFloat(numericStr) || 0] *)
Definition target (el : element) : number h :=
  or_else (parseFloat h (numericStr el)) (of_N h 0).

(** [Number(el.getAttribute('data-duration')) || 1500] *)
Definition duration (el : element) : number h :=
  or_else (to_Number h (getAttribute "data-duration" el)) (of_N h 1500).

(** The two branches of the format. *)
Definition format (float : bool) (x : number h) : jsstring :=
  if float then toFixed h x 2 else toLocaleString h (floor h x).

(** The text the animation ends on. *)
Definition final_text (el : element) : jsstring := format (isFloat el) (target el).

(** A running animation: the closure of [step] ([el], [isFloat], [target],
    [duration], [start]) and whether a frame is requested. *)
Record animation : Type := mkAnimation {
  el : element;
  float : bool;
  goal : number h;
  span : number h;
  start : number h;
  requested : bool
}.

(** The observer's callback for an intersecting entry, at time
    [start = performance.now()]; it ends with [requestAnimationFrame(step)]. *)
Definition on_intersect (e : element) (now : number h) : animation :=
  mkAnimation e (isFloat e) (target e) (duration e) now true.

(** [step(now)] *)
Definition step (now : number h) (a : animation) : animation :=
  let elapsed := sub h now (start a) in
  let t := clamp (div h elapsed (span a)) (of_N h 0) (of_N h 1) in
  let eased := sub h (of_N h 1) (pow h (sub h (of_N h 1) t) (of_N h 3)) in
  let initial := of_N h 0 in
  let current := add h initial (mul h (sub h (goal a) initial) eased) in
  let e := set_textContent (format (float a) current) (el a) in
  if lt h t (of_N h 1) then
    mkAnimation e (float a) (goal a) (span a) (start a) true
  else
    let e := set_textContent (format (float a) (goal a)) e in
    let e := setAttribute "aria-live" (lit "polite") e in
    mkAnimation e (float a) (goal a) (span a) (start a) false.

(** The host delivers a frame: the requested callback runs, if any. *)
Definition frame (a : animation) (now : number h) : animation :=
  if requested a then step now a else a.

Definition run (a : animation) (frames : list (number h)) : animation :=
  fold_left frame frames a.


(** The body of the set-up loop, before [counterObserver.observe(c)]. *)
Definition prepare (c : element) : element :=
  let c := if hasAttribute "role" c then c else setAttribute "role" (lit "status") c in
  if falsy (trim (textContent c)) then set_textContent (lit "0") c else c.

End Host.

Arguments clamp h v a b : clear implicits.
Arguments or_else h a b : clear implicits.
Arguments format h float x : clear implicits.
Arguments on_intersect h e now : clear implicits.
Arguments step h now a : clear implicits.
Arguments frame h a now : clear implicits.
Arguments run h a frames : clear implicits.

(** *** A host to compute with

    Numbers are exact rationals and NaN ([None]): there is no rounding, no
    infinity and no negative zero, and only decimal literals are read.  It
    agrees with a JavaScript host wherever the host's doubles are exact.
    The locale groups the digits of the integer part by three with a comma,
    as [en-US] does. *)

Definition ideal_number : Type := option Q.

Definition lift2 (f : Q -> Q -> Q) (a b : ideal_number) : ideal_number :=
  match a, b with
  | Some x, Some y => Some (f x y)
  | _, _ => None
  end.

(** The digits at the head of a string, and what follows them. *)
Fixpoint span_digits (s : jsstring) : jsstring * jsstring :=
  match s with
  | c :: s' =>
      if is_digit c then let (d, r) := span_digits s' in (c :: d, r) else ([], s)
  | [] => ([], [])
  end.

Definition digits_value (d : jsstring) : Z :=
  fold_left (fun acc c => (10 * acc + (Z.of_N c - 48))%Z) d 0%Z.

Definition ten_to (k : nat) : positive := Z.to_pos (10 ^ Z.of_nat k).

(** The longest prefix [digits], [digits.digits] or [.digits], with the
    rest of the string. *)
Definition parse_unsigned (s : jsstring) : option (Q * jsstring) :=
  let (int, r) := span_digits s in
  match r with
  | c :: r' =>
      if c =? full_stop then
        let (frac, r'') := span_digits r' in
        match int, frac with
        | [], [] => None
        | _, _ =>
            Some (Qmake (digits_value (int ++ frac)) (ten_to (List.length frac)), r'')
        end
      else match int with [] => None | _ => Some (inject_Z (digits_value int), r) end
  | [] => match int with [] => None | _ => Some (inject_Z (digits_value int), r) end
  end.

Definition parse_signed (s : jsstring) : option (Q * jsstring) :=
  match s with
  | c :: s' =>
      if c =? hyphen then
        match parse_unsigned s' with
        | Some (q, r) => Some (Qopp q, r)
        | None => None
        end
      else if c =? 43 then parse_unsigned s'
      else parse_unsigned s
  | [] => None
  end.

Definition ideal_parseFloat (s : jsstring) : ideal_number :=
  match parse_signed (trimStart s) with
  | Some (q, _) => Some q
  | None => None
  end.

Definition ideal_Number (v : option jsstring) : ideal_number :=
  match v with
  | None => Some 0%Q
  | Some s =>
      match trim s with
      | [] => Some 0%Q
      | s' =>
          match parse_signed s' with
          | Some (q, []) => Some q
          | _ => None
          end
      end
  end.

(** The decimal digits of a natural number. *)
Definition decimal (n : Z) : jsstring :=
  lit (NilZero.string_of_uint (N.to_uint (Z.to_N n))).

(** [n] with at least [k] digits. *)
Definition padded (k : nat) (n : Z) : jsstring :=
  let d := decimal n in
  repeat 48 (k - List.length d) ++ d.

(** Round half up, and half to even, on non-negative rationals. *)
Definition round_half_up (q : Q) : Z := Qfloor (q + (1 # 2)).

Definition round_half_even (q : Q) : Z :=
  let f := Qfloor q in
  match Qcompare (q - inject_Z f) (1 # 2) with
  | Lt => f
  | Gt => (f + 1)%Z
  | Eq => if Z.even f then f else (f + 1)%Z
  end.

Definition minus_sign (q : Q) : jsstring :=
  if Qle_bool 0 q then [] else [hyphen].

(** [x.toFixed(k)] *)
Definition ideal_toFixed (x : ideal_number) (k : N) : jsstring :=
  match x with
  | None => lit "NaN"
  | Some q =>
      let k := N.to_nat k in
      let n := round_half_up (Qabs q * inject_Z (Zpos (ten_to k))) in
      let d := padded (S k) n in
      let int := firstn (List.length d - k) d in
      let frac := skipn (List.length d - k) d in
      minus_sign q ++ int ++ match frac with [] => [] | _ => full_stop :: frac end
  end.

(** Commas between groups of three digits, counted from the right. *)
Fixpoint group_rev (d : jsstring) (i : nat) : jsstring :=
  match d with
  | [] => []
  | c :: d' =>
      match i, d' with
      | 2%nat, _ :: _ => c :: 44 :: group_rev d' 0
      | _, _ => c :: group_rev d' (S i)
      end
  end.

Definition grouped (d : jsstring) : jsstring := rev (group_rev (rev d) 0).

Fixpoint strip_zeros_rev (d : jsstring) : jsstring :=
  match d with
  | c :: d' => if c =? 48 then strip_zeros_rev d' else d
  | [] => []
  end.

(** [x.toLocaleString()]: at most three fraction digits. *)
Definition ideal_toLocaleString (x : ideal_number) : jsstring :=
  match x with
  | None => lit "NaN"
  | Some q =>
      let n := round_half_even (Qabs q * inject_Z 1000) in
      let frac := rev (strip_zeros_rev (rev (padded 3 (n mod 1000)))) in
      minus_sign q ++ grouped (decimal (n / 1000)) ++
        match frac with [] => [] | _ => full_stop :: frac end
  end.

Definition ideal_pow (a b : ideal_number) : ideal_number :=
  match a, b with
  | Some x, Some y =>
      if Qeq_bool y (inject_Z (Qfloor y)) then Some (Qpower x (Qfloor y)) else None
  | _, _ => None
  end.

Definition ideal_div (a b : ideal_number) : ideal_number :=
  match a, b with
  | Some x, Some y => if Qeq_bool y 0 then None else Some (Qdiv x y)
  | _, _ => None
  end.

Definition ideal : host :=
  mkHost
    (fun n => Some (inject_Z (Z.of_N n)))
    ideal_parseFloat
    ideal_Number
    (fun x => match x with Some q => negb (Qeq_bool q 0) | None => false end)
    (fun x => match x with Some _ => false | None => true end)
    (lift2 Qplus) (lift2 Qminus) (lift2 Qmult) ideal_div ideal_pow
    (lift2 Qmax) (lift2 Qmin)
    (fun a b => match a, b with
                | Some x, Some y => negb (Qle_bool y x)
                | _, _ => false
                end)
    (fun x => match x with Some q => Some (inject_Z (Qfloor q)) | None => None end)
    ideal_toFixed
    ideal_toLocaleString.

(** The counter after the first statement of the set-up loop body. *)
Definition with_role (c : element) : element :=
  if hasAttribute "role" c then c else setAttribute "role" (lit "status") c.

(** What an animation has written to the counter [e]: only its text while a
    frame is requested, and [aria-live] as well once none is. *)
Definition written (h : host) (e : element) (a : animation h) : Prop :=
  (requested a = true -> set_textContent [] (el a) = set_textContent [] e) /\
  (requested a = false ->
   set_textContent [] (el a) =
   set_textContent [] (setAttribute "aria-live" (lit "polite") e)).

End Counter.

(* ================================================================== *)
(** ** A sample page *)

Module Sample.

Import PrimFloat.

Definition input (i : nat) (name : string) (v : jsstring) : node :=
  Node (mkElement i "input" [("name"%string, lit name)] [] [] v [] false) [].

Definition textarea (i : nat) (name : string) (v : jsstring) : node :=
  Node (mkElement i "textarea" [("name"%string, lit name)] [] [] v [] false) [].

Definition button (i : nat) (label : jsstring) : node :=
  Node (mkElement i "button" [("type"%string, lit "submit")] [] label [] [] false) [].

Definition box (i : nat) (tag : string) (ks : list node) : node :=
  Node (mkElement i tag [] [] [] [] [] false) ks.

(** [<form><p><input name="name"></p><input name="email">
     <textarea name="message"></textarea><button type="submit">Send</button></form>] *)
Definition form (name email message : jsstring) : node :=
  box 0 "form"
    [ box 1 "p" [input 2 "name" name];
      input 3 "email" email;
      textarea 4 "message" message;
      button 5 (lit "Send") ].

Definition page (name email message : jsstring) : Form.page :=
  Form.mkPage (form name email message) None [] 6.

(** The form of the spec's failing example. *)
Definition bad_page : Form.page := page (lit "A") (lit "bad") (lit "short").

(** The form of the spec's passing example. *)
Definition good_page : Form.page :=
  page (lit "Jane Doe") (lit "jane@example.com") (lit "Hello, this is a real inquiry.").

(** A form without a name input. *)
Definition nameless_page : Form.page :=
  Form.mkPage
    (box 0 "form"
       [ input 3 "email" (lit "bad");
         textarea 4 "message" (lit "short");
         button 5 (lit "Send") ])
    (Some 5) [] 6.

(** A closed menu: [<button class="menu-toggle" aria-expanded="false">]
    with the burger glyph and [<nav class="main-nav">]. *)
Definition menu : Menu.page :=
  Menu.mkPage
    (Some (mkElement 1 "button" [("aria-expanded"%string, lit "false")]
             ["menu-toggle"%string] Menu.burger [] [] false))
    (Some (mkElement 2 "nav" [] ["main-nav"%string] [] [] [] false))
    None.

(** A document with [<header class="site-header">] and
    [<section id="about">], and the link [<a href="#about">]. *)
Definition about : element :=
  mkElement 2 "section" [("id"%string, lit "about")] [] [] [] [] false.

Definition site_header : element :=
  mkElement 1 "header" [] ["site-header"%string] [] [] [] false.

(** The section is 500 px below the top of the viewport, the page is
    scrolled by 100 px, the header is 60 px high; in doubles. *)
Definition scroll_page : Scroll.page Scroll.ieee :=
  @Scroll.mkPage Scroll.ieee
    (box 0 "body" [Node site_header []; Node about []])
    (Some site_header)
    100%float
    (fun i => if Nat.eqb i 2 then 500%float else 0%float)
    (fun i => if Nat.eqb i 1 then 60%float else 0%float).

(** Layouts with fractions of a pixel, in doubles: without a header, the
    section 18.1 px below the top of the viewport and the page scrolled by
    0.2 px; and with a header of 54.4 px, the section at 39.8 px and the
    page scrolled by 32.6 px. *)
#[local] Set Warnings "-inexact-float".

Definition fractional_page : Scroll.page Scroll.ieee :=
  @Scroll.mkPage Scroll.ieee
    (box 0 "body" [Node about []])
    None
    0.2%float
    (fun i => if Nat.eqb i 2 then 18.1%float else 0%float)
    (fun _ => 0%float).

Definition boundary_page : Scroll.page Scroll.ieee :=
  @Scroll.mkPage Scroll.ieee
    (box 0 "body" [Node site_header []; Node about []])
    (Some site_header)
    32.6%float
    (fun i => if Nat.eqb i 2 then 39.8%float else 0%float)
    (fun i => if Nat.eqb i 1 then 54.4%float else 0%float).

#[local] Set Warnings "inexact-float".


Definition about_link : element :=
  mkElement 3 "a" [("href"%string, lit "#about")] [] (lit "About") [] [] false.

(** [<div class="counter" data-target="...">0</div>] *)
Definition counter (data_target : jsstring) : element :=
  mkElement 1 "div" [("data-target"%string, data_target)] ["counter"%string]
    (lit "0") [] [] false.

(** A counter without [data-target] and without text. *)
Definition bare_counter : element :=
  mkElement 1 "div" [] ["counter"%string] [] [] [] false.

(** Frames at 0, 750 and 1500 ms after the start. *)
Definition frames : list (Counter.number Counter.ideal) :=
  [Some (inject_Z 0); Some (inject_Z 750); Some (inject_Z 1500)].

(** A menu whose nav has the class [active] while the toggle button has no
    [aria-expanded] and a text label. *)
Definition open_out_of_sync : Menu.page :=
  Menu.mkPage
    (Some (mkElement 1 "button" [] [] (lit "Menu") [] [] false))
    (Some (mkElement 2 "nav" [] ["main-nav"%string; "active"%string] [] [] [] false))
    (Some 7).

(** A toggle button and a nav as plain markup: no [aria-expanded], no
    glyph. *)
Definition bare_menu : Menu.page :=
  Menu.mkPage
    (Some (mkElement 1 "button" [] ["menu-toggle"%string] (lit "Menu") [] [] false))
    (Some (mkElement 2 "nav" [] ["main-nav"%string] [] [] [] false))
    None.

(** [<body><section class="reveal"></section><p></p>
     <div class="reveal card"></div></body>] and two batches of entries. *)
Definition reveal_doc : node :=
  box 0 "body"
    [ Node (mkElement 1 "section" [] ["reveal"%string] [] [] [] false) [];
      box 2 "p" [];
      Node (mkElement 3 "div" [] ["reveal"; "card"]%string [] [] [] false) [] ].

Definition reveal_batches : list (list Reveal.entry) :=
  [ [Reveal.mkEntry 1 true; Reveal.mkEntry 3 false; Reveal.mkEntry 2 true];
    [Reveal.mkEntry 1 true; Reveal.mkEntry 3 true] ].

(** The failing example with the timer of an earlier send still pending:
    the button is disabled and says [Sending...]. *)
Definition pending_page : Form.page :=
  Form.mkPage
    (box 0 "form"
       [ box 1 "p" [input 2 "name" (lit "A")];
         input 3 "email" (lit "bad");
         textarea 4 "message" (lit "short");
         Node (Form.sending (elem (button 5 (lit "Send")))) [] ])
    None [(900%N, Form.SendDone (Some 5))] 6.

(** The passing example after its send timer fired: the success banner 6
    is in the form, the fields are empty again, and the timer that removes
    the banner is pending. *)
Definition sent_page : Form.page := Form.after_send good_page.

(** The page the failing example leaves: the error nodes 6, 7 and 8 after
    the name, e-mail and message fields, and the summary 9. *)
Definition shown_page : Form.page := Form.after_errors bad_page.

(** The passing example in a form whose submit control is
    [<button>Send</button>]: a button without a [type] attribute, which
    submits the form as one with [type="submit"] does. *)
Definition plain_button : element :=
  mkElement 5 "button" [] [] (lit "Send") [] [] false.

Definition plain_button_page : Form.page :=
  Form.mkPage
    (box 0 "form"
       [ box 1 "p" [input 2 "name" (lit "Jane Doe")];
         input 3 "email" (lit "jane@example.com");
         textarea 4 "message" (lit "Hello, this is a real inquiry.");
         Node plain_button [] ])
    None [] 6.

End Sample.

(* ################################################################## *)
(** * Part II: properties *)

(* ================================================================== *)
(** ** Strings *)

Lemma str_eqb_eq a b : str_eqb a b = true <-> a = b.
Proof. unfold str_eqb; destruct (list_eq_dec N.eq_dec a b); intuition congruence. Qed.

Lemma str_eqb_refl a : str_eqb a a = true.
Proof. now apply str_eqb_eq. Qed.

Lemma str_eqb_neq a b : str_eqb a b = false <-> a <> b.
Proof. unfold str_eqb; destruct (list_eq_dec N.eq_dec a b); intuition congruence. Qed.

(* ================================================================== *)
(** ** The regexp matcher *)

#[local] Hint Constructors lang : core.

Lemma nullable_lang r : nullable r = true <-> lang r [].
Proof.
  induction r; simpl; split; intros H; auto; try discriminate;
    try solve [inversion H].
  - apply andb_true_iff in H as [H1 H2].
    change (@nil jschar) with (@nil jschar ++ []); constructor; tauto.
  - inversion H; subst.
    match goal with E : _ ++ _ = [] |- _ => apply app_eq_nil in E as [-> ->] end.
    apply andb_true_iff; tauto.
  - apply orb_true_iff in H as [H|H]; [apply lang_alt_l|apply lang_alt_r]; tauto.
  - apply orb_true_iff; inversion H; subst; tauto.
Qed.

Lemma lang_star_cons_inv r c s :
  lang (Star r) (c :: s) ->
  exists s1 s2, s = s1 ++ s2 /\ lang r (c :: s1) /\ lang (Star r) s2.
Proof.
  intros H. remember (Star r) as r0 eqn:Er. remember (c :: s) as w eqn:Ew.
  revert Er Ew. induction H; intros; try discriminate.
  injection Er as ->.
  destruct s1 as [|c1 s1]; simpl in Ew.
  - auto.
  - injection Ew as -> <-. eauto.
Qed.

Lemma lang_cat_inv r1 r2 s :
  lang (Cat r1 r2) s <-> exists s1 s2, s = s1 ++ s2 /\ lang r1 s1 /\ lang r2 s2.
Proof.
  split.
  - intros H; inversion H; subst; eauto.
  - intros (s1 & s2 & -> & H1 & H2); auto.
Qed.

Lemma lang_alt_inv r1 r2 s : lang (Alt r1 r2) s <-> lang r1 s \/ lang r2 s.
Proof.
  split.
  - intros H; inversion H; subst; auto.
  - intros [H|H]; auto.
Qed.

Lemma lang_cat_cons r1 r2 c s :
  lang (Cat r1 r2) (c :: s) <->
  (exists s1 s2, s = s1 ++ s2 /\ lang r1 (c :: s1) /\ lang r2 s2) \/
  (lang r1 [] /\ lang r2 (c :: s)).
Proof.
  rewrite lang_cat_inv. split.
  - intros (s1 & s2 & E & H1 & H2). destruct s1 as [|c1 s1]; simpl in E.
    + subst s2. auto.
    + injection E as <- ->. left; eauto.
  - intros [(s1 & s2 & -> & H1 & H2)|[H1 H2]].
    + exists (c :: s1), s2; auto.
    + exists [], (c :: s); auto.
Qed.

Lemma deriv_lang r : forall c s, lang (deriv c r) s <-> lang r (c :: s).
Proof.
  induction r as [| |p|r1 IH1 r2 IH2|r1 IH1 r2 IH2|r IH]; intros c s; simpl.
  - split; intros H; inversion H.
  - split; intros H; inversion H.
  - destruct (p c) eqn:E; split; intros H; inversion H; subst; auto; congruence.
  - rewrite lang_cat_cons. destruct (nullable r1) eqn:N1.
    + rewrite lang_alt_inv, lang_cat_inv, IH2. apply nullable_lang in N1.
      split.
      * intros [(s1 & s2 & -> & H1 & H2)|H]; [left|right; auto].
        apply IH1 in H1. eauto.
      * intros [(s1 & s2 & -> & H1 & H2)|[_ H]]; [left|right; auto].
        apply IH1 in H1. eauto.
    + rewrite lang_cat_inv. split.
      * intros (s1 & s2 & -> & H1 & H2). apply IH1 in H1. left; eauto.
      * intros [(s1 & s2 & -> & H1 & H2)|[H _]].
        -- apply IH1 in H1. eauto.
        -- apply nullable_lang in H. congruence.
  - rewrite !lang_alt_inv, IH1, IH2. tauto.
  - rewrite lang_cat_inv. split.
    + intros (s1 & s2 & -> & H1 & H2). apply IH in H1.
      change (c :: s1 ++ s2) with ((c :: s1) ++ s2). auto.
    + intros H. apply lang_star_cons_inv in H as (s1 & s2 & -> & H1 & H2).
      apply IH in H1. eauto.
Qed.

(** The matcher decides the language. *)
Lemma test_lang r s : test r s = true <-> lang r s.
Proof.
  revert r; induction s as [|c s IH]; intros r; simpl.
  - apply nullable_lang.
  - rewrite IH. apply deriv_lang.
Qed.

(** Words of [[p]+]. *)
Lemma lang_star_class p s : lang (Star (Class p)) s <-> Forall (fun c => p c = true) s.
Proof.
  split.
  - intros H. remember (Star (Class p)) as r eqn:Er.
    induction H; try discriminate; auto.
    injection Er as ->. inversion H; subst. simpl. auto.
  - induction 1 as [|c s Hc _ IH]; auto.
    change (c :: s) with ([c] ++ s). auto.
Qed.

Lemma lang_plus_class p s :
  lang (Plus (Class p)) s <-> s <> [] /\ Forall (fun c => p c = true) s.
Proof.
  unfold Plus. split.
  - intros H. inversion H; subst.
    match goal with H1 : lang (Class _) _ |- _ => inversion H1; subst end.
    split; [discriminate|]. constructor; [assumption|].
    now apply lang_star_class.
  - intros [Hne Hall]. destruct s as [|c s]; [congruence|].
    inversion Hall; subst. change (c :: s) with ([c] ++ s).
    constructor; auto. now apply lang_star_class.
Qed.

Lemma lang_chr c s : lang (Chr c) s <-> s = [c].
Proof.
  unfold Chr. split.
  - intros H; inversion H; subst.
    match goal with E : N.eqb _ _ = true |- _ => apply N.eqb_eq in E; now subst end.
  - intros ->. constructor. apply N.eqb_refl.
Qed.

(* ================================================================== *)
(** ** The e-mail validator *)

Import Email.

Lemma not_space_at_iff c :
  not_space_at c = true <-> is_ws c = false /\ c <> at_sign.
Proof.
  unfold not_space_at. rewrite negb_true_iff, orb_false_iff, N.eqb_neq. tauto.
Qed.

Lemma Forall_not_space_at s :
  Forall (fun c => not_space_at c = true) s <->
  Forall (fun c => is_ws c = false) s /\ count_occ N.eq_dec s at_sign = 0%nat.
Proof.
  induction s as [|c s IH]; simpl.
  - intuition constructor.
  - rewrite !Forall_cons_iff, IH, not_space_at_iff.
    destruct (N.eq_dec c at_sign); intuition (try congruence; try discriminate).
Qed.

(** The language of [emailRe], part by part. *)
Lemma lang_emailRe s :
  lang emailRe s <->
  exists l d t,
    s = l ++ [at_sign] ++ d ++ [full_stop] ++ t /\
    (l <> [] /\ Forall (fun c => not_space_at c = true) l) /\
    (d <> [] /\ Forall (fun c => not_space_at c = true) d) /\
    (t <> [] /\ Forall (fun c => not_space_at c = true) t).
Proof.
  unfold emailRe. split.
  - intros H.
    apply lang_cat_inv in H as (l & r1 & -> & Hl & H).
    apply lang_cat_inv in H as (a & r2 & -> & Ha & H).
    apply lang_cat_inv in H as (d & r3 & -> & Hd & H).
    apply lang_cat_inv in H as (p & t & -> & Hp & Ht).
    apply lang_chr in Ha, Hp. subst a p.
    apply lang_plus_class in Hl, Hd, Ht.
    exists l, d, t. auto.
  - intros (l & d & t & -> & Hl & Hd & Ht).
    apply lang_plus_class in Hl, Hd, Ht.
    repeat (apply lang_cat; [first [assumption | now apply lang_chr]|]).
    assumption.
Qed.

Lemma email_accepted_lang s : email_accepted s = true <-> lang emailRe s.
Proof.
  unfold email_accepted, email_fails.
  rewrite negb_true_iff, orb_false_iff, negb_false_iff, test_lang.
  split; [tauto|]. intros H. split; [|assumption].
  apply lang_emailRe in H as (l & d & t & -> & [Hl _] & _).
  destruct l; [congruence|reflexivity].
Qed.

Lemma count_at_parts l d t :
  count_occ N.eq_dec (l ++ [at_sign] ++ d ++ [full_stop] ++ t) at_sign =
  S (count_occ N.eq_dec l at_sign + count_occ N.eq_dec d at_sign
     + count_occ N.eq_dec t at_sign).
Proof.
  rewrite !count_occ_app.
  change (count_occ N.eq_dec [at_sign] at_sign) with 1.
  change (count_occ N.eq_dec [full_stop] at_sign) with 0.
  lia.
Qed.

Lemma is_ws_stop_at : is_ws at_sign = false /\ is_ws full_stop = false.
Proof. split; reflexivity. Qed.

(** The accepted values are the ones of the spec's shape, with three
    non-empty parts. *)
Lemma email_accepted_spec (s : jsstring) :
  email_accepted s = true <-> spec_email s.
Proof.
  rewrite email_accepted_lang, lang_emailRe. unfold spec_email, has_shape.
  split.
  - intros (l & d & t & -> & [Hl Al] & [Hd Ad] & [Ht At]).
    apply Forall_not_space_at in Al as [Wl Cl], Ad as [Wd Cd], At as [Wt Ct].
    split; [destruct l; [congruence|discriminate]|].
    split; [exists l, d, t; auto|].
    split; [rewrite count_at_parts, Cl, Cd, Ct; reflexivity|].
    destruct is_ws_stop_at as [Wa Ws].
    repeat (apply Forall_app; split); auto.
  - intros (_ & (l & d & t & Hl & Hd & Ht & ->) & Hc & Hw).
    rewrite count_at_parts in Hc.
    apply Forall_app in Hw as [Wl Hw]. apply Forall_app in Hw as [_ Hw].
    apply Forall_app in Hw as [Wd Hw]. apply Forall_app in Hw as [_ Wt].
    exists l, d, t. split; [reflexivity|].
    repeat split; auto; apply Forall_not_space_at; split; auto; lia.
Qed.

(** C3.  The e-mail validator accepts the trimmed value exactly when it is
    non-empty and of the shape [local@domain.tld]: three non-empty parts,
    one [@] in all, a full stop after it, no whitespace anywhere. *)
Theorem email_validator_accepts_shape (raw : jsstring) :
  let emailVal := trim raw in
  email_fails emailVal = false <->
  emailVal <> [] /\
  (exists local domain tld,
      local <> [] /\ domain <> [] /\ tld <> [] /\
      emailVal = local ++ [at_sign] ++ domain ++ [full_stop] ++ tld) /\
  count_occ N.eq_dec emailVal at_sign = 1 /\
  Forall (fun c => is_ws c = false) emailVal.
Proof.
  intros emailVal.
  assert (E : email_fails emailVal = false <-> email_accepted emailVal = true).
  { unfold email_accepted. now rewrite negb_true_iff. }
  rewrite E. apply email_accepted_spec.
Qed.

(** Some values. *)
Example email_accepts_jane : email_accepted (lit "jane@example.com") = true.
Proof. reflexivity. Qed.

Example email_rejects_bad : email_accepted (lit "bad") = false.
Proof. reflexivity. Qed.

Example email_rejects_empty_tld : email_accepted (lit "a@b.") = false.
Proof. reflexivity. Qed.

Example email_rejects_inner_space : email_accepted (lit "a b@c.d") = false.
Proof. reflexivity. Qed.

(* ================================================================== *)
(** ** Elements: attributes and class lists *)

Lemma assoc_set_get name v l : assoc name (assoc_set name v l) = Some v.
Proof.
  induction l as [|[k x] l IH]; simpl.
  - now rewrite String.eqb_refl.
  - destruct (String.eqb k name) eqn:E; simpl; now rewrite E.
Qed.

Lemma assoc_set_twice name v w l :
  assoc_set name w (assoc_set name v l) = assoc_set name w l.
Proof.
  induction l as [|[k x] l IH]; simpl.
  - now rewrite String.eqb_refl.
  - destruct (String.eqb k name) eqn:E; simpl; rewrite E; congruence.
Qed.

Lemma assoc_set_same name v l : assoc name l = Some v -> assoc_set name v l = l.
Proof.
  induction l as [|[k x] l IH]; simpl; [discriminate|].
  destruct (String.eqb k name); intros H.
  - congruence.
  - now rewrite IH.
Qed.

Lemma getAttribute_setAttribute name v e :
  getAttribute name (setAttribute name v e) = Some v.
Proof. apply assoc_set_get. Qed.

Lemma contains_classList_add c e : contains c (classList_add c e) = true.
Proof.
  unfold classList_add. destruct (contains c e) eqn:E; [assumption|].
  unfold contains; simpl. rewrite existsb_app; simpl.
  rewrite String.eqb_refl. apply orb_true_iff; right; reflexivity.
Qed.

Lemma contains_classList_remove c e : contains c (classList_remove c e) = false.
Proof.
  unfold classList_remove, contains; simpl.
  induction (classList e) as [|x l IH]; simpl; [reflexivity|].
  destruct (String.eqb c x) eqn:E; simpl; [assumption|].
  now rewrite E.
Qed.

Lemma contains_classList_toggle c e :
  contains c (classList_toggle c e) = negb (contains c e).
Proof.
  unfold classList_toggle. destruct (contains c e) eqn:E; simpl.
  - apply contains_classList_remove.
  - apply contains_classList_add.
Qed.

(** Removing a token that was added at the end gives the list back. *)
Lemma filter_absent c (l : list string) :
  existsb (String.eqb c) l = false ->
  filter (fun x => negb (String.eqb c x)) l = l.
Proof.
  induction l as [|x l IH]; simpl; [reflexivity|].
  intros H. apply orb_false_iff in H as [H1 H2].
  rewrite H1; simpl. now rewrite IH.
Qed.

Lemma classList_toggle_twice c e :
  contains c e = false ->
  classList_toggle c (classList_toggle c e) = e.
Proof.
  intros H. unfold classList_toggle at 2. rewrite H.
  unfold classList_toggle. rewrite contains_classList_add.
  unfold classList_add. rewrite H.
  unfold classList_remove, set_classList; simpl.
  rewrite filter_app; simpl. rewrite String.eqb_refl; simpl.
  rewrite app_nil_r, filter_absent by exact H.
  now destruct e.
Qed.

Lemma assoc_set_other name name' v l :
  name <> name' -> assoc name (assoc_set name' v l) = assoc name l.
Proof.
  intros N. apply String.eqb_neq in N.
  induction l as [|[k x] l IH]; simpl.
  - rewrite String.eqb_sym. now rewrite N.
  - destruct (String.eqb k name') eqn:E; simpl.
    + apply String.eqb_eq in E. subst k.
      rewrite String.eqb_sym. now rewrite N.
    + now rewrite IH.
Qed.

Lemma getAttribute_setAttribute_other name name' v e :
  name <> name' -> getAttribute name (setAttribute name' v e) = getAttribute name e.
Proof. apply assoc_set_other. Qed.

(* ================================================================== *)
(** ** Sticky header *)

Lemma gt_lt a b : Sticky.gt a b = true <-> (b < a)%Q.
Proof.
  unfold Sticky.gt. rewrite negb_true_iff, <- not_true_iff_false, Qle_bool_iff.
  split; [apply Qnot_le_lt | apply Qlt_not_le].
Qed.

Lemma onScroll_is_sticky h y :
  Sticky.is_sticky (Sticky.onScroll (Sticky.mkPage (Some h) y)) = Sticky.gt y Sticky.STICKY_OFFSET.
Proof.
  unfold Sticky.onScroll, Sticky.is_sticky; simpl.
  destruct (Sticky.gt y Sticky.STICKY_OFFSET); simpl.
  - apply contains_classList_add.
  - apply contains_classList_remove.
Qed.

Lemma onScroll_scrollY p : Sticky.scrollY (Sticky.onScroll p) = Sticky.scrollY p.
Proof.
  unfold Sticky.onScroll. destruct (Sticky.header p); [|reflexivity].
  now destruct (Sticky.gt _ _).
Qed.

(** C8.  Whatever the header and the offset were before, after the handler
    has run for the load or for a scroll event at offset [y], the header
    has the class [is-sticky] exactly when [y > 48]. *)
Theorem sticky_iff_scrolled_past_offset (h : element) (y0 : Q) (ev : Sticky.event) :
  let p := Sticky.handle ev (Sticky.mkPage (Some h) y0) in
  let y := match ev with Sticky.PageLoad => y0 | Sticky.ScrollEvent y => y end in
  Sticky.scrollY p = y /\
  (exists h', Sticky.header p = Some h' /\
     (contains "is-sticky" h' = true <-> (inject_Z 48 < y)%Q)).
Proof.
  intros p y. split.
  - subst p y. destruct ev; simpl; now rewrite onScroll_scrollY.
  - assert (S : Sticky.is_sticky p = Sticky.gt y Sticky.STICKY_OFFSET).
    { subst p y. destruct ev; simpl; apply onScroll_is_sticky. }
    assert (H : exists h', Sticky.header p = Some h').
    { subst p. destruct ev; simpl; unfold Sticky.onScroll; simpl;
        destruct (Sticky.gt _ _); simpl; eauto. }
    destruct H as [h' Hh]. exists h'. split; [assumption|].
    unfold Sticky.is_sticky in S. rewrite Hh in S. rewrite S.
    apply gt_lt.
Qed.

(* ================================================================== *)
(** ** Mobile menu *)

Ltac menu_fields H :=
  unfold Menu.has_active, Menu.aria_expanded, Menu.glyph in H; simpl in H.

Section MenuFacts.

Import Menu.

Variables (t n : element) (focus : option nat).

Lemma on_toggle_click_closed :
  closed (mkPage (Some t) (Some n) focus) ->
  on_toggle_click t n focus =
  mkPage (Some (set_innerText cross (setAttribute "aria-expanded" (lit "true") t)))
    (Some (classList_toggle "active" n)) focus.
Proof.
  intros (_ & Hc & Ha & _). menu_fields Hc. menu_fields Ha.
  unfold on_toggle_click, attr_is. rewrite Ha, contains_classList_toggle, Hc.
  reflexivity.
Qed.

Lemma on_toggle_click_opened :
  opened (mkPage (Some t) (Some n) focus) ->
  on_toggle_click t n focus =
  mkPage (Some (set_innerText burger (setAttribute "aria-expanded" (lit "false") t)))
    (Some (classList_toggle "active" n)) focus.
Proof.
  intros (_ & Hc & Ha & _). menu_fields Hc. menu_fields Ha.
  unfold on_toggle_click, attr_is. rewrite Ha, contains_classList_toggle, Hc.
  reflexivity.
Qed.

Lemma closed_intro t' n' f' :
  contains "active" n' = false ->
  getAttribute "aria-expanded" t' = Some (lit "false") ->
  innerText t' = burger ->
  closed (mkPage (Some t') (Some n') f').
Proof.
  intros H1 H2 H3. unfold closed, has_active, aria_expanded, glyph; simpl.
  rewrite H3. repeat split; eauto.
Qed.

Lemma opened_intro t' n' f' :
  contains "active" n' = true ->
  getAttribute "aria-expanded" t' = Some (lit "true") ->
  innerText t' = cross ->
  opened (mkPage (Some t') (Some n') f').
Proof.
  intros H1 H2 H3. unfold opened, has_active, aria_expanded, glyph; simpl.
  rewrite H3. repeat split; eauto.
Qed.

Lemma close_menu_closed f' :
  closed (mkPage
            (Some (set_innerText burger (setAttribute "aria-expanded" (lit "false") t)))
            (Some (classList_remove "active" n)) f').
Proof.
  apply closed_intro.
  - apply contains_classList_remove.
  - apply (getAttribute_setAttribute "aria-expanded" (lit "false") t).
  - reflexivity.
Qed.

End MenuFacts.

Lemma handle_toggle t n f :
  Menu.handle (Menu.mkPage (Some t) (Some n) f) Menu.ToggleClick =
  Menu.on_toggle_click t n f.
Proof. reflexivity. Qed.

Lemma handle_link t n f :
  Menu.handle (Menu.mkPage (Some t) (Some n) f) Menu.NavLinkClick =
  Menu.on_link_click t n f.
Proof. reflexivity. Qed.

Lemma handle_key t n f key :
  Menu.handle (Menu.mkPage (Some t) (Some n) f) (Menu.KeyDown key) =
  Menu.on_keydown key t n f.
Proof. reflexivity. Qed.

(** A transition leaves the menu closed or opened. *)
Lemma handle_closed_or_opened p ev :
  Menu.closed p \/ Menu.opened p ->
  Menu.closed (Menu.handle p ev) \/ Menu.opened (Menu.handle p ev).
Proof.
  intros H.
  assert (E : exists t n f, p = Menu.mkPage (Some t) (Some n) f).
  { destruct p as [mt mn f].
    destruct H as [((t & n & Ht & Hn) & _)|((t & n & Ht & Hn) & _)];
      simpl in Ht, Hn; subst; eauto. }
  destruct E as (t & n & f & ->).
  destruct ev as [| |key];
    [rewrite handle_toggle|rewrite handle_link|rewrite handle_key].
  - destruct H as [H|H].
    + right. rewrite on_toggle_click_closed by assumption.
      destruct H as (_ & Hc & _). menu_fields Hc.
      apply opened_intro.
      * now rewrite contains_classList_toggle, Hc.
      * apply (getAttribute_setAttribute "aria-expanded" (lit "true") t).
      * reflexivity.
    + left. rewrite on_toggle_click_opened by assumption.
      destruct H as (_ & Hc & _). menu_fields Hc.
      apply closed_intro.
      * now rewrite contains_classList_toggle, Hc.
      * apply (getAttribute_setAttribute "aria-expanded" (lit "false") t).
      * reflexivity.
  - unfold Menu.on_link_click.
    destruct (contains "active" n) eqn:Hc; [left; apply close_menu_closed|assumption].
  - unfold Menu.on_keydown.
    destruct (str_eqb key (lit "Escape") && contains "active" n) eqn:Hc;
      [left; apply close_menu_closed|assumption].
Qed.

Lemma run_closed_or_opened evs : forall p,
  Menu.closed p \/ Menu.opened p ->
  Menu.closed (Menu.run p evs) \/ Menu.opened (Menu.run p evs).
Proof.
  induction evs as [|ev evs IH]; intros p H; simpl; [assumption|].
  apply IH, handle_closed_or_opened, H.
Qed.

Lemma closed_or_opened_in_sync p :
  Menu.closed p \/ Menu.opened p -> Menu.in_sync p.
Proof.
  unfold Menu.in_sync.
  intros [(_ & Hc & Ha & Hg)|(_ & Hc & Ha & Hg)]; rewrite Hc, Ha, Hg;
    (split; split; intros E; solve [reflexivity | discriminate E]).
Qed.

(** C6.  From the closed menu, after any sequence of toggle clicks,
    nav-link clicks and key presses, the nav container has the class
    [active] iff [aria-expanded] is ["true"] iff the glyph is the cross. *)
Theorem menu_state_stays_in_sync (p : Menu.page) (evs : list Menu.event) :
  Menu.closed p ->
  let p' := Menu.run p evs in
  (Menu.has_active p' = true <-> Menu.aria_expanded p' = Some (lit "true")) /\
  (Menu.aria_expanded p' = Some (lit "true") <-> Menu.glyph p' = Some Menu.cross).
Proof.
  intros H p'. apply closed_or_opened_in_sync.
  apply run_closed_or_opened. left; exact H.
Qed.

(** C7.  Two toggle clicks on the closed menu give back the very same
    page: the same class list, the same attributes and the same glyph. *)
Theorem toggle_twice_restores_closed (p : Menu.page) :
  Menu.closed p ->
  let p2 := Menu.handle (Menu.handle p Menu.ToggleClick) Menu.ToggleClick in
  p2 = p /\ Menu.closed p2.
Proof.
  intros H p2.
  assert (E : p2 = p); [|rewrite E; auto].
  subst p2.
  destruct p as [[t|] [n|] f];
    try (destruct H as ((t' & n' & Ht & Hn) & _); simpl in Ht, Hn; discriminate).
  assert (O : Menu.opened (Menu.handle (Menu.mkPage (Some t) (Some n) f) Menu.ToggleClick)).
  { destruct (handle_closed_or_opened Menu.ToggleClick (or_introl H)) as [C|O];
      [|exact O].
    rewrite handle_toggle, on_toggle_click_closed in C by assumption.
    destruct H as (_ & Hc & _), C as (_ & Hc' & _).
    menu_fields Hc. menu_fields Hc'.
    rewrite contains_classList_toggle, Hc in Hc'. discriminate Hc'. }
  rewrite handle_toggle, on_toggle_click_closed in O |- * by assumption.
  rewrite handle_toggle, on_toggle_click_opened by assumption.
  destruct H as (_ & Hc & Ha & Hg). menu_fields Hc. menu_fields Ha. menu_fields Hg.
  rewrite classList_toggle_twice by assumption.
  f_equal. f_equal.
  unfold set_innerText, setAttribute; simpl.
  rewrite assoc_set_twice, assoc_set_same by exact Ha.
  injection Hg as <-. now destruct t.
Qed.

Lemma sample_menu_closed : Menu.closed Sample.menu.
Proof.
  split; [|repeat split]. eexists _, _. split; reflexivity.
Qed.

(** The sample menu after open, link click, open, Escape, open. *)
Lemma menu_state_example :
  let p' := Menu.run Sample.menu
              [Menu.ToggleClick; Menu.NavLinkClick; Menu.ToggleClick;
               Menu.KeyDown (lit "Escape"); Menu.ToggleClick] in
  (Menu.has_active p' = true <-> Menu.aria_expanded p' = Some (lit "true")) /\
  (Menu.aria_expanded p' = Some (lit "true") <-> Menu.glyph p' = Some Menu.cross).
Proof.
  exact (menu_state_stays_in_sync
           [Menu.ToggleClick; Menu.NavLinkClick; Menu.ToggleClick;
            Menu.KeyDown (lit "Escape"); Menu.ToggleClick]
           sample_menu_closed).
Defined.

Lemma toggle_twice_example :
  Menu.handle (Menu.handle Sample.menu Menu.ToggleClick) Menu.ToggleClick = Sample.menu /\
  Menu.closed (Menu.handle (Menu.handle Sample.menu Menu.ToggleClick) Menu.ToggleClick).
Proof.
  exact (toggle_twice_restores_closed sample_menu_closed).
Defined.

(* ================================================================== *)
(** ** Smooth scroll *)

Section ScrollFacts.

Import Scroll.

(** The links the claim is about get the click listener. *)
Lemma listens_hash_link link id :
  tag_is "a" link = true ->
  getAttribute "href" link = Some (hash :: id) ->
  id <> [] ->
  hasAttribute "data-no-smooth" link = false ->
  listens link = true.
Proof.
  intros Ht Hh Hid Hd. unfold listens, sel_hash_link, skipped.
  rewrite Ht, Hh, Hd, N.eqb_refl; simpl.
  destruct (str_eqb (hash :: id) [hash]) eqn:E; [|reflexivity].
  apply str_eqb_eq in E. injection E as E. contradiction.
Qed.

(** A bare [#] and an opted-out link get no listener. *)
Lemma listens_bare_hash link :
  getAttribute "href" link = Some [hash] -> listens link = false.
Proof.
  intros Hh. unfold listens, skipped. rewrite Hh; simpl.
  apply andb_false_r.
Qed.

Lemma listens_opted_out link :
  hasAttribute "data-no-smooth" link = true -> listens link = false.
Proof.
  intros Hd. unfold listens, skipped. rewrite Hd.
  destruct (getAttribute "href" link); simpl;
    rewrite ?orb_true_r; apply andb_false_r.
Qed.

End ScrollFacts.

(** C5.  A click on an in-page link ([href] is [#] followed by a non-empty
    id, no opt-out flag), on any host: when the id names an element, the
    default is prevented and the page scrolls to
    [Math.max(0, top of the target in the document - header height - 18)],
    the sum and the two differences taken by the host in the order the
    script writes them; when it names none, nothing is intercepted. *)
Theorem smooth_scroll_target_offset
  (h : Scroll.host) (link : element) (id : jsstring) (p : Scroll.page h) :
  tag_is "a" link = true ->
  getAttribute "href" link = Some (Scroll.hash :: id) ->
  id <> [] ->
  hasAttribute "data-no-smooth" link = false ->
  let header_height :=
    match Scroll.header p with
    | Some hd => Scroll.rect_height p (nid hd)
    | None => Scroll.of_N h 0
    end in
  match Scroll.getElementById id p with
  | Some target =>
      let target_top :=
        Scroll.add h (Scroll.rect_top p (nid target)) (Scroll.scrollY p) in
      Scroll.click link p =
      Scroll.mkOutcome true
        (Some (Scroll.max h (Scroll.of_N h 0)
                 (Scroll.sub h (Scroll.sub h target_top header_height)
                    (Scroll.of_N h 18))))
  | None =>
      Scroll.click link p = Scroll.mkOutcome false None
  end.
Proof.
  intros Ht Hh Hid Hd header_height.
  pose proof (listens_hash_link link Ht Hh Hid Hd) as L.
  unfold Scroll.click. rewrite L, Hh.
  unfold Scroll.on_click, Scroll.slice1; simpl.
  destruct (Scroll.getElementById id p) as [target|]; reflexivity.
Qed.

Section ScrollDoubles.

Import PrimFloat.

#[local] Set Warnings "-inexact-float".

(** The link [#about] on the sample page, in doubles: the section is
    500 px below the top of the viewport, the page is scrolled by 100 px,
    the header is 60 px high. *)
Lemma smooth_scroll_example :
  Scroll.click Sample.about_link Sample.scroll_page =
  Scroll.mkOutcome (h := Scroll.ieee) true (Some 522%float).
Proof.
  refine (@smooth_scroll_target_offset Scroll.ieee Sample.about_link (lit "about")
            Sample.scroll_page eq_refl eq_refl _ eq_refl).
  discriminate.
Defined.

(** The doubles round.  With the section at 18.1 px and the page scrolled
    by 0.2 px the click scrolls to 0.3000000000000007; with the section at
    39.8 px, the page scrolled by 32.6 px and a header of 54.4 px, where
    exact numbers give 0, it scrolls to 7.105427357601002e-15. *)
Example smooth_scroll_in_doubles :
  Scroll.click Sample.about_link Sample.fractional_page =
    Scroll.mkOutcome (h := Scroll.ieee) true (Some 0.3000000000000007%float) /\
  Scroll.click Sample.about_link Sample.boundary_page =
    Scroll.mkOutcome (h := Scroll.ieee) true (Some 7.105427357601002e-15%float).
Proof. split; reflexivity. Qed.

#[local] Set Warnings "inexact-float".

End ScrollDoubles.

(* ================================================================== *)
(** ** Animated counters *)

Section CounterFacts.

Import Counter.

Variable h : host.
Variable e : element.





(** A frame on which [t < 1] fails ends the animation. *)
Lemma frame_completes a now :
  requested a = true ->
  lt h (clamp h (div h (sub h now (start a)) (span a)) (of_N h 0) (of_N h 1))
    (of_N h 1) = false ->
  requested (frame h a now) = false.
Proof.
  intros R L. unfold frame, step. now rewrite R, L.
Qed.

(** Once the animation is over, later frames change nothing. *)
Lemma run_finished frames : forall a, requested a = false -> run h a frames = a.
Proof.
  induction frames as [|now frames IH]; intros a R; simpl; [reflexivity|].
  assert (F : frame h a now = a) by (unfold frame; now rewrite R).
  rewrite F. now apply IH.
Qed.


End CounterFacts.




Example counter_example_12_5 :
  let a := Counter.run Counter.ideal
             (Counter.on_intersect Counter.ideal
                (Counter.prepare (Sample.counter (lit "12.5"))) (Some (inject_Z 0)))
             Sample.frames in
  Counter.requested a = false /\
  Counter.textContent (Counter.el a) = lit "12.50".
Proof. split; reflexivity. Qed.

Example counter_example_missing :
  Counter.final_text Counter.ideal (Counter.prepare Sample.bare_counter) = lit "0".
Proof. reflexivity. Qed.

Example counter_example_not_a_number :
  Counter.final_text Counter.ideal (Sample.counter (lit "n/a")) = lit "0".
Proof. reflexivity. Qed.

(* ================================================================== *)
(** ** Trees *)

(** Induction on a node with the hypothesis for every child. *)
Lemma node_ind (P : node -> Prop) :
  (forall e ks, Forall P ks -> P (Node e ks)) -> forall n, P n.
Proof.
  intros H. fix IH 1. intros [e ks]. apply H.
  induction ks as [|k ks IHks]; constructor; [apply IH | exact IHks].
Qed.

Lemma flatten_eq n : flatten n = elem n :: descendants n.
Proof. now destruct n. Qed.

Lemma find_hd_filter {A} (P : A -> bool) l : find P l = hd_error (filter P l).
Proof.
  induction l as [|a l IH]; simpl; [reflexivity|].
  now destruct (P a).
Qed.

Lemma filter_map_commute {A} (P : A -> bool) (F : A -> A) l :
  (forall a, In a l -> P (F a) = P a) ->
  filter P (map F l) = map F (filter P l).
Proof.
  induction l as [|a l IH]; simpl; intros H; [reflexivity|].
  rewrite H by auto. destruct (P a); simpl; rewrite IH; auto.
Qed.

Lemma filter_nil_iff {A} (P : A -> bool) l :
  filter P l = [] <-> forall a, In a l -> P a = false.
Proof.
  split.
  - intros E a Ha. destruct (P a) eqn:Pa; [|reflexivity].
    assert (I : In a (filter P l)) by (apply filter_In; auto).
    rewrite E in I. destruct I.
  - intros H. induction l as [|a l IH]; simpl; [reflexivity|].
    rewrite H by (left; reflexivity). apply IH. intros; apply H; now right.
Qed.

(** *** [tmap] and [update] *)

Lemma flatten_tmap F n : flatten (tmap F n) = map F (flatten n).
Proof.
  induction n as [e ks IH] using node_ind; simpl. f_equal.
  induction IH as [|k ks Hk _ IHks]; simpl; [reflexivity|].
  now rewrite map_app, Hk, IHks.
Qed.

Lemma descendants_tmap F n : descendants (tmap F n) = map F (descendants n).
Proof.
  pose proof (flatten_tmap F n) as H. rewrite !flatten_eq in H.
  simpl in H. now injection H.
Qed.

Lemma elem_tmap F n : elem (tmap F n) = F (elem n).
Proof. now destruct n. Qed.

Lemma nid_upd i G e : (forall x, nid (G x) = nid x) -> nid (upd i G e) = nid e.
Proof. intros H. unfold upd. destruct (Nat.eqb (nid e) i); auto. Qed.

Lemma ids_tmap F n : (forall x, nid (F x) = nid x) -> ids (tmap F n) = ids n.
Proof.
  intros H. unfold ids. rewrite flatten_tmap, map_map.
  apply map_ext. exact H.
Qed.

(** *** [remove] *)

Lemma elem_remove i n : elem (remove i n) = elem n.
Proof. now destruct n. Qed.

Lemma In_descendants_remove i n e :
  In e (descendants (remove i n)) -> In e (descendants n) /\ nid e <> i.
Proof.
  revert e. induction n as [r ks IH] using node_ind. intros e.
  unfold descendants; simpl.
  induction IH as [|k ks Hk _ IHks]; simpl; [tauto|].
  rewrite elem_remove.
  destruct (Nat.eqb (nid (elem k)) i) eqn:E; simpl.
  - intros H. apply IHks in H. rewrite in_app_iff. tauto.
  - rewrite !in_app_iff, (flatten_eq (remove i k)), (flatten_eq k), elem_remove.
    simpl. apply Nat.eqb_neq in E.
    intros [[<-|H]|H].
    + auto.
    + apply Hk in H. tauto.
    + apply IHks in H. tauto.
Qed.

Lemma In_flatten_remove i n e : In e (flatten (remove i n)) -> In e (flatten n).
Proof.
  rewrite !flatten_eq, elem_remove. simpl.
  intros [H|H]; [auto|]. apply In_descendants_remove in H. tauto.
Qed.

(** *** [insertAfter] and [prepend] *)

Lemma elem_insertAfter i x n : elem (insertAfter i x n) = elem n.
Proof. now destruct n. Qed.

Section InsertLeaf.

Variables (j : nat) (ex : element).
Let x := Node ex [].

Lemma filter_descendants_insertAfter (P : element -> bool) n :
  P ex = false ->
  filter P (descendants (insertAfter j x n)) = filter P (descendants n).
Proof.
  intros Hx. induction n as [r ks IH] using node_ind.
  unfold descendants; simpl.
  induction IH as [|k ks Hk _ IHks]; simpl; [reflexivity|].
  unfold insert_after_in in *. simpl.
  rewrite flat_map_app, !filter_app, IHks. f_equal.
  assert (E : filter P (flatten (insertAfter j x k)) = filter P (flatten k)).
  { rewrite !flatten_eq, elem_insertAfter. simpl. now rewrite Hk. }
  destruct (Nat.eqb (nid (elem (insertAfter j x k))) j); simpl;
    rewrite ?app_nil_r, ?filter_app, E; simpl; rewrite ?Hx, ?app_nil_r; reflexivity.
Qed.

Lemma filter_flatten_insertAfter (P : element -> bool) n :
  P ex = false ->
  filter P (flatten (insertAfter j x n)) = filter P (flatten n).
Proof.
  intros Hx. rewrite !flatten_eq, elem_insertAfter. simpl.
  now rewrite filter_descendants_insertAfter.
Qed.

Lemma In_flatten_insertAfter n e :
  In e (flatten (insertAfter j x n)) -> e = ex \/ In e (flatten n).
Proof.
  induction n as [r ks IH] using node_ind. simpl.
  intros [H|H]; [auto|].
  enough (e = ex \/ In e (flat_map flatten ks)) by tauto.
  revert H. induction IH as [|k ks Hk _ IHks]; simpl; [tauto|].
  unfold insert_after_in in *. simpl.
  rewrite flat_map_app, !in_app_iff.
  intros [H|H]; [|apply IHks in H; tauto].
  assert (H' : In e (flatten (insertAfter j x k)) \/ e = ex).
  { destruct (Nat.eqb (nid (elem (insertAfter j x k))) j); simpl in H;
      rewrite ?app_nil_r, ?in_app_iff in H; simpl in H; intuition. }
  destruct H' as [H'|H']; [apply Hk in H'|]; tauto.
Qed.

Lemma In_flatten_insertAfter_old n e :
  In e (flatten n) -> In e (flatten (insertAfter j x n)).
Proof.
  induction n as [r ks IH] using node_ind. simpl.
  intros [H|H]; [auto|right].
  revert H. induction IH as [|k ks Hk _ IHks]; simpl; [tauto|].
  unfold insert_after_in in *. simpl.
  rewrite flat_map_app, !in_app_iff.
  intros [H|H]; [left|right; auto].
  apply Hk in H.
  destruct (Nat.eqb (nid (elem (insertAfter j x k))) j); simpl;
    rewrite ?app_nil_r, ?in_app_iff; auto.
Qed.

Lemma descendants_prepend n : descendants (prepend x n) = ex :: descendants n.
Proof. now destruct n. Qed.

Lemma elem_prepend n : elem (prepend x n) = elem n.
Proof. now destruct n. Qed.

End InsertLeaf.

(** *** Siblings *)

Lemma first_some_map_option {A B} (g : A -> B) (l : list (option A)) :
  first_some (map (option_map g) l) = option_map g (first_some l).
Proof.
  induction l as [|[a|] l IH]; simpl; auto.
Qed.

Lemma map_ext_Forall_node {B} (f g : node -> B) ks :
  Forall (fun k => f k = g k) ks -> map f ks = map g ks.
Proof. induction 1; simpl; congruence. Qed.

Lemma after_map F i ks :
  (forall k, nid (elem (F k)) = nid (elem k)) ->
  after i (map F ks) = option_map (map F) (after i ks).
Proof.
  intros H. induction ks as [|k ks IH]; simpl; [reflexivity|].
  rewrite H. now destruct (Nat.eqb (nid (elem k)) i).
Qed.

Lemma following_tmap F i n :
  (forall e, nid (F e) = nid e) ->
  following i (tmap F n) = option_map (map (tmap F)) (following i n).
Proof.
  intros H. induction n as [r ks IH] using node_ind. simpl.
  rewrite after_map by (intros k; now rewrite elem_tmap, H).
  destruct (after i ks) as [l|]; simpl; [reflexivity|].
  rewrite map_map, (map_ext_Forall_node _ _ IH), <- map_map.
  apply first_some_map_option.
Qed.

Lemma nextSibling_tmap F i n :
  (forall e, nid (F e) = nid e) ->
  nextSibling i (tmap F n) = option_map (tmap F) (nextSibling i n).
Proof.
  intros H. unfold nextSibling. rewrite following_tmap by exact H.
  destruct (following i n) as [[|k l]|]; reflexivity.
Qed.

Section SiblingsInsertLeaf.

Variables (j : nat) (ex : element).
Let x := Node ex [].

(** The child list of a parent after [insertAfter j x]. *)
Let G (l : list node) : list node := insert_after_in j x (map (insertAfter j x) l).

Lemma following_leaf i : following i x = None.
Proof. reflexivity. Qed.

Lemma after_insert_other i ks :
  i <> j -> nid ex <> i ->
  after i (G ks) = option_map G (after i ks).
Proof.
  intros Hij Hx. unfold G, insert_after_in.
  induction ks as [|k ks IH]; simpl; [reflexivity|].
  rewrite elem_insertAfter.
  destruct (Nat.eqb (nid (elem k)) j) eqn:Ej; simpl; rewrite elem_insertAfter.
  - apply Nat.eqb_eq in Ej.
    destruct (Nat.eqb (nid (elem k)) i) eqn:Ei;
      [apply Nat.eqb_eq in Ei; congruence|].
    destruct (Nat.eqb (nid ex) i) eqn:Ex;
      [apply Nat.eqb_eq in Ex; congruence|].
    exact IH.
  - destruct (Nat.eqb (nid (elem k)) i); [reflexivity|exact IH].
Qed.

Lemma after_insert_same ks :
  nid ex <> j ->
  after j (G ks) = option_map (fun l => x :: G l) (after j ks).
Proof.
  intros Hx. unfold G, insert_after_in.
  induction ks as [|k ks IH]; simpl; [reflexivity|].
  rewrite elem_insertAfter.
  destruct (Nat.eqb (nid (elem k)) j) eqn:Ej; simpl; rewrite elem_insertAfter, Ej.
  - reflexivity.
  - exact IH.
Qed.

Lemma first_some_following_G i (h : list node -> list node) ks :
  Forall (fun k => following i (insertAfter j x k) = option_map h (following i k)) ks ->
  first_some (map (following i) (G ks)) =
  option_map h (first_some (map (following i) ks)).
Proof.
  unfold G, insert_after_in.
  induction 1 as [|k ks Hk _ IH]; simpl; [reflexivity|].
  rewrite map_app.
  assert (E : forall l1 l2 : list (option (list node)),
             first_some (l1 ++ l2) =
             match first_some l1 with Some r => Some r | None => first_some l2 end).
  { induction l1 as [|[a|] l1 IHl]; simpl; auto. }
  rewrite E, IH.
  destruct (Nat.eqb (nid (elem (insertAfter j x k))) j); simpl;
    rewrite Hk; destruct (following i k); reflexivity.
Qed.

Lemma following_insert_other i n :
  i <> j -> nid ex <> i ->
  following i (insertAfter j x n) = option_map G (following i n).
Proof.
  intros Hij Hx. induction n as [r ks IH] using node_ind. simpl.
  fold (G ks). rewrite after_insert_other by assumption.
  destruct (after i ks) as [l|]; simpl; [reflexivity|].
  apply first_some_following_G, IH.
Qed.

Lemma following_insert_same n :
  nid ex <> j ->
  following j (insertAfter j x n) = option_map (fun l => x :: G l) (following j n).
Proof.
  intros Hx. induction n as [r ks IH] using node_ind. simpl.
  fold (G ks). rewrite after_insert_same by assumption.
  destruct (after j ks) as [l|]; simpl; [reflexivity|].
  apply first_some_following_G, IH.
Qed.

Lemma nextSibling_insert_other i n :
  i <> j -> nid ex <> i ->
  nextSibling i (insertAfter j x n) = option_map (insertAfter j x) (nextSibling i n).
Proof.
  intros Hij Hx. unfold nextSibling. rewrite following_insert_other by assumption.
  destruct (following i n) as [[|k l]|]; simpl; try reflexivity.
  unfold G, insert_after_in; simpl.
  now destruct (Nat.eqb (nid (elem (insertAfter j x k))) j).
Qed.

Lemma nextSibling_insert_same n :
  nid ex <> j -> following j n <> None ->
  nextSibling j (insertAfter j x n) = Some x.
Proof.
  intros Hx Hn. unfold nextSibling. rewrite following_insert_same by assumption.
  destruct (following j n); [reflexivity|congruence].
Qed.

Lemma nextSibling_prepend i n :
  nid ex <> i -> nextSibling i (prepend x n) = nextSibling i n.
Proof.
  intros Hx. unfold nextSibling. destruct n as [r ks]. simpl.
  destruct (Nat.eqb (nid ex) i) eqn:E; [apply Nat.eqb_eq in E; congruence|].
  reflexivity.
Qed.

End SiblingsInsertLeaf.

(** An object has following siblings (maybe none) exactly when it has a
    parent in the tree. *)
Lemma after_Some_iff i ks :
  after i ks <> None <-> existsb (fun k => Nat.eqb (nid (elem k)) i) ks = true.
Proof.
  induction ks as [|k ks IH]; simpl.
  - split; [congruence|discriminate].
  - destruct (Nat.eqb (nid (elem k)) i); simpl; [|exact IH].
    split; [reflexivity|discriminate].
Qed.

Lemma following_hasParent i n :
  hasParent i n = true -> following i n <> None.
Proof.
  unfold hasParent, descendants.
  induction n as [r ks IH] using node_ind. simpl.
  destruct (after i ks) as [l|] eqn:A; [discriminate|].
  intros H. apply existsb_exists in H as (e & He & Hi).
  apply in_flat_map in He as (k & Hk & He).
  assert (N : existsb (fun k => Nat.eqb (nid (elem k)) i) ks = false).
  { destruct (existsb _ ks) eqn:X; [|reflexivity].
    apply after_Some_iff in X. congruence. }
  clear A. induction IH as [|k' ks Hk' _ IHks]; simpl in *; [contradiction|].
  apply orb_false_iff in N as [N1 N2].
  destruct (following i k') as [l|] eqn:F; [discriminate|].
  destruct Hk as [->|Hk]; [|apply IHks; assumption].
  exfalso. apply Hk'; [|reflexivity].
  rewrite flatten_eq in He. destruct He as [<-|He]; [congruence|].
  apply existsb_exists. eauto.
Qed.

(** *** Object identities *)

Lemma find_nid_NoDup (l : list element) e :
  NoDup (map nid l) -> In e l ->
  find (fun x => Nat.eqb (nid x) (nid e)) l = Some e.
Proof.
  induction l as [|a l IH]; simpl; [contradiction|].
  intros N [->|H].
  - now rewrite Nat.eqb_refl.
  - inversion N as [|? ? Na Nl]; subst.
    destruct (Nat.eqb (nid a) (nid e)) eqn:E; [|auto].
    apply Nat.eqb_eq in E. exfalso. apply Na. rewrite E. now apply in_map.
Qed.

Lemma lookup_In n e : NoDup (ids n) -> In e (flatten n) -> lookup (nid e) n = Some e.
Proof. apply find_nid_NoDup. Qed.

Lemma same_nid_same_element n a b :
  NoDup (ids n) -> In a (flatten n) -> In b (flatten n) -> nid a = nid b -> a = b.
Proof.
  intros N Ha Hb E.
  pose proof (lookup_In _ _ N Ha) as La. pose proof (lookup_In _ _ N Hb) as Lb.
  rewrite E in La. congruence.
Qed.

Lemma find_map_commute {A} (P : A -> bool) (F : A -> A) l :
  (forall a, In a l -> P (F a) = P a) ->
  find P (map F l) = option_map F (find P l).
Proof.
  intros H. rewrite !find_hd_filter, filter_map_commute by exact H.
  now destruct (filter P l).
Qed.

Lemma lookup_update i j G n :
  (forall e, nid (G e) = nid e) ->
  lookup i (update j G n) = option_map (upd j G) (lookup i n).
Proof.
  intros H. unfold lookup, update. rewrite flatten_tmap.
  apply find_map_commute. intros a _. now rewrite nid_upd.
Qed.

Lemma lookup_insertAfter i j ex n :
  nid ex <> i -> lookup i (insertAfter j (Node ex []) n) = lookup i n.
Proof.
  intros H. unfold lookup. rewrite !find_hd_filter.
  rewrite filter_flatten_insertAfter; [reflexivity|].
  now apply Nat.eqb_neq.
Qed.

Lemma lookup_prepend i ex n :
  nid ex <> i -> lookup i (prepend (Node ex []) n) = lookup i n.
Proof.
  intros H. unfold lookup. destruct n as [r ks]; simpl.
  apply Nat.eqb_neq in H. now rewrite H.
Qed.

(** [remove] never adds an occurrence of an identity. *)
Lemma count_descendants_remove i y n :
  count_occ Nat.eq_dec (map nid (descendants (remove i n))) y <=
  count_occ Nat.eq_dec (map nid (descendants n)) y.
Proof.
  induction n as [r ks IH] using node_ind. unfold descendants; simpl.
  induction IH as [|k ks Hk _ IHks]; simpl; [lia|].
  rewrite elem_remove, map_app, count_occ_app.
  destruct (Nat.eqb (nid (elem k)) i); simpl.
  - lia.
  - rewrite map_app, count_occ_app, (flatten_eq (remove i k)), (flatten_eq k),
      elem_remove. simpl.
    destruct (Nat.eq_dec (nid (elem k)) y); lia.
Qed.

Lemma count_ids_remove i y n :
  count_occ Nat.eq_dec (ids (remove i n)) y <= count_occ Nat.eq_dec (ids n) y.
Proof.
  unfold ids. rewrite !flatten_eq, elem_remove. simpl.
  pose proof (count_descendants_remove i y n).
  destruct (Nat.eq_dec (nid (elem n)) y); lia.
Qed.

Lemma NoDup_ids_remove i n : NoDup (ids n) -> NoDup (ids (remove i n)).
Proof.
  rewrite !(NoDup_count_occ Nat.eq_dec). intros H y.
  pose proof (count_ids_remove i y n). specialize (H y). lia.
Qed.

(** *** [forEach] over a node list *)

Section ForEachRemove.

Variable L : list element.

Lemma forEach_remove_elem : forall n,
  elem (Form.forEach L (fun el => remove (nid el)) n) = elem n.
Proof.
  unfold Form.forEach. induction L as [|a l IH]; intros n; simpl; [reflexivity|].
  now rewrite IH, elem_remove.
Qed.

Lemma forEach_remove_descendants : forall n e,
  In e (descendants (Form.forEach L (fun el => remove (nid el)) n)) ->
  In e (descendants n) /\ ~ In (nid e) (map nid L).
Proof.
  unfold Form.forEach. induction L as [|a l IH]; intros n e; simpl; [tauto|].
  intros H. apply IH in H as [H N]. apply In_descendants_remove in H as [H E].
  split; [assumption|]. intros [X|X]; [congruence|contradiction].
Qed.

Lemma forEach_remove_flatten n e :
  In e (flatten (Form.forEach L (fun el => remove (nid el)) n)) -> In e (flatten n).
Proof.
  rewrite !flatten_eq, forEach_remove_elem. simpl.
  intros [H|H]; [auto|]. apply forEach_remove_descendants in H. tauto.
Qed.

Lemma forEach_remove_NoDup : forall n,
  NoDup (ids n) -> NoDup (ids (Form.forEach L (fun el => remove (nid el)) n)).
Proof.
  unfold Form.forEach. induction L as [|a l IH]; intros n H; simpl; [assumption|].
  apply IH, NoDup_ids_remove, H.
Qed.

End ForEachRemove.

Lemma forEach_update_flatten (R : element -> element) :
  (forall e, R (R e) = R e) ->
  forall L n, exists F,
    flatten (Form.forEach L (fun el => update (nid el) R) n) = map F (flatten n) /\
    (forall e, F e = e \/ F e = R e).
Proof.
  intros Idem. unfold Form.forEach.
  induction L as [|a l IH]; intros n; simpl.
  - exists (fun e => e). split; [now rewrite map_id|auto].
  - destruct (IH (update (nid a) R n)) as (F & E & HF).
    exists (fun e => F (upd (nid a) R e)). split.
    + rewrite E. unfold update. now rewrite flatten_tmap, map_map.
    + intros e. unfold upd. destruct (Nat.eqb (nid e) (nid a)); [|apply HF].
      right. destruct (HF (R e)) as [X|X]; rewrite X; auto.
Qed.

(* ================================================================== *)
(** ** Contact form *)

Lemma contains_classList_add_other c c' e :
  c <> c' -> contains c (classList_add c' e) = contains c e.
Proof.
  intros N. unfold classList_add. destruct (contains c' e); [reflexivity|].
  unfold contains; simpl. rewrite existsb_app; simpl.
  apply String.eqb_neq in N. rewrite N. now rewrite !orb_false_r.
Qed.

Lemma contains_classList_remove_other c c' e :
  c <> c' -> contains c (classList_remove c' e) = contains c e.
Proof.
  intros N. unfold classList_remove, contains; simpl.
  induction (classList e) as [|x l IH]; simpl; [reflexivity|].
  destruct (String.eqb c' x) eqn:E; simpl.
  - apply String.eqb_eq in E. subst x.
    apply String.eqb_neq in N. now rewrite N.
  - now rewrite IH.
Qed.

Lemma classList_remove_twice c e :
  classList_remove c (classList_remove c e) = classList_remove c e.
Proof.
  unfold classList_remove, set_classList; simpl. f_equal.
  induction (classList e) as [|x l IH]; simpl; [reflexivity|].
  destruct (String.eqb c x) eqn:E; simpl; [assumption|].
  rewrite E; simpl. now rewrite IH.
Qed.

Lemma nid_classList_add c e : nid (classList_add c e) = nid e.
Proof. unfold classList_add. now destruct (contains c e). Qed.

Lemma nid_classList_remove c e : nid (classList_remove c e) = nid e.
Proof. reflexivity. Qed.

Section SameButClasses.

Import Form.

Lemma same_but_classes_refl e : same_but_classes e e.
Proof. reflexivity. Qed.

Lemma same_but_classes_trans a b c :
  same_but_classes a b -> same_but_classes b c -> same_but_classes a c.
Proof. unfold same_but_classes. congruence. Qed.

Lemma same_but_classes_add c e : same_but_classes e (classList_add c e).
Proof.
  unfold same_but_classes, classList_add. now destruct (contains c e).
Qed.

Lemma same_but_classes_remove c e : same_but_classes e (classList_remove c e).
Proof. reflexivity. Qed.

(** What two such snapshots share. *)
Lemma same_but_classes_fields e e' :
  same_but_classes e e' ->
  nid e = nid e' /\ tagName e = tagName e' /\ attributes e = attributes e' /\
  innerText e = innerText e' /\ value e = value e' /\
  defaultValue e = defaultValue e' /\ disabled e = disabled e'.
Proof.
  unfold same_but_classes, set_classList. intros H.
  injection H. intros. repeat split; assumption.
Qed.

End SameButClasses.

(** *** [clearFormAlerts] *)

Section Cleared.

Import Form.

Variable form : node.

Let t1 : node :=
  forEach (querySelectorAll (sel_class "form-alert") form)
    (fun el => remove (nid el)) form.

Lemma clearFormAlerts_flatten :
  exists F,
    flatten (clearFormAlerts form) = map F (flatten t1) /\
    (forall e, F e = e \/ F e = classList_remove "input-error" e).
Proof.
  unfold clearFormAlerts. fold t1.
  apply forEach_update_flatten. intros e. apply classList_remove_twice.
Qed.

Lemma no_alert_after_removal :
  filter (sel_class "form-alert") (descendants t1) = [].
Proof.
  apply filter_nil_iff. intros a Ha.
  apply forEach_remove_descendants in Ha as [Ha N].
  destruct (sel_class "form-alert" a) eqn:P; [|reflexivity].
  exfalso. apply N. apply in_map. unfold querySelectorAll.
  apply filter_In. auto.
Qed.

(** After [clearFormAlerts] the form holds no [.form-alert]. *)
Lemma clearFormAlerts_no_alert :
  querySelectorAll (sel_class "form-alert") (clearFormAlerts form) = [].
Proof.
  destruct clearFormAlerts_flatten as (F & E & HF).
  rewrite !flatten_eq in E. simpl in E. injection E as _ E.
  unfold querySelectorAll. rewrite E, filter_map_commute.
  - now rewrite no_alert_after_removal.
  - intros a _. destruct (HF a) as [->| ->]; [reflexivity|].
    apply contains_classList_remove_other. discriminate.
Qed.

Lemma clearFormAlerts_ids_incl i :
  In i (ids (clearFormAlerts form)) -> In i (ids form).
Proof.
  destruct clearFormAlerts_flatten as (F & E & HF).
  unfold ids. rewrite E, map_map. intros H.
  apply in_map_iff in H as (e & <- & He).
  apply forEach_remove_flatten in He.
  replace (nid (F e)) with (nid e); [now apply in_map|].
  destruct (HF e) as [->| ->]; reflexivity.
Qed.

Lemma clearFormAlerts_NoDup : NoDup (ids form) -> NoDup (ids (clearFormAlerts form)).
Proof.
  intros N. destruct clearFormAlerts_flatten as (F & E & HF).
  unfold ids. rewrite E, map_map.
  erewrite map_ext; [apply (forEach_remove_NoDup _ _ N)|].
  intros e. destruct (HF e) as [->| ->]; reflexivity.
Qed.

Lemma clearFormAlerts_well_formed k :
  well_formed k form -> well_formed k (clearFormAlerts form).
Proof.
  intros [N B]. split; [now apply clearFormAlerts_NoDup|].
  apply Forall_forall. intros i Hi. apply clearFormAlerts_ids_incl in Hi.
  rewrite Forall_forall in B. auto.
Qed.

(** Every object of the cleared form was in the form, with the same
    properties except for the class list. *)
Lemma clearFormAlerts_frame e' :
  In e' (flatten (clearFormAlerts form)) ->
  exists e, In e (flatten form) /\ same_but_classes e e'.
Proof.
  destruct clearFormAlerts_flatten as (F & E & HF). rewrite E.
  intros H. apply in_map_iff in H as (e & <- & He).
  apply forEach_remove_flatten in He. exists e. split; [assumption|].
  destruct (HF e) as [->| ->]; [reflexivity|apply same_but_classes_remove].
Qed.

End Cleared.

(** *** One run of the [forEach] callback *)

Lemma lookup_nid i n e : lookup i n = Some e -> nid e = i.
Proof.
  unfold lookup. intros H. apply find_some in H as [_ H]. now apply Nat.eqb_eq.
Qed.

Lemma lookup_update_other i j G n :
  (forall e, nid (G e) = nid e) -> i <> j ->
  lookup i (update j G n) = lookup i n.
Proof.
  intros HG N. rewrite lookup_update by exact HG.
  destruct (lookup i n) as [e|] eqn:L; [|reflexivity].
  apply lookup_nid in L. simpl. unfold upd.
  destruct (Nat.eqb (nid e) j) eqn:E; [|reflexivity].
  apply Nat.eqb_eq in E. congruence.
Qed.

Lemma hasParent_In i n :
  hasParent i n = true <-> exists e, In e (descendants n) /\ nid e = i.
Proof.
  unfold hasParent. rewrite existsb_exists.
  split; intros (e & H & E); exists e; (split; [assumption|]);
    now apply Nat.eqb_eq.
Qed.

Lemma In_descendants_insertAfter_old j ex n e :
  In e (descendants n) -> In e (descendants (insertAfter j (Node ex []) n)).
Proof.
  destruct n as [r ks]. unfold descendants; simpl. intros H.
  apply in_flat_map in H as (k & Hk & He).
  induction ks as [|k' ks IH]; simpl in *; [contradiction|].
  unfold insert_after_in in *; simpl.
  rewrite flat_map_app, in_app_iff.
  destruct Hk as [->|Hk]; [left|right; auto].
  apply (In_flatten_insertAfter_old j ex) in He.
  destruct (Nat.eqb (nid (elem (insertAfter j (Node ex []) k))) j); simpl;
    rewrite ?app_nil_r, ?in_app_iff; auto.
Qed.

Section Render.

Import Form.

Variables (f : element) (m : jsstring) (k : nat) (t : node).

Lemma lookup_render_same :
  lookup (nid f) t = Some f -> k <> nid f ->
  lookup (nid f) (render f m k t) = Some (classList_add "input-error" f).
Proof.
  intros L N. unfold render.
  rewrite lookup_insertAfter by exact N.
  rewrite lookup_update by (intros; apply nid_classList_add).
  rewrite L. simpl. unfold upd. now rewrite Nat.eqb_refl.
Qed.

Lemma lookup_render_other i :
  i <> nid f -> k <> i -> lookup i (render f m k t) = lookup i t.
Proof.
  intros N1 N2. unfold render.
  rewrite lookup_insertAfter by exact N2.
  apply lookup_update_other; [intros; apply nid_classList_add|exact N1].
Qed.

Lemma hasParent_render i : hasParent i t = true -> hasParent i (render f m k t) = true.
Proof.
  rewrite !hasParent_In. intros (e & He & Ei). unfold render.
  exists (upd (nid f) (classList_add "input-error") e). split.
  - apply In_descendants_insertAfter_old. unfold update.
    rewrite descendants_tmap. now apply in_map.
  - rewrite nid_upd; [assumption|intros; apply nid_classList_add].
Qed.

Lemma nextSibling_render_same :
  hasParent (nid f) t = true -> k <> nid f ->
  nextSibling (nid f) (render f m k t) = Some (Node (field_error m k) []).
Proof.
  intros H N. unfold render. apply nextSibling_insert_same; [exact N|].
  unfold update. rewrite following_tmap
    by (intros; apply nid_upd; intros; apply nid_classList_add).
  apply following_hasParent in H. now destruct (following (nid f) t).
Qed.

Lemma nextSibling_render_other i ex :
  i <> nid f -> k <> i -> nid ex <> nid f ->
  nextSibling i t = Some (Node ex []) ->
  nextSibling i (render f m k t) = Some (Node ex []).
Proof.
  intros N1 N2 N3 S. unfold render.
  rewrite nextSibling_insert_other by assumption.
  unfold update. rewrite nextSibling_tmap
    by (intros; apply nid_upd; intros; apply nid_classList_add).
  rewrite S. simpl. unfold upd.
  apply Nat.eqb_neq in N3. now rewrite N3.
Qed.

Lemma filter_render_nil (P : element -> bool) :
  P (field_error m k) = false ->
  (forall e, P (classList_add "input-error" e) = P e) ->
  filter P (descendants t) = [] ->
  filter P (descendants (render f m k t)) = [].
Proof.
  intros P1 P2 E. unfold render.
  rewrite filter_descendants_insertAfter by exact P1.
  unfold update. rewrite descendants_tmap, filter_map_commute.
  - now rewrite E.
  - intros a _. unfold upd. destruct (Nat.eqb (nid a) (nid f)); auto.
Qed.

Lemma In_flatten_render e' :
  In e' (flatten (render f m k t)) ->
  e' = field_error m k \/ exists e, In e (flatten t) /\ same_but_classes e e'.
Proof.
  unfold render. intros H. apply In_flatten_insertAfter in H as [H|H]; [auto|].
  right. unfold update in H. rewrite flatten_tmap in H.
  apply in_map_iff in H as (e & <- & He). exists e. split; [assumption|].
  unfold upd. destruct (Nat.eqb (nid e) (nid f));
    [apply same_but_classes_add|apply same_but_classes_refl].
Qed.

(** An error shown earlier stays shown when another field is handled. *)
Lemma rendered_render g m' k' :
  nid g <> nid f -> k <> nid g -> k' <> nid f ->
  rendered g m' k' t -> rendered g m' k' (render f m k t).
Proof.
  intros N1 N2 N3 [L S]. split.
  - rewrite lookup_render_other; auto.
  - apply nextSibling_render_other; auto.
Qed.

End Render.

(** *** The whole [forEach] *)

Section Shown.

Import Form.

Lemma show_error_ok err i p :
  (forall f, field err = Some f -> hasParent (nid f) (contactForm p) = true) ->
  show_error err i p = Ok (show_error_page err i p).
Proof.
  intros H. unfold show_error, show_error_page.
  destruct (field err) as [f|]; [|reflexivity].
  assert (P : hasParent (nid f)
                (update (nid f) (classList_add "input-error") (contactForm p)) = true).
  { specialize (H f eq_refl). apply hasParent_In in H as (e & He & Ee).
    apply hasParent_In. exists (upd (nid f) (classList_add "input-error") e).
    unfold update. rewrite descendants_tmap. split; [now apply in_map|].
    rewrite nid_upd; [assumption|intros; apply nid_classList_add]. }
  now rewrite P.
Qed.

Lemma In_fields errs f :
  In f (fields errs) <-> exists err, In err errs /\ field err = Some f.
Proof.
  unfold fields. rewrite in_flat_map. split; intros (err & H & E); exists err.
  - destruct (field err) as [g|]; simpl in E; [|contradiction].
    destruct E as [->|[]]. auto.
  - rewrite E. simpl. auto.
Qed.

Lemma show_error_page_hasParent err i p j :
  hasParent j (contactForm p) = true ->
  hasParent j (contactForm (show_error_page err i p)) = true.
Proof.
  unfold show_error_page. destruct (field err); simpl; [|auto].
  apply hasParent_render.
Qed.

(** The loop never throws when the fields it is given are in the form. *)
Lemma forEach_indexed_shown errs : forall i p,
  (forall f, In f (fields errs) -> hasParent (nid f) (contactForm p) = true) ->
  forEach_indexed errs i p = Ok (shown errs i p).
Proof.
  induction errs as [|err errs IH]; intros i p H; simpl; [reflexivity|].
  rewrite show_error_ok.
  - apply IH. intros f Hf. apply show_error_page_hasParent, H.
    simpl. apply in_app_iff. now right.
  - intros f Hf. apply H. simpl. rewrite Hf. now left.
Qed.

Lemma shown_timers errs : forall i p, timers (shown errs i p) = timers p.
Proof.
  induction errs as [|err errs IH]; intros i p; simpl; [reflexivity|].
  rewrite IH. unfold show_error_page. now destruct (field err).
Qed.

Lemma shown_next_id errs : forall i p, next_id p <= next_id (shown errs i p).
Proof.
  induction errs as [|err errs IH]; intros i p; simpl; [lia|].
  specialize (IH (S i) (show_error_page err i p)).
  assert (next_id p <= next_id (show_error_page err i p)); [|lia].
  unfold show_error_page. destruct (field err); simpl; lia.
Qed.

(** Only the callback with index 0 moves the focus. *)
Lemma shown_activeElement_later errs : forall i p,
  i <> 0 -> activeElement (shown errs i p) = activeElement p.
Proof.
  induction errs as [|err errs IH]; intros i p N; simpl; [reflexivity|].
  rewrite IH by discriminate. unfold show_error_page.
  destruct (field err); [|reflexivity]. simpl.
  apply Nat.eqb_neq in N. now rewrite N.
Qed.

Lemma shown_activeElement errs p :
  activeElement (shown errs 0 p) =
  match errs with
  | {| field := Some f |} :: _ => Some (nid f)
  | _ => activeElement p
  end.
Proof.
  destruct errs as [|[[f|] m] errs]; simpl; try reflexivity;
    now rewrite shown_activeElement_later by discriminate.
Qed.

Lemma shown_filter_nil (P : element -> bool) errs : forall i p,
  (forall m k, P (field_error m k) = false) ->
  (forall e, P (classList_add "input-error" e) = P e) ->
  filter P (descendants (contactForm p)) = [] ->
  filter P (descendants (contactForm (shown errs i p))) = [].
Proof.
  induction errs as [|err errs IH]; intros i p P1 P2 E; simpl; [assumption|].
  apply IH; try assumption. unfold show_error_page.
  destruct (field err); simpl; [|assumption].
  now apply filter_render_nil.
Qed.

(** The objects of the form after the loop: the old ones, up to their
    class list, and new [div]s. *)
Lemma shown_frame errs : forall i p e',
  In e' (flatten (contactForm (shown errs i p))) ->
  (exists e, In e (flatten (contactForm p)) /\ same_but_classes e e') \/
  (tagName e' = "div"%string /\ next_id p <= nid e').
Proof.
  induction errs as [|err errs IH]; intros i p e' H; simpl in H.
  - left. exists e'. split; [assumption|apply same_but_classes_refl].
  - apply IH in H. unfold show_error_page in H.
    destruct (field err) as [f|]; simpl in H; [|assumption].
    destruct H as [(e & He & S)|[T B]]; [|right; split; [assumption|lia]].
    apply In_flatten_render in He as [->|(e0 & He0 & S0)].
    + right. apply same_but_classes_fields in S as (Hn & Ht & _).
      simpl in Hn, Ht. split; [now rewrite <- Ht|rewrite <- Hn; lia].
    + left. exists e0. split; [assumption|].
      now apply same_but_classes_trans with e.
Qed.

(** An error that is shown stays shown through the rest of the loop. *)
Lemma shown_rendered_kept g m' k' errs : forall i p,
  nid g < next_id p -> k' < next_id p ->
  (forall f, In f (fields errs) -> nid f <> nid g) ->
  (forall f, In f (fields errs) -> nid f < k') ->
  rendered g m' k' (contactForm p) ->
  rendered g m' k' (contactForm (shown errs i p)).
Proof.
  induction errs as [|err errs IH]; intros i p B1 B2 D B R; simpl; [assumption|].
  assert (Hrest : forall f, In f (fields errs) -> In f (fields (err :: errs))).
  { intros f Hf. simpl. apply in_app_iff. now right. }
  apply IH.
  - unfold show_error_page. destruct (field err); simpl; lia.
  - unfold show_error_page. destruct (field err); simpl; lia.
  - auto.
  - auto.
  - unfold show_error_page. destruct (field err) as [f|] eqn:Ef; simpl; [|assumption].
    assert (Hf : In f (fields (err :: errs))).
    { simpl. rewrite Ef. now left. }
    pose proof (D f Hf). pose proof (B f Hf).
    apply rendered_render; auto; lia.
Qed.

(** Every field of the array that has an element shows its error after
    the loop. *)
Lemma shown_rendered errs : forall i p,
  NoDup (map nid (fields errs)) ->
  (forall f, In f (fields errs) ->
     lookup (nid f) (contactForm p) = Some f /\
     hasParent (nid f) (contactForm p) = true /\
     nid f < next_id p) ->
  forall err f, In err errs -> field err = Some f ->
  exists k, next_id p <= k /\
    rendered f (msg err) k (contactForm (shown errs i p)).
Proof.
  induction errs as [|err0 errs IH]; intros i p N H err f Hin Hf; [destruct Hin|].
  cbn [shown]. destruct (field err0) as [f0|] eqn:E0.
  - (* the callback handles [f0] *)
    assert (F0 : fields (err0 :: errs) = f0 :: fields errs).
    { simpl. now rewrite E0. }
    rewrite F0 in N, H. simpl in N. inversion N as [|? ? N0 N']; subst.
    destruct (H f0 (or_introl eq_refl)) as (L0 & P0 & B0).
    assert (D0 : forall g, In g (fields errs) -> nid g <> nid f0).
    { intros g Hg E. apply N0. rewrite <- E. now apply in_map. }
    assert (St : show_error_page err0 i p =
                 mkPage (render f0 (msg err0) (next_id p) (contactForm p))
                   (if Nat.eqb i 0 then Some (nid f0) else activeElement p)
                   (timers p) (S (next_id p))).
    { unfold show_error_page. now rewrite E0. }
    destruct Hin as [<-|Hin].
    + (* it is the error we look at *)
      assert (f = f0) by congruence. subst f0.
      exists (next_id p). split; [lia|].
      rewrite St. apply shown_rendered_kept; simpl; try lia; auto.
      * intros g Hg. destruct (H g (or_intror Hg)) as (_ & _ & B). lia.
      * split; [apply lookup_render_same|apply nextSibling_render_same];
          auto; lia.
    + (* the error comes later *)
      destruct (IH (S i) (show_error_page err0 i p) N') with (err := err) (f := f)
        as (k & Bk & R); try assumption.
      * intros g Hg. destruct (H g (or_intror Hg)) as (Lg & Pg & Bg).
        rewrite St; simpl. repeat split.
        -- rewrite lookup_render_other; auto. lia.
        -- now apply hasParent_render.
        -- lia.
      * exists k. split; [|exact R]. rewrite St in Bk. simpl in Bk. lia.
  - (* the callback returns at once *)
    assert (F0 : fields (err0 :: errs) = fields errs).
    { simpl. now rewrite E0. }
    rewrite F0 in N, H.
    assert (St : show_error_page err0 i p = p).
    { unfold show_error_page. now rewrite E0. }
    rewrite St. destruct Hin as [<-|Hin]; [congruence|].
    now apply IH.
Qed.

End Shown.

(** *** The [submit] listener, error path *)

Section ErrorPath.

Import Form.

Lemma querySelector_Some sel n e :
  querySelector sel n = Some e -> In e (descendants n) /\ sel e = true.
Proof. apply find_some. Qed.

Lemma In_descendants_flatten n e : In e (descendants n) -> In e (flatten n).
Proof. rewrite flatten_eq. now right. Qed.

(** The three blocks of [validate], one after the other. *)
Lemma validate_blocks a b c :
  validate a b c =
  (if name_fails (trimmed_value a) then [mkError a name_msg] else []) ++
  (if Email.email_fails (trimmed_value b) then [mkError b email_msg] else []) ++
  (if message_fails (trimmed_value c) then [mkError c message_msg] else []).
Proof.
  unfold validate.
  destruct (name_fails _), (Email.email_fails _), (message_fails _); reflexivity.
Qed.

Lemma validate_nil a b c :
  validate a b c = [] <->
  name_fails (trimmed_value a) = false /\
  Email.email_fails (trimmed_value b) = false /\
  message_fails (trimmed_value c) = false.
Proof.
  rewrite validate_blocks.
  destruct (name_fails _), (Email.email_fails _), (message_fails _); simpl;
    intuition discriminate.
Qed.

Lemma fields_validate a b c f :
  In f (fields (validate a b c)) -> a = Some f \/ b = Some f \/ c = Some f.
Proof.
  rewrite validate_blocks.
  destruct (name_fails _), (Email.email_fails _), (message_fails _),
    a as [a|], b as [b|], c as [c|]; simpl; intuition congruence.
Qed.

Lemma fields_validate_NoDup a b c :
  (forall x y, a = Some x -> b = Some y -> nid x <> nid y) ->
  (forall x y, a = Some x -> c = Some y -> nid x <> nid y) ->
  (forall x y, b = Some x -> c = Some y -> nid x <> nid y) ->
  NoDup (map nid (fields (validate a b c))).
Proof.
  intros Hab Hac Hbc. rewrite validate_blocks.
  destruct a as [a|], b as [b|], c as [c|];
    try specialize (Hab _ _ eq_refl eq_refl);
    try specialize (Hac _ _ eq_refl eq_refl);
    try specialize (Hbc _ _ eq_refl eq_refl);
    destruct (name_fails _), (Email.email_fails _), (message_fails _); simpl;
    repeat constructor; simpl; intuition congruence.
Qed.

(** The three selectors pick different elements. *)
Lemma name_email_differ x y :
  sel_input_name "name" x = true -> sel_input_name "email" y = true -> x <> y.
Proof.
  unfold sel_input_name, attr_is. intros Hx Hy ->.
  apply andb_true_iff in Hx as [_ Hx], Hy as [_ Hy].
  destruct (getAttribute "name" y) as [v|]; [|discriminate].
  apply str_eqb_eq in Hx, Hy. subst v. discriminate Hy.
Qed.

Lemma input_textarea_differ n n' x y :
  sel_input_name n x = true -> sel_textarea_name n' y = true -> x <> y.
Proof.
  unfold sel_input_name, sel_textarea_name, tag_is. intros Hx Hy ->.
  apply andb_true_iff in Hx as [Hx _], Hy as [Hy _].
  apply String.eqb_eq in Hx, Hy. rewrite Hx in Hy. discriminate Hy.
Qed.

Variable p : page.
Hypothesis WF : well_formed_page p.

Let p0 : page := mkPage (cleared p) (activeElement p) (timers p) (next_id p).

Lemma cleared_well_formed : well_formed (next_id p) (cleared p).
Proof. apply clearFormAlerts_well_formed, WF. Qed.

(** What the handler knows of a field it found. *)
Lemma found_field sel f :
  querySelector sel (cleared p) = Some f ->
  lookup (nid f) (cleared p) = Some f /\
  hasParent (nid f) (cleared p) = true /\
  nid f < next_id p.
Proof.
  intros Q. apply querySelector_Some in Q as [Hd _].
  destruct cleared_well_formed as [N B].
  repeat split.
  - apply lookup_In; [exact N|now apply In_descendants_flatten].
  - apply hasParent_In. eauto.
  - rewrite Forall_forall in B. apply B. unfold ids.
    now apply in_map, In_descendants_flatten.
Qed.

Lemma found_differ sel sel' x y :
  (forall a b, sel a = true -> sel' b = true -> a <> b) ->
  querySelector sel (cleared p) = Some x ->
  querySelector sel' (cleared p) = Some y ->
  nid x <> nid y.
Proof.
  intros D Qx Qy E.
  apply querySelector_Some in Qx as [Hx Sx], Qy as [Hy Sy].
  apply (D x y Sx Sy).
  destruct cleared_well_formed as [N _].
  apply (same_nid_same_element _ _ _ N); auto using In_descendants_flatten.
Qed.

Lemma errors_fields_found f :
  In f (fields (errors_of p)) ->
  lookup (nid f) (cleared p) = Some f /\
  hasParent (nid f) (cleared p) = true /\
  nid f < next_id p.
Proof.
  intros H. apply fields_validate in H as [H|[H|H]];
    apply found_field in H; exact H.
Qed.

Lemma errors_fields_NoDup : NoDup (map nid (fields (errors_of p))).
Proof.
  apply fields_validate_NoDup; intros x y Hx Hy.
  - apply (found_differ _ _ name_email_differ Hx Hy).
  - apply (found_differ _ _ (@input_textarea_differ "name" "message") Hx Hy).
  - apply (found_differ _ _ (@input_textarea_differ "email" "message") Hx Hy).
Qed.

(** With an error to show, the handler returns [after_errors p]. *)
Lemma on_submit_errors :
  errors_of p <> [] -> on_submit p = Ok (after_errors p).
Proof.
  intros NE. unfold on_submit.
  change (validate _ _ _) with (errors_of p).
  change (clearFormAlerts (contactForm p)) with (cleared p).
  destruct (errors_of p) as [|err errs] eqn:E; [congruence|].
  rewrite <- E. rewrite forEach_indexed_shown.
  - unfold after_errors. reflexivity.
  - intros f Hf. simpl. now apply errors_fields_found.
Qed.

Lemma after_errors_timers : timers (after_errors p) = timers p.
Proof. unfold after_errors. simpl. now rewrite shown_timers. Qed.

Lemma after_errors_activeElement :
  activeElement (after_errors p) =
  match errors_of p with
  | {| field := Some f |} :: _ => Some (nid f)
  | _ => activeElement p
  end.
Proof. unfold after_errors. simpl. now rewrite shown_activeElement. Qed.

Lemma after_errors_rendered err f :
  In err (errors_of p) -> field err = Some f ->
  exists k, next_id p <= k /\ rendered f (msg err) k (contactForm (after_errors p)).
Proof.
  intros Hin Hf.
  destruct (shown_rendered (errors_of p) 0 p0 errors_fields_NoDup) with (err := err) (f := f)
    as (k & Bk & L & S); try assumption.
  { intros g Hg. now apply errors_fields_found. }
  exists k. split; [exact Bk|].
  assert (B : nid f < next_id (shown (errors_of p) 0 p0)).
  { pose proof (shown_next_id (errors_of p) 0 p0) as M. simpl in M.
    assert (In f (fields (errors_of p))) by (apply In_fields; eauto).
    destruct (errors_fields_found f) as (_ & _ & Bf); [assumption|]. lia. }
  unfold after_errors. fold p0. simpl. split.
  - rewrite lookup_prepend; [exact L|]. simpl. lia.
  - rewrite nextSibling_prepend; [exact S|]. simpl. lia.
Qed.

Lemma sel_form_alert_field_error m k : sel_class "form-alert" (field_error m k) = false.
Proof. reflexivity. Qed.

Lemma after_errors_alerts :
  querySelectorAll (sel_class "form-alert") (contactForm (after_errors p)) =
  [createAlertMessage summary_msg "error"
     (next_id (shown (errors_of p) 0 p0))].
Proof.
  unfold after_errors, querySelectorAll. fold p0. simpl.
  rewrite descendants_prepend. simpl. f_equal.
  apply shown_filter_nil.
  - apply sel_form_alert_field_error.
  - intros e. apply contains_classList_add_other. discriminate.
  - apply clearFormAlerts_no_alert.
Qed.

Lemma after_errors_firstChild :
  firstChild (contactForm (after_errors p)) =
  Some (Node (createAlertMessage summary_msg "error"
                (next_id (shown (errors_of p) 0 p0))) []).
Proof.
  unfold after_errors. fold p0. simpl.
  now destruct (contactForm (shown (errors_of p) 0 p0)).
Qed.

(** The objects of the form after the error path: the old ones, up to
    their class list, and new [div]s. *)
Lemma after_errors_frame e' :
  In e' (flatten (contactForm (after_errors p))) ->
  (exists e, In e (flatten (contactForm p)) /\ same_but_classes e e') \/
  (tagName e' = "div"%string /\ next_id p <= nid e').
Proof.
  unfold after_errors. fold p0. simpl.
  set (p' := shown (errors_of p) 0 p0).
  rewrite flatten_eq, elem_prepend, descendants_prepend.
  intros H.
  assert (H' : e' = createAlertMessage summary_msg "error" (next_id p') \/
               In e' (flatten (contactForm p'))).
  { rewrite flatten_eq. simpl in H |- *.
    destruct H as [H|[H|H]]; [right; left; exact H|left; now symmetry|right; right; exact H]. }
  destruct H' as [->|H'].
  - right. split; [reflexivity|]. simpl.
    apply (shown_next_id (errors_of p) 0 p0).
  - apply shown_frame in H' as [(e & He & S)|H']; [left|right; exact H'].
    apply clearFormAlerts_frame in He as (e0 & He0 & S0).
    exists e0. split; [assumption|].
    now apply same_but_classes_trans with e.
Qed.

Lemma after_errors_no_success :
  querySelectorAll is_success_banner (contactForm (after_errors p)) = [].
Proof.
  apply filter_nil_iff. intros e He.
  destruct (is_success_banner e) eqn:S; [|reflexivity].
  unfold is_success_banner in S. apply andb_true_iff in S as [S1 S2].
  assert (I : In e (querySelectorAll (sel_class "form-alert")
                      (contactForm (after_errors p)))).
  { apply filter_In. auto. }
  rewrite after_errors_alerts in I. destruct I as [<-|[]].
  discriminate S2.
Qed.

(** The submit button, if the form still has one, is an object of the old
    form with the [disabled] flag and the label it had. *)
Lemma after_errors_button b' :
  querySelector sel_button_submit (contactForm (after_errors p)) = Some b' ->
  exists b, In b (flatten (contactForm p)) /\ nid b = nid b' /\
    disabled b' = disabled b /\ innerText b' = innerText b.
Proof.
  intros Q. apply querySelector_Some in Q as [Hb Sb].
  apply In_descendants_flatten, after_errors_frame in Hb as [(b & Hb & S)|[T _]].
  - exists b. split; [assumption|].
    apply same_but_classes_fields in S. intuition congruence.
  - unfold sel_button_submit, tag_is in Sb. rewrite T in Sb. discriminate Sb.
Qed.

End ErrorPath.

(** *** The sample pages are well formed *)

Lemma sample_page_well_formed name email message :
  Form.well_formed_page (Sample.page name email message).
Proof.
  split; simpl.
  - repeat (constructor; [simpl; intuition discriminate|]). constructor.
  - repeat constructor.
Qed.

Lemma nameless_page_well_formed : Form.well_formed_page Sample.nameless_page.
Proof.
  split; simpl.
  - repeat (constructor; [simpl; intuition discriminate|]). constructor.
  - repeat constructor.
Qed.

(** C1, as the code has it.  A submission with a failing validator: the
    array of errors holds an entry for each of the three validators that
    fails, in the order name, e-mail, message; every entry whose field has
    an element leaves that element with the class [input-error] and a new
    error node as its next sibling; the focus goes to the field of the first
    entry when that field has an element, and stays where it was when it has
    none; the summary banner is the first child of the form and its only
    [.form-alert]; no timer is added, the submit button keeps its [disabled]
    flag and its label, and the form holds no success banner. *)
Theorem failing_submission_shows_errors (p : Form.page) :
  Form.well_formed_page p ->
  Form.name_fails (Form.trimmed_value (Form.nameEl p))
  || Email.email_fails (Form.trimmed_value (Form.emailEl p))
  || Form.message_fails (Form.trimmed_value (Form.messageEl p)) = true ->
  exists p',
    Form.on_submit p = Form.Ok p' /\
    Form.errors_of p =
      (if Form.name_fails (Form.trimmed_value (Form.nameEl p))
       then [Form.mkError (Form.nameEl p) Form.name_msg] else []) ++
      (if Email.email_fails (Form.trimmed_value (Form.emailEl p))
       then [Form.mkError (Form.emailEl p) Form.email_msg] else []) ++
      (if Form.message_fails (Form.trimmed_value (Form.messageEl p))
       then [Form.mkError (Form.messageEl p) Form.message_msg] else []) /\
    (forall err f,
        In err (Form.errors_of p) -> Form.field err = Some f ->
        exists k,
          Form.next_id p <= k /\
          lookup (nid f) (Form.contactForm p') = Some (classList_add "input-error" f) /\
          nextSibling (nid f) (Form.contactForm p') =
            Some (Node (Form.field_error (Form.msg err) k) [])) /\
    (forall err rest f,
        Form.errors_of p = err :: rest -> Form.field err = Some f ->
        Form.activeElement p' = Some (nid f)) /\
    (forall err rest,
        Form.errors_of p = err :: rest -> Form.field err = None ->
        Form.activeElement p' = Form.activeElement p) /\
    (exists k,
        firstChild (Form.contactForm p') =
          Some (Node (Form.createAlertMessage Form.summary_msg "error" k) []) /\
        querySelectorAll (sel_class "form-alert") (Form.contactForm p') =
          [Form.createAlertMessage Form.summary_msg "error" k]) /\
    Form.timers p' = Form.timers p /\
    (forall b',
        querySelector sel_button_submit (Form.contactForm p') = Some b' ->
        exists b, In b (flatten (Form.contactForm p)) /\ nid b = nid b' /\
          disabled b' = disabled b /\ innerText b' = innerText b) /\
    querySelectorAll Form.is_success_banner (Form.contactForm p') = [].
Proof.
  intros WF Fails.
  assert (NE : Form.errors_of p <> []).
  { intros E. apply validate_nil in E as (E1 & E2 & E3).
    fold (Form.nameEl p) in E1. fold (Form.emailEl p) in E2.
    fold (Form.messageEl p) in E3.
    rewrite E1, E2, E3 in Fails. discriminate Fails. }
  exists (Form.after_errors p).
  split; [now apply on_submit_errors|].
  split; [apply validate_blocks|].
  split; [intros err f Hin Hf; now apply after_errors_rendered|].
  split.
  { intros err rest f E Hf. rewrite after_errors_activeElement, E.
    destruct err as [fo m]. simpl in Hf. now subst fo. }
  split.
  { intros err rest E Hf. rewrite after_errors_activeElement, E.
    destruct err as [fo m]. simpl in Hf. now subst fo. }
  split.
  { eexists. split; [now apply after_errors_firstChild|now apply after_errors_alerts]. }
  split; [apply after_errors_timers|].
  split; [intros b'; now apply after_errors_button|].
  now apply after_errors_no_success.
Qed.

(** The spec's example: name ["A"], e-mail ["bad"], message ["short"]. *)
Lemma failing_submission_example :
  exists p',
    Form.on_submit Sample.bad_page = Form.Ok p' /\
    List.length (Form.errors_of Sample.bad_page) = 3 /\
    Form.activeElement p' = Some 2 /\
    Form.timers p' = [] /\
    querySelectorAll Form.is_success_banner (Form.contactForm p') = [].
Proof.
  destruct (failing_submission_shows_errors
              (sample_page_well_formed (lit "A") (lit "bad") (lit "short")) eq_refl)
    as (p' & Sub & Errs & _ & Focus & _ & _ & Timers & _ & NoSuccess).
  exists p'. split; [exact Sub|]. split; [reflexivity|].
  split; [|split; [exact Timers|exact NoSuccess]].
  exact (Focus (Form.mkError (Some (elem (Sample.input 2 "name" (lit "A"))))
                  Form.name_msg) _ _ eq_refl eq_refl).
Defined.

(** The claim as the spec words it, "focus moves to the first failing
    field", fails on a form without the name input: the name validator
    fails, the e-mail and the message fail too and have elements (3 and 4),
    and the focus stays on the button (5). *)
Lemma failing_submission_without_focus :
  Form.name_fails (Form.trimmed_value (Form.nameEl Sample.nameless_page)) = true /\
  map (fun err => option_map nid (Form.field err))
    (Form.errors_of Sample.nameless_page) = [None; Some 3; Some 4] /\
  Form.activeElement Sample.nameless_page = Some 5 /\
  exists p',
    Form.on_submit Sample.nameless_page = Form.Ok p' /\
    Form.activeElement p' = Some 5.
Proof.
  split; [reflexivity|]. split; [reflexivity|]. split; [reflexivity|].
  exists (Form.after_errors Sample.nameless_page).
  split; reflexivity.
Qed.

(** A missing name input is validated as the empty string, so it is the
    first entry of the array. *)
Lemma missing_name_is_first_error (p : Form.page) :
  Form.nameEl p = None ->
  exists rest, Form.errors_of p = Form.mkError None Form.name_msg :: rest.
Proof.
  intros E. unfold Form.errors_of. rewrite validate_blocks, E. simpl. eauto.
Qed.

(** C10.  When the first entry of the array has no element, the handler
    still returns normally, the focus stays where it was, and every later
    entry that has an element shows its error. *)
Theorem missing_first_field_keeps_focus
  (p : Form.page) (m : jsstring) (rest : list Form.error) :
  Form.well_formed_page p ->
  Form.errors_of p = Form.mkError None m :: rest ->
  exists p',
    Form.on_submit p = Form.Ok p' /\
    Form.activeElement p' = Form.activeElement p /\
    (forall err f,
        In err rest -> Form.field err = Some f ->
        exists k,
          Form.next_id p <= k /\
          lookup (nid f) (Form.contactForm p') = Some (classList_add "input-error" f) /\
          nextSibling (nid f) (Form.contactForm p') =
            Some (Node (Form.field_error (Form.msg err) k) [])).
Proof.
  intros WF E. exists (Form.after_errors p).
  split; [apply on_submit_errors; [exact WF|rewrite E; discriminate]|].
  split; [now rewrite after_errors_activeElement, E|].
  intros err f Hin Hf. apply after_errors_rendered; [exact WF| |exact Hf].
  rewrite E. now right.
Qed.

(** A form without the name input: the focus stays on the button, the
    e-mail and the message show their errors. *)
Lemma missing_first_field_example :
  exists p',
    Form.on_submit Sample.nameless_page = Form.Ok p' /\
    Form.activeElement p' = Some 5 /\
    (exists k, nextSibling 3 (Form.contactForm p') =
               Some (Node (Form.field_error Form.email_msg k) [])) /\
    (exists k, nextSibling 4 (Form.contactForm p') =
               Some (Node (Form.field_error Form.message_msg k) [])).
Proof.
  destruct (missing_first_field_keeps_focus nameless_page_well_formed eq_refl)
    as (p' & Sub & Focus & Rest).
  exists p'. split; [exact Sub|]. split; [exact Focus|]. split.
  - destruct (Rest (Form.mkError (Some (elem (Sample.input 3 "email" (lit "bad"))))
                      Form.email_msg) _ (or_introl eq_refl) eq_refl)
      as (k & _ & _ & S).
    exists k. exact S.
  - destruct (Rest (Form.mkError (Some (elem (Sample.textarea 4 "message" (lit "short"))))
                      Form.message_msg) _ (or_intror (or_introl eq_refl)) eq_refl)
      as (k & _ & _ & S).
    exists k. exact S.
Defined.

(** *** The [submit] listener, send path *)

Lemma nth_error_app_last {A} (l : list A) x : nth_error (l ++ [x]) (List.length l) = Some x.
Proof. induction l; simpl; auto. Qed.

Lemma firstn_skipn_app_last {A} (l : list A) x :
  firstn (List.length l) (l ++ [x]) ++ skipn (S (List.length l)) (l ++ [x]) = l.
Proof. induction l; simpl; [reflexivity|]. now f_equal. Qed.

(** Removing an object that is not below [n] changes nothing. *)
Lemma remove_absent i n :
  (forall e, In e (descendants n) -> nid e <> i) -> remove i n = n.
Proof.
  induction n as [r ks IH] using node_ind. unfold descendants; simpl.
  intros H. f_equal.
  induction IH as [|k ks Hk _ IHks]; simpl; [reflexivity|].
  assert (Hk' : remove i k = k).
  { apply Hk. intros e He. apply H. simpl. apply in_app_iff. left.
    rewrite flatten_eq. now right. }
  assert (Ek : Nat.eqb (nid (elem k)) i = false).
  { apply Nat.eqb_neq. apply H. simpl. apply in_app_iff. left.
    rewrite flatten_eq. now left. }
  rewrite Hk', Ek; simpl. f_equal. apply IHks.
  intros e He. apply H. simpl. apply in_app_iff. now right.
Qed.

Lemma remove_first_child i r s ks :
  nid s = i ->
  (forall e, In e (flat_map flatten ks) -> nid e <> i) ->
  remove i (Node r (Node s [] :: ks)) = Node r ks.
Proof.
  intros Hs A.
  pose proof (@remove_absent i (Node r ks) A) as R.
  cbn -[Nat.eqb] in R |- *. rewrite Hs, Nat.eqb_refl. cbn -[Nat.eqb].
  exact R.
Qed.

Section SendPath.

Import Form.

Lemma sel_button_sending e : sel_button_submit (sending e) = sel_button_submit e.
Proof. reflexivity. Qed.

Lemma sel_button_restored e : sel_button_submit (restored e) = sel_button_submit e.
Proof. reflexivity. Qed.

Lemma sel_button_reset e : sel_button_submit (reset_control e) = sel_button_submit e.
Proof. unfold reset_control. now destruct (is_control e). Qed.

Lemma nid_reset_control e : nid (reset_control e) = nid e.
Proof. unfold reset_control. now destruct (is_control e). Qed.

Lemma button_not_control e : sel_button_submit e = true -> is_control e = false.
Proof.
  unfold sel_button_submit, is_control, tag_is. intros H.
  apply andb_true_iff in H as [H _]. apply String.eqb_eq in H. now rewrite H.
Qed.

Lemma restored_sending e : restored (sending e) = restored e.
Proof. reflexivity. Qed.

(** The label before the submission leaves no trace in the restored button. *)
Lemma restored_forgets_label l e : restored (set_innerText l e) = restored e.
Proof. reflexivity. Qed.

Lemma querySelector_update sel j G n :
  (forall e, sel (G e) = sel e) ->
  querySelector sel (update j G n) = option_map (upd j G) (querySelector sel n).
Proof.
  intros H. unfold querySelector, update. rewrite descendants_tmap.
  apply find_map_commute. intros a _. unfold upd.
  destruct (Nat.eqb (nid a) j); auto.
Qed.

Variable p : page.
Hypothesis WF : well_formed_page p.
Hypothesis Valid : errors_of p = [].

Lemma on_submit_valid : on_submit p = Ok (after_valid p).
Proof.
  unfold on_submit.
  change (validate _ _ _) with (errors_of p). rewrite Valid.
  reflexivity.
Qed.

Lemma fire_after_valid :
  fire (List.length (timers p)) (after_valid p) = Some (after_send p).
Proof.
  unfold fire, after_valid. cbn [timers contactForm activeElement next_id].
  now rewrite nth_error_app_last, firstn_skipn_app_last.
Qed.

Lemma after_valid_button b :
  submitBtn p = Some b ->
  querySelector sel_button_submit (contactForm (after_valid p)) = Some (sending b).
Proof.
  intros Hb. unfold after_valid; simpl. rewrite Hb.
  rewrite querySelector_update by apply sel_button_sending.
  fold (submitBtn p). rewrite Hb. simpl. unfold upd. now rewrite Nat.eqb_refl.
Qed.

(** The tree of [after_send], with the banner in front. *)
Let success : element := createAlertMessage success_msg "success" (next_id p).

Let kept (e : element) : element :=
  match submitBtn p with
  | Some b => upd (nid b) restored (reset_control (upd (nid b) sending e))
  | None => reset_control e
  end.

Lemma after_send_timers :
  timers (after_send p) = timers p ++ [(8000%N, RemoveSuccess (next_id p))].
Proof. reflexivity. Qed.

Lemma button_id_old b : submitBtn p = Some b -> nid b < next_id p.
Proof. intros Hb. apply (found_field WF _ Hb). Qed.

Lemma after_send_descendants :
  descendants (contactForm (after_send p)) =
  success :: map kept (descendants (cleared p)).
Proof.
  unfold after_send, after_valid, kept; simpl.
  destruct (submitBtn p) as [b|] eqn:Hb; simpl.
  - pose proof (button_id_old Hb) as B.
    unfold update, reset. rewrite !descendants_tmap.
    rewrite (descendants_prepend (createAlertMessage success_msg "success" (next_id p))).
    rewrite descendants_tmap. simpl. rewrite !map_map. f_equal.
    unfold upd; simpl.
    destruct (Nat.eqb (next_id p) (nid b)) eqn:E; [|reflexivity].
    apply Nat.eqb_eq in E. lia.
  - unfold reset. rewrite descendants_tmap.
    now rewrite (descendants_prepend (createAlertMessage success_msg "success" (next_id p))).
Qed.

Lemma after_send_firstChild :
  firstChild (contactForm (after_send p)) = Some (Node success []).
Proof.
  unfold after_send, after_valid; simpl.
  destruct (submitBtn p) as [b|] eqn:Hb; simpl.
  - pose proof (button_id_old Hb) as B.
    destruct (update (nid b) sending (cleared p)) as [r ks].
    unfold firstChild, update, reset, upd; simpl.
    destruct (Nat.eqb (next_id p) (nid b)) eqn:E; [|reflexivity].
    apply Nat.eqb_eq in E. lia.
  - now destruct (cleared p).
Qed.

Lemma kept_reset e : is_control (kept e) = true -> value (kept e) = defaultValue (kept e).
Proof.
  unfold kept. destruct e as [i tg ats cl txt v dv d].
  destruct (submitBtn p) as [b|];
    unfold upd, reset_control, is_control, tag_is, sending, restored; simpl.
  - destruct (Nat.eqb i (nid b)) eqn:E; simpl;
      destruct (String.eqb tg "input") eqn:T1, (String.eqb tg "textarea") eqn:T2;
      simpl; rewrite ?E; simpl; rewrite ?T1, ?T2; simpl;
      intros H; solve [reflexivity | discriminate H].
  - destruct (String.eqb tg "input") eqn:T1, (String.eqb tg "textarea") eqn:T2;
      simpl; rewrite ?T1, ?T2; simpl;
      intros H; solve [reflexivity | discriminate H].
Qed.

Lemma after_send_elem :
  elem (contactForm (after_send p)) = kept (elem (cleared p)).
Proof.
  unfold after_send, after_valid, kept; simpl.
  destruct (submitBtn p) as [b|]; simpl.
  - unfold update, reset. rewrite !elem_tmap, elem_prepend. now rewrite elem_tmap.
  - unfold reset. now rewrite elem_tmap, elem_prepend.
Qed.

(** After the send, every control of the form holds its default value. *)
Lemma after_send_reset e :
  In e (flatten (contactForm (after_send p))) ->
  is_control e = true -> value e = defaultValue e.
Proof.
  rewrite flatten_eq, after_send_elem, after_send_descendants.
  intros [<-|[<-|H]].
  - apply kept_reset.
  - discriminate.
  - apply in_map_iff in H as (e0 & <- & _). apply kept_reset.
Qed.

Lemma after_send_button b :
  submitBtn p = Some b ->
  querySelector sel_button_submit (contactForm (after_send p)) = Some (restored b).
Proof.
  intros Hb. unfold querySelector. rewrite after_send_descendants. simpl.
  rewrite find_map_commute.
  - fold (querySelector sel_button_submit (cleared p)). fold (submitBtn p).
    rewrite Hb. simpl. unfold kept. rewrite Hb. unfold upd.
    rewrite Nat.eqb_refl. simpl.
    pose proof Hb as Q. apply querySelector_Some in Q as [_ Q].
    unfold reset_control.
    rewrite (button_not_control (sending b)) by exact Q.
    replace (Nat.eqb (nid (sending b)) (nid b)) with true
      by (symmetry; apply Nat.eqb_refl).
    reflexivity.
  - intros a _. unfold kept. rewrite Hb. unfold upd.
    destruct (Nat.eqb (nid a) (nid b)); rewrite ?nid_reset_control; simpl;
      destruct (Nat.eqb (nid a) (nid b)); now rewrite ?sel_button_restored, sel_button_reset.
Qed.

Lemma after_send_alerts :
  querySelectorAll (sel_class "form-alert") (contactForm (after_send p)) = [success].
Proof.
  unfold querySelectorAll. rewrite after_send_descendants. simpl. f_equal.
  rewrite filter_map_commute.
  - fold (querySelectorAll (sel_class "form-alert") (cleared p)).
    unfold cleared. now rewrite clearFormAlerts_no_alert.
  - intros a _. unfold kept, upd, reset_control.
    destruct (submitBtn p) as [b|];
      repeat match goal with |- context [if ?c then _ else _] => destruct c end;
      reflexivity.
Qed.

(** When its timer fires, the banner leaves and the rest of the form stays. *)
Lemma after_banner_form :
  contactForm (after_send p) = prepend (Node success []) (contactForm (after_banner p)).
Proof.
  unfold after_banner, run_callback.
  pose proof after_send_descendants as D. pose proof after_send_firstChild as F.
  destruct (contactForm (after_send p)) as [r ks].
  unfold firstChild in F; simpl in F. destruct ks as [|k ks]; [discriminate|].
  injection F as ->. unfold descendants in D; simpl in D. injection D as D.
  cbn [contactForm]. rewrite remove_first_child; [reflexivity|reflexivity|].
  intros e He. rewrite D in He. apply in_map_iff in He as (e0 & <- & He0).
  assert (B : nid e0 < next_id p).
  { destruct (cleared_well_formed WF) as [_ B]. rewrite Forall_forall in B.
    apply B. unfold ids. now apply in_map, In_descendants_flatten. }
  assert (K : nid (kept e0) = nid e0).
  { unfold kept, upd. destruct (submitBtn p) as [b|];
      repeat match goal with |- context [if ?c then _ else _] => destruct c end;
      simpl; rewrite ?nid_reset_control; reflexivity. }
  lia.
Qed.

Lemma after_banner_alerts :
  querySelectorAll (sel_class "form-alert") (contactForm (after_banner p)) = [].
Proof.
  pose proof after_send_alerts as A. rewrite after_banner_form in A.
  unfold querySelectorAll in A |- *. rewrite descendants_prepend in A.
  simpl in A. now injection A.
Qed.

Lemma fire_after_send :
  fire (List.length (timers p)) (after_send p) = Some (after_banner p).
Proof.
  unfold fire. rewrite after_send_timers.
  now rewrite nth_error_app_last, firstn_skipn_app_last.
Qed.

End SendPath.

Lemma valid_errors_nil (p : Form.page) :
  Form.name_fails (Form.trimmed_value (Form.nameEl p)) = false ->
  Email.email_fails (Form.trimmed_value (Form.emailEl p)) = false ->
  Form.message_fails (Form.trimmed_value (Form.messageEl p)) = false ->
  Form.errors_of p = [].
Proof. intros H1 H2 H3. apply validate_nil. auto. Qed.

(** *** A form without a [button[type="submit"]] *)

Section NoSubmitButton.

Import Form.

Variable p : page.
Hypothesis NoBtn : submitBtn p = None.

Lemma after_valid_no_button : contactForm (after_valid p) = cleared p.
Proof. unfold after_valid. now rewrite NoBtn. Qed.

Lemma after_send_no_button :
  contactForm (after_send p) =
  reset (prepend (Node (createAlertMessage success_msg "success" (next_id p)) [])
           (cleared p)).
Proof.
  unfold after_send, run_callback. rewrite NoBtn. cbn [option_map contactForm next_id].
  now rewrite after_valid_no_button.
Qed.

(** Nothing in the form is disabled or relabelled on the way. *)
Lemma cleared_keeps_state e :
  In e (flatten (cleared p)) ->
  exists e0, In e0 (flatten (contactForm p)) /\
    nid e = nid e0 /\ disabled e = disabled e0 /\ innerText e = innerText e0.
Proof.
  intros H. apply clearFormAlerts_frame in H. destruct H as (e0 & H0 & S).
  exists e0. split; [exact H0|].
  apply same_but_classes_fields in S. intuition congruence.
Qed.

Lemma after_send_keeps_state e :
  In e (flatten (contactForm (after_send p))) ->
  e = createAlertMessage success_msg "success" (next_id p) \/
  exists e0, In e0 (flatten (contactForm p)) /\
    nid e = nid e0 /\ disabled e = disabled e0 /\ innerText e = innerText e0.
Proof.
  rewrite after_send_no_button. unfold reset. rewrite flatten_tmap.
  intros H. apply in_map_iff in H. destruct H as (e1 & <- & H1).
  rewrite flatten_eq, elem_prepend, descendants_prepend in H1.
  assert (K : forall x, nid (reset_control x) = nid x /\
                        disabled (reset_control x) = disabled x /\
                        innerText (reset_control x) = innerText x).
  { intros x. unfold reset_control. now destruct (is_control x). }
  assert (Old : In e1 (flatten (cleared p)) ->
                exists e0, In e0 (flatten (contactForm p)) /\
                  nid (reset_control e1) = nid e0 /\
                  disabled (reset_control e1) = disabled e0 /\
                  innerText (reset_control e1) = innerText e0).
  { intros I. apply cleared_keeps_state in I. destruct I as (e0 & H0 & A & B & C).
    exists e0. split; [exact H0|]. destruct (K e1) as (Ka & Kb & Kc).
    repeat split; congruence. }
  destruct H1 as [<-|[<-|H1]].
  - right. apply Old. rewrite flatten_eq. now left.
  - left. reflexivity.
  - right. apply Old. rewrite flatten_eq. now right.
Qed.

End NoSubmitButton.

(** C2, as the code has it.  A submission whose three fields pass.  The
    handler returns with a 900 ms timer pending; the form's
    [button[type="submit"]], when it has one, is disabled and labelled
    [Sending...], and when it has none nothing in the form is disabled or
    relabelled.  When the timer fires the first child of the form is a new
    [div] with the classes [form-alert form-alert--success], the role
    [alert] and the text of the success message, and it is the only
    [.form-alert]; every control holds its default value; that button, when
    there is one, is enabled again, and without one still nothing is
    disabled or relabelled; an 8000 ms timer is pending.  When that one
    fires the banner is gone and the rest of the form is as it was. *)
Theorem valid_submission_sends (p : Form.page) :
  Form.well_formed_page p ->
  Form.name_fails (Form.trimmed_value (Form.nameEl p)) = false ->
  Email.email_fails (Form.trimmed_value (Form.emailEl p)) = false ->
  Form.message_fails (Form.trimmed_value (Form.messageEl p)) = false ->
  let banner :=
    mkElement (Form.next_id p) "div" [("role"%string, lit "alert")]
      ["form-alert"; "form-alert--success"]%string
      (lit "Thanks! Your message has been sent. We will reply within 24 hours.")
      [] [] false in
  exists p1 p2 p3,
    Form.on_submit p = Form.Ok p1 /\
    (forall b, Form.submitBtn p = Some b ->
       exists b1,
         querySelector sel_button_submit (Form.contactForm p1) = Some b1 /\
         nid b1 = nid b /\ disabled b1 = true /\ innerText b1 = lit "Sending...") /\
    (Form.submitBtn p = None ->
       forall e, In e (flatten (Form.contactForm p1)) ->
         exists e0, In e0 (flatten (Form.contactForm p)) /\
           nid e = nid e0 /\ disabled e = disabled e0 /\ innerText e = innerText e0) /\
    Form.timers p1 =
      Form.timers p ++ [(900%N, Form.SendDone (option_map nid (Form.submitBtn p)))] /\
    Form.fire (List.length (Form.timers p)) p1 = Some p2 /\
    firstChild (Form.contactForm p2) = Some (Node banner []) /\
    querySelectorAll (sel_class "form-alert") (Form.contactForm p2) = [banner] /\
    (forall e, In e (flatten (Form.contactForm p2)) ->
       Form.is_control e = true -> value e = defaultValue e) /\
    (forall b, Form.submitBtn p = Some b ->
       exists b2,
         querySelector sel_button_submit (Form.contactForm p2) = Some b2 /\
         nid b2 = nid b /\ disabled b2 = false) /\
    (Form.submitBtn p = None ->
       forall e, In e (flatten (Form.contactForm p2)) ->
         e = banner \/
         exists e0, In e0 (flatten (Form.contactForm p)) /\
           nid e = nid e0 /\ disabled e = disabled e0 /\ innerText e = innerText e0) /\
    Form.timers p2 = Form.timers p ++ [(8000%N, Form.RemoveSuccess (nid banner))] /\
    Form.fire (List.length (Form.timers p)) p2 = Some p3 /\
    Form.contactForm p2 = prepend (Node banner []) (Form.contactForm p3) /\
    querySelectorAll (sel_class "form-alert") (Form.contactForm p3) = [].
Proof.
  intros WF V1 V2 V3 banner.
  assert (B : banner =
              Form.createAlertMessage Form.success_msg "success" (Form.next_id p))
    by reflexivity.
  pose proof (valid_errors_nil p V1 V2 V3) as Valid.
  exists (Form.after_valid p), (Form.after_send p), (Form.after_banner p).
  split; [now apply on_submit_valid|].
  split.
  { intros b Hb. exists (Form.sending b).
    split; [now apply after_valid_button|]. repeat split. }
  split.
  { intros NoBtn e. rewrite (@after_valid_no_button p NoBtn).
    apply cleared_keeps_state. }
  split; [reflexivity|].
  split; [apply fire_after_valid|].
  split; [rewrite B; now apply after_send_firstChild|].
  split; [rewrite B; now apply after_send_alerts|].
  split; [intros e; now apply after_send_reset|].
  split.
  { intros b Hb. exists (Form.restored b).
    split; [now apply after_send_button|]. repeat split. }
  split.
  { intros NoBtn e. rewrite B. now apply (@after_send_keeps_state p NoBtn). }
  split; [apply after_send_timers|].
  split; [apply fire_after_send|].
  split; [rewrite B; now apply after_banner_form|now apply after_banner_alerts].
Qed.

(** The spec's example: ["Jane Doe"], ["jane@example.com"] and a message
    of thirty characters, in the sample form, whose button has
    [type="submit"]. *)
Lemma valid_submission_example :
  exists p1 p2 p3,
    Form.on_submit Sample.good_page = Form.Ok p1 /\
    Form.timers p1 = [(900%N, Form.SendDone (Some 5))] /\
    Form.fire 0 p1 = Some p2 /\
    option_map (fun k => classList (elem k)) (firstChild (Form.contactForm p2)) =
      Some ["form-alert"; "form-alert--success"]%string /\
    Form.timers p2 = [(8000%N, Form.RemoveSuccess 6)] /\
    Form.fire 0 p2 = Some p3 /\
    querySelectorAll (sel_class "form-alert") (Form.contactForm p3) = [].
Proof.
  destruct (valid_submission_sends
              (sample_page_well_formed (lit "Jane Doe") (lit "jane@example.com")
                 (lit "Hello, this is a real inquiry."))
              eq_refl eq_refl eq_refl)
    as (p1 & p2 & p3 & Sub & _ & _ & T1 & F1 & First & _ & _ & _ & _ & T2 & F2 & _ & Gone).
  exists p1, p2, p3.
  split; [exact Sub|]. split; [exact T1|]. split; [exact F1|].
  split; [now rewrite First|].
  split; [exact T2|]. split; [exact F2|exact Gone].
Defined.

(** The claim as the spec words it, "disables the submit control and shows
    a sending label", fails on a form whose submit control is
    [<button>Send</button>]: the fields pass, the timer of the send is
    scheduled and fires, and the button is enabled and labelled [Send]
    throughout, because [q('button[type="submit"]')] does not find it. *)
Lemma valid_submission_leaves_plain_button :
  Form.errors_of Sample.plain_button_page = [] /\
  lookup 5 (Form.contactForm Sample.plain_button_page) = Some Sample.plain_button /\
  tagName Sample.plain_button = "button"%string /\
  getAttribute "type" Sample.plain_button = None /\
  Form.submitBtn Sample.plain_button_page = None /\
  exists p1 p2,
    Form.on_submit Sample.plain_button_page = Form.Ok p1 /\
    Form.timers p1 = [(900%N, Form.SendDone None)] /\
    lookup 5 (Form.contactForm p1) = Some Sample.plain_button /\
    disabled Sample.plain_button = false /\
    innerText Sample.plain_button = lit "Send" /\
    Form.fire 0 p1 = Some p2 /\
    lookup 5 (Form.contactForm p2) = Some Sample.plain_button.
Proof.
  repeat (split; [reflexivity|]).
  eexists. eexists.
  split; [reflexivity|]. repeat (split; [reflexivity|]). reflexivity.
Qed.

(** C9.  After the simulated send the label of the submit button is
    ['Send Inquiry'], whatever it was before the submission: the button is
    the old one with [disabled] false and that label, so a button that had
    another label does not get it back, neither when the banner is removed. *)
Theorem label_after_send_is_fixed (p : Form.page) (b : element) :
  Form.well_formed_page p ->
  Form.name_fails (Form.trimmed_value (Form.nameEl p)) = false ->
  Email.email_fails (Form.trimmed_value (Form.emailEl p)) = false ->
  Form.message_fails (Form.trimmed_value (Form.messageEl p)) = false ->
  Form.submitBtn p = Some b ->
  let b' := set_innerText (lit "Send Inquiry") (set_disabled false b) in
  exists p1 p2 p3,
    Form.on_submit p = Form.Ok p1 /\
    Form.fire (List.length (Form.timers p)) p1 = Some p2 /\
    Form.fire (List.length (Form.timers p)) p2 = Some p3 /\
    querySelector sel_button_submit (Form.contactForm p2) = Some b' /\
    querySelector sel_button_submit (Form.contactForm p3) = Some b' /\
    (forall label, Form.restored (set_innerText label b) = b') /\
    (innerText b <> lit "Send Inquiry" -> innerText b' <> innerText b).
Proof.
  intros WF V1 V2 V3 Hb b'.
  pose proof (valid_errors_nil p V1 V2 V3) as Valid.
  exists (Form.after_valid p), (Form.after_send p), (Form.after_banner p).
  split; [now apply on_submit_valid|].
  split; [apply fire_after_valid|].
  split; [apply fire_after_send|].
  assert (Q2 : querySelector sel_button_submit (Form.contactForm (Form.after_send p))
               = Some b') by now apply after_send_button.
  split; [exact Q2|].
  split.
  { rewrite (after_banner_form WF) in Q2. unfold querySelector in Q2 |- *.
    rewrite descendants_prepend in Q2. exact Q2. }
  split; [reflexivity|].
  intros N. simpl. congruence.
Qed.

(** The sample button is labelled ["Send"]; after the send it reads
    ["Send Inquiry"]. *)
Lemma label_after_send_example :
  exists p1 p2 b',
    Form.on_submit Sample.good_page = Form.Ok p1 /\
    Form.fire 0 p1 = Some p2 /\
    querySelector sel_button_submit (Form.contactForm p2) = Some b' /\
    innerText b' = lit "Send Inquiry" /\
    innerText b' <> lit "Send".
Proof.
  destruct (label_after_send_is_fixed
              (b := elem (Sample.button 5 (lit "Send")))
              (sample_page_well_formed (lit "Jane Doe") (lit "jane@example.com")
                 (lit "Hello, this is a real inquiry."))
              eq_refl eq_refl eq_refl eq_refl)
    as (p1 & p2 & p3 & Sub & F1 & _ & Q2 & _ & _ & Diff).
  exists p1, p2,
    (set_innerText (lit "Send Inquiry")
       (set_disabled false (elem (Sample.button 5 (lit "Send"))))).
  split; [exact Sub|]. split; [exact F1|].
  split; [exact Q2|]. split; [reflexivity|].
  apply Diff. discriminate.
Defined.

(* ################################################################## *)
(** * Part III: further properties of the handlers *)

(* ================================================================== *)
(** ** Mobile menu: the other transitions *)

(** X1.  A nav-link click on a menu without the class [active] changes
    nothing, and so does a key press when the class is absent or the key is
    not [Escape]: no class, attribute, glyph or focus is written. *)
Theorem menu_idle_events_change_nothing (p : Menu.page) (key : jsstring) :
  (Menu.has_active p = false -> Menu.handle p Menu.NavLinkClick = p) /\
  (Menu.has_active p = false \/ key <> lit "Escape" ->
   Menu.handle p (Menu.KeyDown key) = p).
Proof.
  destruct p as [[t|] [n|] f]; unfold Menu.has_active;
    cbn [Menu.mainNav]; try (split; reflexivity).
  rewrite handle_link, handle_key.
  split.
  - intros H. unfold Menu.on_link_click. now rewrite H.
  - intros H. unfold Menu.on_keydown.
    assert (E : str_eqb key (lit "Escape") && contains "active" n = false).
    { destruct H as [H|H].
      - rewrite H. apply andb_false_r.
      - apply str_eqb_neq in H. now rewrite H. }
    now rewrite E.
Qed.

(** X2.  Whatever [aria-expanded] and the glyph were, a nav-link click or
    [Escape] on a menu with the class [active] leaves the menu closed (class
    removed, [aria-expanded="false"], burger glyph); the link click keeps
    the focus, [Escape] gives it to the toggle button. *)
Theorem menu_close_from_any_active_state (p : Menu.page) (t n : element) :
  Menu.menuToggle p = Some t ->
  Menu.mainNav p = Some n ->
  contains "active" n = true ->
  Menu.closed (Menu.handle p Menu.NavLinkClick) /\
  Menu.activeElement (Menu.handle p Menu.NavLinkClick) = Menu.activeElement p /\
  Menu.closed (Menu.handle p (Menu.KeyDown (lit "Escape"))) /\
  Menu.activeElement (Menu.handle p (Menu.KeyDown (lit "Escape"))) = Some (nid t).
Proof.
  intros Ht Hn Ha. destruct p as [mt mn f]. simpl in Ht, Hn. subst mt mn.
  rewrite handle_link, handle_key.
  unfold Menu.on_link_click, Menu.on_keydown. rewrite Ha, str_eqb_refl. simpl.
  repeat split; try apply close_menu_closed.
Qed.

Lemma menu_close_example :
  Menu.closed (Menu.handle Sample.open_out_of_sync Menu.NavLinkClick) /\
  Menu.activeElement (Menu.handle Sample.open_out_of_sync Menu.NavLinkClick) = Some 7 /\
  Menu.closed (Menu.handle Sample.open_out_of_sync (Menu.KeyDown (lit "Escape"))) /\
  Menu.activeElement (Menu.handle Sample.open_out_of_sync (Menu.KeyDown (lit "Escape"))) = Some 1.
Proof.
  exact (@menu_close_from_any_active_state Sample.open_out_of_sync _ _ eq_refl eq_refl eq_refl).
Defined.

(** X3.  A toggle click from any state: the class [active] flips, the glyph
    is the cross exactly when the class is now present, and [aria-expanded]
    becomes ["true"] exactly when it was not ["true"] before.  The attribute
    follows its own old value, not the class, so a page whose class and
    attribute disagree keeps disagreeing under toggle clicks. *)
Theorem toggle_click_from_any_state (t n : element) (focus : option nat) :
  let p := Menu.mkPage (Some t) (Some n) focus in
  let p' := Menu.handle p Menu.ToggleClick in
  Menu.has_active p' = negb (Menu.has_active p) /\
  (Menu.glyph p' = Some Menu.cross <-> Menu.has_active p' = true) /\
  (Menu.aria_expanded p' = Some (lit "true") <->
   Menu.aria_expanded p <> Some (lit "true")) /\
  (Menu.aria_expanded p' = Some (lit "true") \/
   Menu.aria_expanded p' = Some (lit "false")) /\
  Menu.activeElement p' = focus.
Proof.
  intros p p'. subst p p'. rewrite handle_toggle.
  unfold Menu.on_toggle_click, Menu.has_active, Menu.glyph, Menu.aria_expanded.
  cbn [Menu.mainNav Menu.menuToggle Menu.activeElement].
  rewrite contains_classList_toggle.
  change (getAttribute "aria-expanded" (set_innerText ?x ?e))
    with (getAttribute "aria-expanded" e).
  rewrite getAttribute_setAttribute.
  split; [reflexivity|]. split; [|split; [|split; [|reflexivity]]].
  - simpl. destruct (contains "active" n); simpl;
      split; intros E; solve [reflexivity | discriminate E].
  - unfold attr_is. destruct (getAttribute "aria-expanded" t) as [v|]; simpl.
    + destruct (str_eqb v (lit "true")) eqn:E; simpl.
      * apply str_eqb_eq in E. subst v. split; [discriminate|congruence].
      * apply str_eqb_neq in E. split; [congruence|reflexivity].
    + split; [discriminate|reflexivity].
  - destruct (negb _); auto.
Qed.

(** X4.  Markup that starts without [aria-expanded="true"] and without the
    class [active], whatever its glyph: the first toggle click opens the
    menu with the three pieces of state in agreement, and the second closes
    it. *)
Theorem first_toggle_normalises_markup (p : Menu.page) (t n : element) :
  Menu.menuToggle p = Some t ->
  Menu.mainNav p = Some n ->
  contains "active" n = false ->
  getAttribute "aria-expanded" t <> Some (lit "true") ->
  Menu.opened (Menu.handle p Menu.ToggleClick) /\
  Menu.closed (Menu.handle (Menu.handle p Menu.ToggleClick) Menu.ToggleClick).
Proof.
  intros Ht Hn Ha Hx. destruct p as [mt mn f]. simpl in Ht, Hn. subst mt mn.
  assert (X : attr_is "aria-expanded" (lit "true") t = false).
  { unfold attr_is. destruct (getAttribute "aria-expanded" t) as [v|]; [|reflexivity].
    apply str_eqb_neq. congruence. }
  assert (E : Menu.on_toggle_click t n f =
              Menu.mkPage
                (Some (set_innerText Menu.cross
                         (setAttribute "aria-expanded" (lit "true") t)))
                (Some (classList_toggle "active" n)) f).
  { unfold Menu.on_toggle_click. now rewrite X, contains_classList_toggle, Ha. }
  assert (O : Menu.opened (Menu.on_toggle_click t n f)).
  { rewrite E. apply opened_intro.
    - now rewrite contains_classList_toggle, Ha.
    - apply (getAttribute_setAttribute "aria-expanded" (lit "true") t).
    - reflexivity. }
  rewrite handle_toggle. split; [exact O|].
  rewrite E in O |- *. rewrite handle_toggle, (on_toggle_click_opened O).
  apply closed_intro.
  - now rewrite contains_classList_toggle, contains_classList_toggle, Ha.
  - apply (getAttribute_setAttribute "aria-expanded" (lit "false")).
  - reflexivity.
Qed.

Lemma first_toggle_example :
  Menu.opened (Menu.handle Sample.bare_menu Menu.ToggleClick) /\
  Menu.closed (Menu.handle (Menu.handle Sample.bare_menu Menu.ToggleClick) Menu.ToggleClick).
Proof.
  apply (@first_toggle_normalises_markup Sample.bare_menu _ _ eq_refl eq_refl eq_refl).
  discriminate.
Defined.

(* ================================================================== *)
(** ** Sticky header: what the handler leaves alone *)

Lemma classList_add_twice c e :
  classList_add c (classList_add c e) = classList_add c e.
Proof.
  unfold classList_add at 1. now rewrite contains_classList_add.
Qed.

(** X5.  The sticky handler writes nothing but the token [is-sticky]: the
    header object keeps its identity, tag, attributes and text, every other
    class keeps its membership, and a second event at the same offset
    changes nothing (the class list does not grow under repeated scroll
    events). *)
Theorem sticky_handler_touches_only_its_class
  (h : element) (y0 : Q) (ev : Sticky.event) :
  let p' := Sticky.handle ev (Sticky.mkPage (Some h) y0) in
  (exists h', Sticky.header p' = Some h' /\
     Form.same_but_classes h h' /\
     (forall c, c <> "is-sticky"%string -> contains c h' = contains c h)) /\
  Sticky.handle ev p' = p'.
Proof.
  intros p'. subst p'.
  assert (G : forall y,
             let q := Sticky.onScroll (Sticky.mkPage (Some h) y) in
             (exists h', Sticky.header q = Some h' /\
                Form.same_but_classes h h' /\
                (forall c, c <> "is-sticky"%string -> contains c h' = contains c h)) /\
             Sticky.onScroll q = q).
  { intros y q. subst q. unfold Sticky.onScroll at 1 2 3.
    cbn [Sticky.header Sticky.scrollY].
    destruct (Sticky.gt y Sticky.STICKY_OFFSET) eqn:E.
    - split.
      + eexists; split; [reflexivity|]. split; [apply same_but_classes_add|].
        intros c N. now apply contains_classList_add_other.
      + unfold Sticky.onScroll. cbn [Sticky.header Sticky.scrollY].
        now rewrite E, classList_add_twice.
    - split.
      + eexists; split; [reflexivity|]. split; [apply same_but_classes_remove|].
        intros c N. now apply contains_classList_remove_other.
      + unfold Sticky.onScroll. cbn [Sticky.header Sticky.scrollY].
        now rewrite E, classList_remove_twice. }
  destruct ev as [|y]; cbn [Sticky.handle].
  - apply G.
  - destruct (G y) as (A & I). cbv zeta in I.
    change (Sticky.header (Sticky.mkPage (Some h) y0)) with (Some h).
    split; [exact A|].
    assert (E : Sticky.mkPage
                  (Sticky.header (Sticky.onScroll (Sticky.mkPage (Some h) y))) y
                = Sticky.onScroll (Sticky.mkPage (Some h) y)).
    { unfold Sticky.onScroll. cbn [Sticky.header Sticky.scrollY].
      now destruct (Sticky.gt y Sticky.STICKY_OFFSET). }
    rewrite E. exact I.
Qed.

(* ================================================================== *)
(** ** Smooth scroll: which clicks are intercepted, and where they go *)

(** X6.  The click listener is attached to exactly the links of the form
    [<a href="#id">] with a non-empty id and no [data-no-smooth] attribute;
    a click on any other link is left to the browser: the default is not
    prevented and nothing scrolls. *)
Theorem smooth_scroll_listens_exactly_to_anchor_links (link : element) :
  (Scroll.listens link = true <->
   tag_is "a" link = true /\
   hasAttribute "data-no-smooth" link = false /\
   exists id, id <> [] /\ getAttribute "href" link = Some (Scroll.hash :: id)) /\
  (forall (h : Scroll.host) (p : Scroll.page h),
     Scroll.listens link = false -> Scroll.click link p = Scroll.native).
Proof.
  split.
  - split.
    + unfold Scroll.listens, Scroll.sel_hash_link, Scroll.skipped.
      intros H. apply andb_prop in H. destruct H as [H1 H2].
      apply andb_prop in H1. destruct H1 as [Ht Hc].
      destruct (getAttribute "href" link) as [[|c id]|]; try discriminate Hc.
      apply N.eqb_eq in Hc. subst c.
      apply negb_true_iff in H2. cbn [falsy orb] in H2.
      apply orb_false_elim in H2. destruct H2 as [Hb Hd].
      split; [exact Ht|]. split; [exact Hd|].
      exists id. split; [|reflexivity].
      intros ->. unfold str_eqb in Hb.
      destruct (list_eq_dec N.eq_dec [Scroll.hash] [Scroll.hash]); congruence.
    + intros (Ht & Hd & id & Hid & Hh).
      exact (listens_hash_link link Ht Hh Hid Hd).
  - intros h p H. unfold Scroll.click. now rewrite H.
Qed.




(* ================================================================== *)
(** ** Counters: the set-up loop and the end of the animation *)

Section CounterMore.

Import Counter.

Variable h : host.

Lemma prepare_eq c :
  prepare c =
  if falsy (trim (textContent c)) then set_textContent (lit "0") (with_role c)
  else with_role c.
Proof. unfold prepare, with_role. now destruct (hasAttribute "role" c). Qed.

Lemma textContent_with_role c : textContent (with_role c) = textContent c.
Proof. unfold with_role. now destruct (hasAttribute "role" c). Qed.

Lemma prepare_cases c :
  exists c1,
    (c1 = c \/ c1 = setAttribute "role" (lit "status") c) /\
    hasAttribute "role" c1 = true /\
    (prepare c = c1 \/ prepare c = set_textContent (lit "0") c1) /\
    textContent c1 = textContent c.
Proof.
  unfold prepare.
  destruct (hasAttribute "role" c) eqn:R.
  - exists c. repeat split; auto.
    destruct (falsy (trim (textContent c))); auto.
  - exists (setAttribute "role" (lit "status") c). repeat split; auto.
    + unfold hasAttribute.
      now rewrite (getAttribute_setAttribute "role" (lit "status") c).
    + destruct (falsy _); auto.
Qed.

Lemma getAttribute_prepare name c :
  name <> "role"%string -> getAttribute name (prepare c) = getAttribute name c.
Proof.
  intros N. destruct (prepare_cases c) as (c1 & [->| ->] & _ & [->| ->] & _);
    try reflexivity;
    change (getAttribute name (set_textContent ?t ?e)) with (getAttribute name e);
    apply getAttribute_setAttribute_other; congruence.
Qed.

Lemma raw_prepare c : falsy (trim (raw c)) = false -> raw (prepare c) = raw c.
Proof.
  unfold raw. rewrite getAttribute_prepare by discriminate.
  assert (T : falsy (trim (textContent c)) = false ->
              textContent (prepare c) = textContent c).
  { intros F. rewrite prepare_eq, F. apply textContent_with_role. }
  assert (Z : textContent c = [] -> textContent (prepare c) = lit "0").
  { intros E. rewrite prepare_eq, E. reflexivity. }
  assert (G : falsy (trim (if falsy (textContent c) then lit "0" else textContent c))
              = false ->
              (if falsy (textContent (prepare c)) then lit "0"
               else textContent (prepare c)) =
              (if falsy (textContent c) then lit "0" else textContent c)).
  { destruct (textContent c) as [|x s] eqn:E.
    - intros _. now rewrite Z.
    - cbn [falsy]. intros F. now rewrite T. }
  destruct (getAttribute "data-target" c) as [s|]; [|exact G].
  destruct (falsy s); [exact G|reflexivity].
Qed.

Variable e : element.

Lemma frame_written a now : written e a -> written e (frame h a now).
Proof.
  intros W. unfold frame. destruct (requested a) eqn:R; [|exact W].
  destruct W as [W1 _]. specialize (W1 R). unfold step.
  destruct (lt h _ _); split; cbn [requested el]; try discriminate; intros _.
  - exact W1.
  - unfold set_textContent, set_innerText, setAttribute in *. cbn in *.
    injection W1 as E1 E2 E3 E4 E5 E6 E7. congruence.
Qed.

Lemma run_written frames : forall a, written e a -> written e (run h a frames).
Proof.
  induction frames as [|now frames IH]; intros a W; simpl; [exact W|].
  apply IH, frame_written, W.
Qed.

End CounterMore.

(** X8.  The set-up loop: afterwards the counter has a [role], [status] if
    it had none and its own otherwise, and a text that is not blank; no
    other attribute is written, so the duration is unchanged; running the
    loop body again changes nothing; and unless the target string was
    blank, the target string and the text the animation ends on are the
    ones of the counter as authored. *)
Theorem counter_setup_keeps_authored_values (h : Counter.host) (c : element) :
  let c' := Counter.prepare c in
  (getAttribute "role" c' =
     match getAttribute "role" c with Some r => Some r | None => Some (lit "status") end) /\
  (forall name, name <> "role"%string -> getAttribute name c' = getAttribute name c) /\
  falsy (trim (Counter.textContent c')) = false /\
  Counter.prepare c' = c' /\
  Counter.duration h c' = Counter.duration h c /\
  (falsy (trim (Counter.raw c)) = false ->
   Counter.raw c' = Counter.raw c /\
   Counter.final_text h c' = Counter.final_text h c).
Proof.
  intros c'. subst c'.
  assert (R : getAttribute "role" (Counter.prepare c) =
              match getAttribute "role" c with
              | Some r => Some r | None => Some (lit "status") end).
  { rewrite prepare_eq. unfold Counter.with_role, hasAttribute.
    destruct (getAttribute "role" c) as [r|] eqn:E.
    - destruct (falsy _); exact E.
    - destruct (falsy _);
        apply (getAttribute_setAttribute "role" (lit "status") c). }
  assert (B : falsy (trim (Counter.textContent (Counter.prepare c))) = false).
  { rewrite prepare_eq. destruct (falsy (trim (Counter.textContent c))) eqn:F;
      [reflexivity|]. now rewrite textContent_with_role. }
  split; [exact R|]. split; [intros; now apply getAttribute_prepare|].
  split; [exact B|]. split; [|split].
  - rewrite (prepare_eq (Counter.prepare c)), B.
    unfold Counter.with_role, hasAttribute. rewrite R.
    now destruct (getAttribute "role" c).
  - unfold Counter.duration. now rewrite getAttribute_prepare by discriminate.
  - intros F. pose proof (raw_prepare c F) as E. split; [exact E|].
    unfold Counter.final_text, Counter.isFloat, Counter.target, Counter.numericStr.
    now rewrite E.
Qed.

(** X9.  A counter animation writes the text of its element and nothing
    else while it runs; the frame that ends it also sets
    [aria-live="polite"], and from then on no frame changes the element or
    requests another frame. *)
Theorem counter_animation_writes_text_then_aria_live
  (h : Counter.host) (e : element)
  (now : Counter.number h) (frames : list (Counter.number h)) :
  let a := Counter.run h (Counter.on_intersect h e now) frames in
  (Counter.requested a = true ->
   Counter.set_textContent [] (Counter.el a) = Counter.set_textContent [] e) /\
  (Counter.requested a = false ->
   Counter.set_textContent [] (Counter.el a) =
     Counter.set_textContent [] (setAttribute "aria-live" (lit "polite") e) /\
   forall more, Counter.run h a more = a).
Proof.
  intros a.
  assert (W : Counter.written e a).
  { subst a. apply run_written. split; cbn; [reflexivity|discriminate]. }
  destruct W as [W1 W2]. split; [exact W1|].
  intros R. split; [exact (W2 R)|].
  intros more. now apply run_finished.
Qed.


(* ================================================================== *)
(** ** Validation: white space around a value *)

Lemma trimStart_blank s : blank s -> trimStart s = [].
Proof.
  induction 1 as [|c s Hc _ IH]; simpl; [reflexivity|]. now rewrite Hc.
Qed.

Lemma trimStart_blank_app pre s : blank pre -> trimStart (pre ++ s) = trimStart s.
Proof.
  induction 1 as [|c pre Hc _ IH]; simpl; [reflexivity|]. now rewrite Hc.
Qed.

Lemma trimEnd_blank_app s post : blank post -> trimEnd (s ++ post) = trimEnd s.
Proof.
  intros B. unfold trimEnd. rewrite rev_app_distr.
  rewrite trimStart_blank_app; [reflexivity|].
  unfold blank. apply Forall_forall. intros c I.
  apply in_rev in I. revert c I. now apply Forall_forall.
Qed.

Lemma trim_blank_around pre v post :
  blank pre -> blank post -> trim (pre ++ v ++ post) = trim v.
Proof.
  intros P Q. unfold trim. rewrite trimStart_blank_app by exact P.
  induction v as [|c v IH]; simpl.
  - now rewrite (trimStart_blank Q).
  - destruct (is_ws c); [exact IH|].
    exact (trimEnd_blank_app (c :: v) Q).
Qed.

(** X10.  White space typed around a value does not change what the
    validators see, and a field holding nothing but white space fails all
    three of them, as a missing field does. *)
Theorem validation_ignores_surrounding_whitespace
  (e : element) (pre post : jsstring) :
  blank pre -> blank post ->
  let e' := set_value (pre ++ value e ++ post) e in
  Form.trimmed_value (Some e') = Form.trimmed_value (Some e) /\
  (value e = [] ->
   Form.trimmed_value (Some e') = Form.trimmed_value None /\
   Form.name_fails (Form.trimmed_value (Some e')) = true /\
   Email.email_fails (Form.trimmed_value (Some e')) = true /\
   Form.message_fails (Form.trimmed_value (Some e')) = true).
Proof.
  intros P Q e'.
  assert (E : Form.trimmed_value (Some e') = Form.trimmed_value (Some e)).
  { subst e'. unfold Form.trimmed_value. cbn [value set_value].
    now apply trim_blank_around. }
  split; [exact E|]. intros V. rewrite E.
  unfold Form.trimmed_value. rewrite V. repeat split.
Qed.

Lemma validation_whitespace_example :
  Form.trimmed_value
    (Some (set_value ([32; 9]%N ++ lit "a@b.co" ++ [10; 160]%N)
             (elem (Sample.input 3 "email" (lit "a@b.co"))))) =
  Form.trimmed_value (Some (elem (Sample.input 3 "email" (lit "a@b.co")))).
Proof.
  apply (@validation_ignores_surrounding_whitespace
           (elem (Sample.input 3 "email" (lit "a@b.co"))) [32; 9]%N [10; 160]%N);
    repeat constructor.
Defined.

(* ================================================================== *)
(** ** More on trees *)

Lemma tmap_tmap F G n : tmap F (tmap G n) = tmap (fun e => F (G e)) n.
Proof.
  induction n as [e ks IH] using node_ind; simpl. f_equal.
  rewrite map_map. induction IH as [|k ks Hk _ IHks]; simpl; [reflexivity|].
  now rewrite Hk, IHks.
Qed.

Lemma tmap_ext F G n :
  (forall e, In e (flatten n) -> F e = G e) -> tmap F n = tmap G n.
Proof.
  induction n as [e ks IH] using node_ind; simpl. intros H.
  rewrite (H e) by now left. f_equal.
  assert (H' : forall x, In x (flat_map flatten ks) -> F x = G x)
    by (intros x Hx; apply H; now right).
  clear H. induction IH as [|k ks Hk _ IHks]; simpl; [reflexivity|].
  simpl in H'. rewrite Hk, IHks; [reflexivity| |];
    intros x Hx; apply H'; apply in_app_iff; auto.
Qed.

Lemma tmap_id n : tmap (fun e => e) n = n.
Proof.
  induction n as [e ks IH] using node_ind; simpl. f_equal.
  induction IH as [|k ks Hk _ IHks]; simpl; [reflexivity|].
  now rewrite Hk, IHks.
Qed.

Lemma count_occ_nid (l : list element) y :
  count_occ Nat.eq_dec (map nid l) y =
  List.length (filter (fun e => Nat.eqb (nid e) y) l).
Proof.
  induction l as [|a l IH]; simpl; [reflexivity|].
  destruct (Nat.eq_dec (nid a) y) as [E|E].
  - apply Nat.eqb_eq in E. rewrite E. simpl. now rewrite IH.
  - apply Nat.eqb_neq in E. now rewrite E.
Qed.

(** Inserting a leaf after the object [j] adds one copy of it for every
    occurrence of [j] below the root. *)
Lemma length_filter_descendants_insertAfter (P : element -> bool) j ex n :
  List.length (filter P (descendants (insertAfter j (Node ex []) n))) =
  List.length (filter P (descendants n)) +
  (if P ex then List.length (filter (fun e => Nat.eqb (nid e) j) (descendants n))
   else 0).
Proof.
  destruct (P ex) eqn:Hx.
  2:{ rewrite filter_descendants_insertAfter by exact Hx. lia. }
  induction n as [r ks IH] using node_ind.
  unfold descendants; simpl.
  induction IH as [|k ks Hk _ IHks]; simpl; [reflexivity|].
  unfold insert_after_in in *. simpl.
  rewrite flat_map_app, !filter_app, !length_app, IHks.
  rewrite elem_insertAfter.
  assert (E : List.length (filter P (flatten (insertAfter j (Node ex []) k))) =
              List.length (filter P (flatten k)) +
              List.length (filter (fun e => Nat.eqb (nid e) j) (descendants k))).
  { rewrite !flatten_eq, elem_insertAfter. simpl.
    destruct (P (elem k)); simpl; rewrite Hk; lia. }
  rewrite (flatten_eq k) at 2. simpl.
  destruct (Nat.eqb (nid (elem k)) j); simpl;
    rewrite ?app_nil_r, ?filter_app, ?length_app, E; simpl; rewrite ?Hx; simpl; lia.
Qed.

Lemma well_formed_weaken k k' n : k <= k' -> well_formed k n -> well_formed k' n.
Proof.
  intros L [N B]. split; [exact N|].
  eapply Forall_impl; [|exact B]. intros; simpl in *; lia.
Qed.

Lemma well_formed_tmap F k n :
  (forall e, nid (F e) = nid e) -> well_formed k n -> well_formed k (tmap F n).
Proof. intros H [N B]. unfold well_formed. now rewrite (ids_tmap F n H). Qed.

Lemma well_formed_update i G k n :
  (forall e, nid (G e) = nid e) -> well_formed k n -> well_formed k (update i G n).
Proof. intros H. apply well_formed_tmap. intros e. now apply nid_upd. Qed.

Lemma ids_remove_incl i n y : In y (ids (remove i n)) -> In y (ids n).
Proof.
  unfold ids. rewrite !in_map_iff. intros (e & E & H).
  exists e. split; [exact E|]. now apply In_flatten_remove in H.
Qed.

Lemma well_formed_remove i k n : well_formed k n -> well_formed k (remove i n).
Proof.
  intros [N B]. split; [now apply NoDup_ids_remove|].
  apply Forall_forall. intros y Hy. apply ids_remove_incl in Hy.
  revert y Hy. now apply Forall_forall.
Qed.

Lemma well_formed_prepend ex k n :
  nid ex = k -> well_formed k n -> well_formed (S k) (prepend (Node ex []) n).
Proof.
  intros E [N B]. destruct n as [r ks]. unfold well_formed, ids in *. simpl in *.
  assert (Fresh : ~ In k (nid r :: map nid (flat_map flatten ks))).
  { intros I. rewrite Forall_forall in B. specialize (B k I). lia. }
  split.
  - rewrite E. inversion N as [|? ? Nr Nks]; subst.
    constructor.
    + simpl. intros [H|H]; [apply Fresh; now left| contradiction].
    + constructor; [intros H; apply Fresh; now right|exact Nks].
  - inversion B as [|? ? Br Bks]; subst.
    constructor; [lia|]. constructor; [lia|].
    eapply Forall_impl; [|exact Bks]. intros; simpl in *; lia.
Qed.

Lemma well_formed_insertAfter j ex k n :
  nid ex = k -> well_formed k n ->
  well_formed (S k) (insertAfter j (Node ex []) n).
Proof.
  intros E [N B]. rewrite Forall_forall in B.
  assert (Z : forall e, In e (flatten n) -> nid e < k).
  { intros e He. apply B. unfold ids. apply in_map_iff. eauto. }
  split.
  - apply (NoDup_count_occ Nat.eq_dec). intros y.
    assert (C : forall z, count_occ Nat.eq_dec (ids n) z <= 1)
      by now apply (NoDup_count_occ Nat.eq_dec).
    unfold ids in *. rewrite flatten_eq in *. rewrite elem_insertAfter.
    cbn [map count_occ] in *.
    rewrite count_occ_nid.
    rewrite (length_filter_descendants_insertAfter (fun e => Nat.eqb (nid e) y)).
    rewrite E.
    pose proof (C y) as Cy. rewrite count_occ_nid in Cy.
    destruct (Nat.eqb k y) eqn:K; [|destruct (Nat.eq_dec (nid (elem n)) y); lia].
    apply Nat.eqb_eq in K. subst y.
    assert (Z0 : filter (fun e => Nat.eqb (nid e) k) (descendants n) = []).
    { apply filter_nil_iff. intros a Ha. apply Nat.eqb_neq.
      specialize (Z a (or_intror Ha)). lia. }
    rewrite Z0. simpl.
    destruct (Nat.eq_dec (nid (elem n)) k) as [R|R].
    + specialize (Z (elem n) (or_introl eq_refl)). lia.
    + pose proof (C j) as Cj. rewrite count_occ_nid in Cj.
      destruct (Nat.eq_dec (nid (elem n)) j); lia.
  - apply Forall_forall. intros y Hy. unfold ids in Hy.
    apply in_map_iff in Hy. destruct Hy as (e & Ey & He).
    apply In_flatten_insertAfter in He. destruct He as [->|He].
    + lia.
    + specialize (Z e He). lia.
Qed.

(* ================================================================== *)
(** ** Reveal on scroll *)

Section RevealFacts.

Import Reveal.

Lemma reveal_page_eta p : mkPage (document p) (observed p) = p.
Proof. now destruct p. Qed.

Lemma filter_filter {A} (P Q : A -> bool) l :
  filter P (filter Q l) = filter (fun a => Q a && P a) l.
Proof.
  induction l as [|a l IH]; simpl; [reflexivity|].
  destruct (Q a); simpl; [destruct (P a)|]; now rewrite IH.
Qed.

Lemma reveal_step en es e :
  isIntersecting en = true ->
  reveal es (upd (target en) (classList_add "revealed") e) = reveal (en :: es) e.
Proof.
  intros I. unfold reveal, intersected, upd. cbn [existsb]. rewrite I. cbn [andb].
  rewrite (Nat.eqb_sym (target en) (nid e)).
  destruct (Nat.eqb (nid e) (target en)); cbn [orb].
  - rewrite nid_classList_add.
    destruct (existsb _ es); [apply classList_add_twice|reflexivity].
  - reflexivity.
Qed.

(** The callback in closed form. *)
Lemma callback_closed es : forall p,
  callback es p =
  mkPage (tmap (reveal es) (document p))
    (filter (fun i => negb (intersected es i)) (observed p)).
Proof.
  unfold callback.
  induction es as [|en es IH]; intros p; cbn [fold_left].
  - unfold reveal, intersected. cbn [existsb negb].
    rewrite tmap_id. destruct p as [d o]. cbn [document observed]. f_equal.
    induction o as [|i o IHo]; simpl; [reflexivity|]. f_equal. exact IHo.
  - rewrite IH. unfold on_entry.
    destruct (isIntersecting en) eqn:I; cbn [negb document observed].
    + unfold update. rewrite tmap_tmap. f_equal.
      * apply tmap_ext. intros e _. now apply reveal_step.
      * unfold unobserve. rewrite filter_filter. apply filter_ext.
        intros i. unfold intersected. cbn [existsb]. rewrite I. cbn [andb].
        rewrite (Nat.eqb_sym i (target en)).
        now destruct (Nat.eqb (target en) i); cbn [negb orb andb].
    + f_equal.
      * apply tmap_ext. intros e _. unfold reveal, intersected. cbn [existsb].
        now rewrite I.
      * apply filter_ext. intros i. unfold intersected. cbn [existsb].
        now rewrite I.
Qed.

Lemma reveal_twice es e : reveal es (reveal es e) = reveal es e.
Proof.
  unfold reveal at 1.
  destruct (intersected es (nid e)) eqn:I.
  - assert (E : reveal es e = classList_add "revealed" e)
      by (unfold reveal; now rewrite I).
    rewrite E, nid_classList_add, I. apply classList_add_twice.
  - assert (E : reveal es e = e) by (unfold reveal; now rewrite I).
    rewrite E. now rewrite I.
Qed.

Lemma contains_reveal es c e :
  contains c (reveal es e) =
  contains c e || (String.eqb c "revealed" && intersected es (nid e)).
Proof.
  unfold reveal. destruct (intersected es (nid e)).
  - destruct (String.eqb c "revealed") eqn:E; cbn [andb].
    + apply String.eqb_eq in E. subst c. rewrite contains_classList_add.
      now rewrite orb_true_r.
    + apply String.eqb_neq in E. rewrite contains_classList_add_other by exact E.
      now rewrite orb_false_r.
  - now rewrite andb_false_r, orb_false_r.
Qed.

End RevealFacts.

(** X11.  One batch of intersection entries: an element has the class
    [revealed] afterwards exactly when it had it before or the batch holds
    an intersecting entry for it, every other class keeps its membership
    and nothing but the class list is written; the targets left observed
    are the ones without an intersecting entry; and delivering the same
    batch a second time changes nothing. *)
Theorem reveal_batch_is_idempotent (es : list Reveal.entry) (p : Reveal.page) :
  let p' := Reveal.callback es p in
  Reveal.document p' = tmap (Reveal.reveal es) (Reveal.document p) /\
  (forall e c,
     Form.same_but_classes e (Reveal.reveal es e) /\
     contains c (Reveal.reveal es e) =
       contains c e || (String.eqb c "revealed" && Reveal.intersected es (nid e))) /\
  Reveal.observed p' =
    filter (fun i => negb (Reveal.intersected es i)) (Reveal.observed p) /\
  Reveal.callback es p' = p'.
Proof.
  intros p'. subst p'. rewrite !callback_closed.
  cbn [Reveal.document Reveal.observed].
  split; [reflexivity|]. split; [|split; [reflexivity|]].
  - intros e c. split; [|apply contains_reveal].
    unfold Reveal.reveal. destruct (Reveal.intersected es (nid e));
      [apply same_but_classes_add|apply same_but_classes_refl].
  - f_equal.
    + rewrite tmap_tmap. apply tmap_ext. intros e _. apply reveal_twice.
    + rewrite filter_filter. apply filter_ext. intros i.
      now destruct (Reveal.intersected es i).
Qed.

Section RevealRuns.

Import Reveal.

Variable doc : node.

Let R : list nat := reveal_ids doc.

Lemma fold_observe_incl l : forall acc,
  incl (fold_left (fun obs el => observe (nid el) obs) l acc) (acc ++ map nid l).
Proof.
  induction l as [|a l IH]; intros acc; cbn [fold_left map].
  - rewrite app_nil_r. apply incl_refl.
  - intros i Hi. apply IH in Hi. unfold observe in Hi.
    rewrite in_app_iff in *. simpl.
    destruct (existsb (Nat.eqb (nid a)) acc); [tauto|].
    rewrite in_app_iff in Hi. simpl in Hi. tauto.
Qed.

Lemma setup_observed : incl (observed (setup doc)) R.
Proof.
  unfold setup. destruct (Nat.eqb _ 0); cbn [observed].
  - intros i [].
  - intros i Hi. apply fold_observe_incl in Hi. exact Hi.
Qed.

Lemma setup_document : document (setup doc) = doc.
Proof. unfold setup. now destruct (Nat.eqb _ 0). Qed.

Lemma intersected_In es i :
  intersected es i = true -> exists en, In en es /\ target en = i.
Proof.
  unfold intersected. rewrite existsb_exists. intros (en & I & H).
  exists en. split; [exact I|]. apply andb_prop in H. now apply Nat.eqb_eq.
Qed.

Lemma notify_revealing es p : revealing doc p -> revealing doc (notify es p).
Proof.
  intros [(F & D & HF) O]. unfold notify. rewrite callback_closed.
  set (es' := filter _ es).
  assert (T : forall i, intersected es' i = true -> In i R).
  { intros i Hi. apply intersected_In in Hi. destruct Hi as (en & I & <-).
    subst es'. apply filter_In in I. destruct I as [_ I].
    apply existsb_exists in I. destruct I as (j & Hj & E).
    apply Nat.eqb_eq in E. subst j. now apply O. }
  split; cbn [document observed].
  - exists (fun e => reveal es' (F e)). split.
    + now rewrite D, tmap_tmap.
    + intros e. destruct (HF e) as [E|[E I]]; rewrite E.
      * unfold reveal. destruct (intersected es' (nid e)) eqn:H; auto.
      * right. split; [|exact I]. unfold reveal.
        destruct (intersected es' _); [apply classList_add_twice|reflexivity].
  - intros i Hi. apply filter_In in Hi. apply O. tauto.
Qed.

Lemma run_revealing batches : forall p,
  revealing doc p -> revealing doc (fold_left (fun p es => notify es p) batches p).
Proof.
  induction batches as [|es batches IH]; intros p H; cbn [fold_left]; [exact H|].
  apply IH, notify_revealing, H.
Qed.

End RevealRuns.

(** X12.  From the set-up on, whatever batches the host delivers for the
    observed targets: the only elements ever written are the ones that had
    the class [reveal] when the script ran, and each of them is either
    untouched or has gained the class [revealed]. *)
Theorem only_reveal_elements_are_revealed
  (doc : node) (next : nat) (batches : list (list Reveal.entry)) :
  well_formed next doc ->
  let p := fold_left (fun p es => Reveal.notify es p) batches (Reveal.setup doc) in
  exists F,
    Reveal.document p = tmap F doc /\
    forall e, In e (flatten doc) ->
      F e = e \/
      (F e = classList_add "revealed" e /\
       In e (querySelectorAll (sel_class "reveal") doc)).
Proof.
  intros [N _] p.
  assert (H : Reveal.revealing doc p).
  { subst p. apply run_revealing. split.
    - exists (fun e => e). rewrite setup_document, tmap_id. auto.
    - apply setup_observed. }
  destruct H as [(F & D & HF) _]. exists F. split; [exact D|].
  intros e He. destruct (HF e) as [E|[E I]]; [now left|right].
  split; [exact E|].
  apply in_map_iff in I. destruct I as (r & Er & Hr).
  assert (r = e); [|now subst r].
  apply (same_nid_same_element doc); auto.
  unfold querySelectorAll in Hr. apply filter_In in Hr.
  apply In_descendants_flatten. tauto.
Qed.

Lemma reveal_sample_run :
  exists F,
    Reveal.document
      (fold_left (fun p es => Reveal.notify es p) Sample.reveal_batches
         (Reveal.setup Sample.reveal_doc)) = tmap F Sample.reveal_doc /\
    forall e, In e (flatten Sample.reveal_doc) ->
      F e = e \/
      (F e = classList_add "revealed" e /\
       In e (querySelectorAll (sel_class "reveal") Sample.reveal_doc)).
Proof.
  apply (@only_reveal_elements_are_revealed Sample.reveal_doc 4 Sample.reveal_batches).
  split; simpl.
  - repeat (constructor; [simpl; intuition discriminate|]). constructor.
  - repeat constructor.
Defined.

(* ================================================================== *)
(** ** Contact form: the handlers as a whole *)

Section FormHandlers.

Import Form.

Lemma found_hasParent sel n f :
  querySelector sel n = Some f -> hasParent (nid f) n = true.
Proof.
  intros Q. apply querySelector_Some in Q. apply hasParent_In.
  exists f. tauto.
Qed.

Lemma errors_fields_hasParent p f :
  In f (fields (errors_of p)) -> hasParent (nid f) (cleared p) = true.
Proof.
  intros H. apply fields_validate in H as [H|[H|H]];
    now apply found_hasParent in H.
Qed.

Lemma on_submit_cases p :
  on_submit p =
  Ok (match errors_of p with [] => after_valid p | _ :: _ => after_errors p end).
Proof.
  unfold on_submit.
  change (validate _ _ _) with (errors_of p).
  change (clearFormAlerts (contactForm p)) with (cleared p).
  destruct (errors_of p) as [|err errs] eqn:E; [reflexivity|].
  rewrite <- E. rewrite forEach_indexed_shown.
  - unfold after_errors. reflexivity.
  - intros f Hf. cbn [contactForm]. now apply errors_fields_hasParent.
Qed.

(** *** Well-formedness is kept *)

Lemma render_well_formed f m k t :
  well_formed k t -> well_formed (S k) (render f m k t).
Proof.
  intros W. unfold render. apply well_formed_insertAfter; [reflexivity|].
  apply well_formed_update; [apply nid_classList_add|exact W].
Qed.

Lemma show_error_page_well_formed err i p :
  well_formed_page p -> well_formed_page (show_error_page err i p).
Proof.
  intros W. unfold show_error_page. destruct (field err) as [f|]; [|exact W].
  unfold well_formed_page. cbn [contactForm next_id].
  now apply render_well_formed.
Qed.

Lemma shown_well_formed errs : forall i p,
  well_formed_page p -> well_formed_page (shown errs i p).
Proof.
  induction errs as [|err errs IH]; intros i p W; cbn [shown]; [exact W|].
  apply IH, show_error_page_well_formed, W.
Qed.

Lemma cleared_page_well_formed p :
  well_formed_page p ->
  well_formed_page (mkPage (cleared p) (activeElement p) (timers p) (next_id p)).
Proof. intros W. apply clearFormAlerts_well_formed, W. Qed.

Lemma after_errors_well_formed p :
  well_formed_page p -> well_formed_page (after_errors p).
Proof.
  intros W. unfold after_errors, well_formed_page. cbn [contactForm next_id].
  apply well_formed_prepend; [reflexivity|].
  apply shown_well_formed, cleared_page_well_formed, W.
Qed.

Lemma nid_sending e : nid (sending e) = nid e.
Proof. reflexivity. Qed.

Lemma nid_restored e : nid (restored e) = nid e.
Proof. reflexivity. Qed.

Lemma after_valid_well_formed p :
  well_formed_page p -> well_formed_page (after_valid p).
Proof.
  intros W. unfold after_valid, well_formed_page. cbn [contactForm next_id].
  pose proof (cleared_page_well_formed W) as C.
  destruct (submitBtn p); [|exact C].
  apply well_formed_update; [apply nid_sending|exact C].
Qed.

Lemma run_callback_well_formed cb p :
  well_formed_page p -> well_formed_page (run_callback cb p).
Proof.
  intros W. destruct cb as [sb|s]; unfold run_callback, well_formed_page;
    cbn [contactForm next_id].
  - assert (R : well_formed (S (next_id p))
                  (reset (prepend (Node (createAlertMessage success_msg "success"
                                           (next_id p)) []) (contactForm p)))).
    { apply well_formed_tmap; [apply nid_reset_control|].
      apply well_formed_prepend; [reflexivity|exact W]. }
    destruct sb; [|exact R].
    apply well_formed_update; [apply nid_restored|exact R].
  - apply well_formed_remove, W.
Qed.

Lemma nid_unmark e : nid (unmark e) = nid e.
Proof. unfold unmark. now destruct (contains "input-error" e). Qed.

Lemma on_input_well_formed i p p' :
  well_formed_page p -> on_input i p = Some p' -> well_formed_page p'.
Proof.
  intros W. unfold on_input.
  pose proof (well_formed_update i unmark nid_unmark W) as U.
  destruct (parentNode i _) as [par|]; [|discriminate].
  destruct (querySelector _ par) as [x|]; intros E; injection E as <-;
    unfold well_formed_page; cbn [contactForm next_id];
    [apply well_formed_remove|]; exact U.
Qed.

End FormHandlers.

(** X13.  The [submit] listener never throws, whatever the form holds: a
    field that was found by [q(..., contactForm)] has a parent, so
    [field.parentNode.insertBefore] always has an object to work on.  The
    page it leaves is the one of the error path when a validator fails and
    the one of the send path when none does. *)
Theorem submit_handler_never_throws (p : Form.page) :
  exists p',
    Form.on_submit p = Form.Ok p' /\
    (Form.errors_of p = [] -> p' = Form.after_valid p) /\
    (Form.errors_of p <> [] -> p' = Form.after_errors p) /\
    (Form.next_id p <= Form.next_id p')%nat.
Proof.
  eexists. split; [apply on_submit_cases|].
  destruct (Form.errors_of p) as [|err errs] eqn:E.
  - split; [reflexivity|]. split; [congruence|]. simpl. lia.
  - split; [discriminate|]. split; [reflexivity|].
    unfold Form.after_errors. cbn [Form.next_id].
    pose proof (shown_next_id (Form.errors_of p) 0
                  (Form.mkPage (Form.cleared p) (Form.activeElement p)
                     (Form.timers p) (Form.next_id p))) as L.
    cbn [Form.next_id] in L. lia.
Qed.

(** X14.  Every handler of the form keeps the page well formed: object
    identities stay unique and below the allocator after a submission, after
    a timer callback and after an [input] event, so what holds of a
    well-formed page holds after any sequence of these events. *)
Theorem form_handlers_keep_pages_well_formed (p : Form.page) :
  Form.well_formed_page p ->
  (forall p', Form.on_submit p = Form.Ok p' -> Form.well_formed_page p') /\
  (forall k p', Form.fire k p = Some p' -> Form.well_formed_page p') /\
  (forall i p', Form.on_input i p = Some p' -> Form.well_formed_page p').
Proof.
  intros W. split; [|split].
  - intros p'. rewrite on_submit_cases. intros E. injection E as <-.
    destruct (Form.errors_of p);
      [now apply after_valid_well_formed|now apply after_errors_well_formed].
  - intros k p'. unfold Form.fire.
    destruct (nth_error (Form.timers p) k) as [[d cb]|]; [|discriminate].
    intros E. injection E as <-. apply run_callback_well_formed. exact W.
  - intros i p'. now apply on_input_well_formed.
Qed.

(* ================================================================== *)
(** ** Contact form: which elements are marked, and how errors pile up *)

Section Marked.

Import Form.

Variable R : element -> element.
Hypothesis R_nid : forall e, nid (R e) = nid e.
Hypothesis R_idem : forall e, R (R e) = R e.

Lemma marked_step a l e : marked l R (upd a R e) = marked (a :: l) R e.
Proof.
  unfold marked, upd. cbn [existsb].
  destruct (Nat.eqb (nid e) a); cbn [orb]; [|reflexivity].
  rewrite R_nid. destruct (existsb _ l); [apply R_idem|reflexivity].
Qed.

Lemma nid_marked l e : nid (marked l R e) = nid e.
Proof. unfold marked. destruct (existsb _ l); [apply R_nid|reflexivity]. Qed.

(** A [forEach] of property writes in closed form. *)
Lemma forEach_update_tmap L : forall n,
  forEach L (fun el => update (nid el) R) n = tmap (marked (map nid L) R) n.
Proof.
  unfold forEach. induction L as [|a L IH]; intros n; cbn [fold_left map].
  - unfold marked. cbn [existsb]. now rewrite tmap_id.
  - rewrite IH. unfold update. rewrite tmap_tmap.
    apply tmap_ext. intros e _. apply marked_step.
Qed.

End Marked.

Section InputError.

Import Form.

Let ie : element -> bool := sel_class "input-error".
Let add : element -> element := classList_add "input-error".

Lemma In_descendants_insertAfter j ex n e :
  In e (descendants (insertAfter j (Node ex []) n)) ->
  e = ex \/ In e (descendants n).
Proof.
  destruct n as [r ks]. unfold descendants. cbn [insertAfter childNodes].
  induction ks as [|k ks IH]; cbn; [tauto|].
  unfold insert_after_in in *. cbn [flat_map map].
  rewrite flat_map_app, !in_app_iff.
  intros [H|H]; [|apply IH in H; tauto].
  assert (H' : In e (flatten (insertAfter j (Node ex []) k)) \/ e = ex).
  { destruct (Nat.eqb (nid (elem (insertAfter j (Node ex []) k))) j); cbn in H;
      rewrite ?app_nil_r, ?in_app_iff in H; cbn in H; intuition. }
  destruct H' as [H'|H']; [apply In_flatten_insertAfter in H'|]; tauto.
Qed.

(** After [clearFormAlerts] no descendant of the form has the class
    [input-error]. *)
Lemma cleared_no_input_error form :
  filter ie (descendants (clearFormAlerts form)) = [].
Proof.
  unfold clearFormAlerts.
  set (t1 := forEach _ _ form).
  rewrite (forEach_update_tmap (classList_remove "input-error")
             (nid_classList_remove "input-error")
             (classList_remove_twice "input-error")).
  rewrite descendants_tmap. apply filter_nil_iff.
  intros e' H. apply in_map_iff in H. destruct H as (e & <- & He).
  unfold marked. subst ie. unfold sel_class.
  destruct (existsb _ _) eqn:X; [apply contains_classList_remove|].
  destruct (contains "input-error" e) eqn:C; [|reflexivity].
  exfalso. apply not_true_iff_false in X. apply X.
  apply existsb_exists. exists (nid e). split; [|apply Nat.eqb_refl].
  apply in_map. unfold querySelectorAll. apply filter_In. split; [exact He|exact C].
Qed.

(** The descendants of the form after the loop over the errors: the new
    error nodes, and the old elements, marked when they are a field of the
    array. *)
Lemma shown_descendants errs : forall i p e',
  (forall f, In f (fields errs) -> nid f < next_id p) ->
  In e' (descendants (contactForm (shown errs i p))) ->
  (exists m k, e' = field_error m k /\ next_id p <= k) \/
  (exists e, In e (descendants (contactForm p)) /\
     e' = marked (map nid (fields errs)) add e).
Proof.
  induction errs as [|err errs IH]; intros i p e' B H; cbn [shown] in H.
  - right. exists e'. split; [exact H|reflexivity].
  - unfold show_error_page in H. unfold fields in *. cbn [flat_map] in *.
    fold (fields errs) in *.
    destruct (field err) as [f|]; [|cbn [app] in *; now apply (IH (S i) p)].
    cbn [app map] in *.
    apply IH in H.
    2:{ cbn [next_id]. intros g Hg. specialize (B g (or_intror Hg)). lia. }
    cbn [next_id contactForm] in H.
    destruct H as [(m & k & E & L)|(e1 & H1 & E)].
    + left. exists m, k. split; [exact E|lia].
    + unfold render in H1. apply In_descendants_insertAfter in H1.
      destruct H1 as [->|H1].
      * left. exists (msg err), (next_id p). split; [|lia].
        rewrite E. unfold marked.
        destruct (existsb _ _) eqn:X; [|reflexivity].
        exfalso. apply existsb_exists in X. destruct X as (y & Hy & Ey).
        apply Nat.eqb_eq in Ey. cbn in Ey. subst y.
        apply in_map_iff in Hy. destruct Hy as (g & Eg & Hg).
        specialize (B g (or_intror Hg)). lia.
      * right. unfold update in H1. rewrite descendants_tmap in H1.
        apply in_map_iff in H1. destruct H1 as (e0 & <- & H0).
        exists e0. split; [exact H0|]. rewrite E.
        apply marked_step; [apply nid_classList_add|apply classList_add_twice].
Qed.

Variable p : page.
Hypothesis WF : well_formed_page p.

Lemma errors_fields_bound f : In f (fields (errors_of p)) -> nid f < next_id p.
Proof. intros H. now apply (errors_fields_found WF) in H. Qed.

Lemma after_errors_descendants e' :
  In e' (descendants (contactForm (after_errors p))) ->
  (tagName e' = "div"%string /\ next_id p <= nid e' /\ ie e' = false) \/
  (exists e, In e (descendants (cleared p)) /\
     e' = marked (map nid (fields (errors_of p))) add e).
Proof.
  unfold after_errors. cbn [contactForm]. rewrite descendants_prepend.
  intros [<-|H].
  - left. split; [reflexivity|]. split; [|reflexivity]. cbn.
    apply (shown_next_id (errors_of p) 0
             (mkPage (cleared p) (activeElement p) (timers p) (next_id p))).
  - apply shown_descendants in H; [|exact errors_fields_bound].
    destruct H as [(m & k & -> & L)|H]; [left|right; exact H].
    split; [reflexivity|]. split; [exact L|reflexivity].
Qed.

Lemma after_errors_input_error e' :
  In e' (descendants (contactForm (after_errors p))) ->
  (contains "input-error" e' = true <->
   exists f, In f (fields (errors_of p)) /\ nid e' = nid f).
Proof.
  intros H. apply after_errors_descendants in H.
  destruct H as [(T & L & C)|(e & He & ->)].
  - split.
    + intros C'. subst ie. unfold sel_class in C. congruence.
    + intros (f & Hf & E). apply errors_fields_bound in Hf. lia.
  - assert (C0 : contains "input-error" e = false).
    { pose proof (cleared_no_input_error (contactForm p)) as Z.
      rewrite filter_nil_iff in Z. exact (Z e He). }
    unfold marked. destruct (existsb _ _) eqn:X.
    + split.
      * intros _. apply existsb_exists in X. destruct X as (y & Hy & Ey).
        apply Nat.eqb_eq in Ey. subst y.
        apply in_map_iff in Hy. destruct Hy as (g & Eg & Hg).
        exists g. split; [exact Hg|]. subst add. rewrite nid_classList_add. auto.
      * intros _. apply contains_classList_add.
    + split.
      * intros C'. congruence.
      * intros (f & Hf & E). exfalso. apply not_true_iff_false in X. apply X.
        apply existsb_exists. exists (nid f). split; [now apply in_map|].
        apply Nat.eqb_eq. exact E.
Qed.

End InputError.

(** X15.  After a failing submission the descendants of the form that have
    the class [input-error] are exactly the fields of the entries of the
    error array: marks left by an earlier submission are gone, and no
    banner or error node carries the class. *)
Theorem input_error_marks_exactly_the_failing_fields (p : Form.page) :
  Form.well_formed_page p ->
  Form.errors_of p <> [] ->
  exists p',
    Form.on_submit p = Form.Ok p' /\
    forall e', In e' (descendants (Form.contactForm p')) ->
      (contains "input-error" e' = true <->
       exists f, In f (Form.fields (Form.errors_of p)) /\ nid e' = nid f).
Proof.
  intros W NE. exists (Form.after_errors p). split.
  - rewrite on_submit_cases. destruct (Form.errors_of p); congruence.
  - intros e'. now apply after_errors_input_error.
Qed.

Section Accumulate.

Import Form.

Let fe : element -> bool := sel_class "field-error".

Lemma occurs_once j t :
  NoDup (ids t) -> hasParent j t = true ->
  List.length (filter (fun e => Nat.eqb (nid e) j) (descendants t)) = 1.
Proof.
  intros N H.
  assert (U : List.length (filter (fun e => Nat.eqb (nid e) j) (descendants t)) <= 1).
  { rewrite (NoDup_count_occ Nat.eq_dec) in N. specialize (N j).
    unfold ids in N. rewrite flatten_eq in N. cbn [map count_occ] in N.
    rewrite <- count_occ_nid. destruct (Nat.eq_dec (nid (elem t)) j); lia. }
  apply hasParent_In in H. destruct H as (e & He & E).
  assert (I : In e (filter (fun e => Nat.eqb (nid e) j) (descendants t))).
  { apply filter_In. split; [exact He|now apply Nat.eqb_eq]. }
  destruct (filter _ _); [contradiction|]. simpl in *. lia.
Qed.

Lemma fe_add e : fe (classList_add "input-error" e) = fe e.
Proof. apply contains_classList_add_other. discriminate. Qed.

Lemma fe_remove e : fe (classList_remove "input-error" e) = fe e.
Proof. apply contains_classList_remove_other. discriminate. Qed.

Lemma length_filter_tmap (P : element -> bool) F n :
  (forall e, P (F e) = P e) ->
  List.length (filter P (descendants (tmap F n))) =
  List.length (filter P (descendants n)).
Proof.
  intros H. rewrite descendants_tmap, filter_map_commute by (intros; apply H).
  apply length_map.
Qed.

Lemma render_count f m k t :
  NoDup (ids t) -> hasParent (nid f) t = true ->
  List.length (filter fe (descendants (render f m k t))) =
  S (List.length (filter fe (descendants t))).
Proof.
  intros N H. unfold render.
  rewrite length_filter_descendants_insertAfter.
  change (fe (field_error m k)) with true. cbv iota.
  unfold update. rewrite !length_filter_tmap.
  - rewrite (@occurs_once _ _ N H). lia.
  - intros e. now rewrite nid_upd by apply nid_classList_add.
  - intros e. unfold upd. destruct (Nat.eqb _ _); [apply fe_add|reflexivity].
Qed.

Lemma shown_count errs : forall i p,
  well_formed_page p ->
  (forall f, In f (fields errs) -> hasParent (nid f) (contactForm p) = true) ->
  List.length (filter fe (descendants (contactForm (shown errs i p)))) =
  List.length (filter fe (descendants (contactForm p))) + List.length (fields errs).
Proof.
  induction errs as [|err errs IH]; intros i p W H; cbn [shown].
  - unfold fields. simpl. lia.
  - pose proof (show_error_page_well_formed err i W) as W'.
    rewrite IH; [|exact W'|].
    2:{ intros f Hf. apply show_error_page_hasParent. apply H.
        unfold fields in *. cbn [flat_map]. apply in_app_iff. now right. }
    unfold fields in *. cbn [flat_map] in *. rewrite length_app.
    unfold show_error_page. destruct (field err) as [f|]; cbn [contactForm].
    + rewrite render_count; [simpl; lia|apply W|].
      apply H. now left.
    + simpl. lia.
Qed.

Variable p : page.
Hypothesis WF : well_formed_page p.

Let p0 : page := mkPage (cleared p) (activeElement p) (timers p) (next_id p).

Lemma after_errors_count :
  List.length (querySelectorAll fe (contactForm (after_errors p))) =
  List.length (querySelectorAll fe (cleared p)) +
  List.length (fields (errors_of p)).
Proof.
  unfold querySelectorAll, after_errors. cbn [contactForm].
  rewrite descendants_prepend. cbn [filter].
  change (fe (createAlertMessage _ _ _)) with false. cbv iota.
  rewrite shown_count; [reflexivity|now apply cleared_page_well_formed|].
  intros f Hf. cbn [contactForm]. now apply errors_fields_hasParent.
Qed.

(** The next [clearFormAlerts] removes the summary and the marks, and
    keeps every inline error node. *)
Lemma cleared_after_errors :
  exists L,
    cleared (after_errors p) =
    tmap (marked L (classList_remove "input-error"))
      (contactForm (shown (errors_of p) 0 p0)).
Proof.
  unfold cleared, clearFormAlerts.
  rewrite (after_errors_alerts p).
  pose proof (shown_well_formed (errors_of p) 0 (cleared_page_well_formed WF))
    as [_ B].
  unfold after_errors. cbn [contactForm]. subst p0.
  set (q := shown (errors_of p) 0 _) in *.
  assert (E : remove (nid (createAlertMessage summary_msg "error" (next_id q)))
                (prepend (Node (createAlertMessage summary_msg "error" (next_id q)) [])
                   (contactForm q)) = contactForm q).
  { destruct (contactForm q) as [r ks] eqn:S.
    cbn [prepend]. apply remove_first_child; [reflexivity|].
    intros e He. cbn. rewrite Forall_forall in B.
    assert (nid e < next_id q); [|lia].
    apply B. unfold ids. apply in_map. cbn. now right. }
  assert (F1 : forall x n,
             forEach [x] (fun el => remove (nid el)) n = remove (nid x) n)
    by reflexivity.
  rewrite F1, E.
  eexists.
  apply (forEach_update_tmap (classList_remove "input-error")
           (nid_classList_remove "input-error")
           (classList_remove_twice "input-error")).
Qed.

Lemma cleared_after_errors_count :
  List.length (querySelectorAll fe (cleared (after_errors p))) =
  List.length (querySelectorAll fe (contactForm (after_errors p))).
Proof.
  destruct cleared_after_errors as [L E]. rewrite E.
  unfold querySelectorAll. rewrite length_filter_tmap.
  - unfold after_errors. fold p0. cbn [contactForm].
    rewrite descendants_prepend. cbn [filter].
    change (fe (createAlertMessage _ _ _)) with false. reflexivity.
  - intros e. unfold marked. destruct (existsb _ _); [apply fe_remove|reflexivity].
Qed.

End Accumulate.

(** X16.  Inline error nodes are never removed by a submission:
    [clearFormAlerts] takes out the banners and the [input-error] marks
    only.  A failing submission adds one [.field-error] node for each
    failing field that has an element, and a second failing submission
    adds its own nodes to the ones of the first. *)
Theorem inline_errors_accumulate (p : Form.page) :
  Form.well_formed_page p ->
  Form.errors_of p <> [] ->
  exists p1,
    Form.on_submit p = Form.Ok p1 /\
    List.length (querySelectorAll (sel_class "field-error") (Form.contactForm p1)) =
      List.length (querySelectorAll (sel_class "field-error") (Form.cleared p)) +
      List.length (Form.fields (Form.errors_of p)) /\
    (Form.errors_of p1 <> [] ->
     exists p2,
       Form.on_submit p1 = Form.Ok p2 /\
       List.length (querySelectorAll (sel_class "field-error") (Form.contactForm p2)) =
         List.length (querySelectorAll (sel_class "field-error") (Form.contactForm p1)) +
         List.length (Form.fields (Form.errors_of p1))).
Proof.
  intros W NE. exists (Form.after_errors p).
  assert (S : forall q, Form.errors_of q <> [] ->
                Form.on_submit q = Form.Ok (Form.after_errors q)).
  { intros q Hq. rewrite on_submit_cases. destruct (Form.errors_of q); congruence. }
  split; [now apply S|]. split; [now apply after_errors_count|].
  intros NE1. exists (Form.after_errors (Form.after_errors p)).
  split; [now apply S|].
  pose proof (after_errors_well_formed W) as W1.
  rewrite (after_errors_count W1). f_equal.
  now apply cleared_after_errors_count.
Qed.

(** The spec's failing example submitted twice: six inline errors. *)
Lemma inline_errors_example :
  exists p1 p2,
    Form.on_submit Sample.bad_page = Form.Ok p1 /\
    Form.on_submit p1 = Form.Ok p2 /\
    List.length (querySelectorAll (sel_class "field-error") (Form.contactForm p1)) = 3 /\
    List.length (querySelectorAll (sel_class "field-error") (Form.contactForm p2)) = 6.
Proof.
  destruct (@inline_errors_accumulate Sample.bad_page
              (sample_page_well_formed (lit "A") (lit "bad") (lit "short")))
    as (p1 & S1 & C1 & Next).
  - discriminate.
  - assert (E1 : p1 = Form.after_errors Sample.bad_page).
    { rewrite on_submit_cases in S1. injection S1 as <-. reflexivity. }
    destruct Next as (p2 & S2 & C2).
    + rewrite E1. discriminate.
    + exists p1, p2. split; [exact S1|]. split; [exact S2|].
      split; [rewrite C1; reflexivity|].
      rewrite C2, C1, E1. reflexivity.
Defined.

(* ================================================================== *)
(** ** Contact form: a pending send and a later failing submission *)

Section LateSend.

Import Form.

(** What the callback of the send timer does to an element. *)
Let finish (sb : option nat) (e : element) : element :=
  match sb with
  | Some b => upd b restored (reset_control e)
  | None => reset_control e
  end.

Lemma send_done_form sb q :
  contactForm (run_callback (SendDone sb) q) =
  tmap (finish sb)
    (prepend (Node (createAlertMessage success_msg "success" (next_id q)) [])
       (contactForm q)).
Proof.
  unfold run_callback, finish. cbn [contactForm].
  destruct sb as [b|]; [|reflexivity].
  unfold update, reset. now rewrite tmap_tmap.
Qed.

Lemma classList_finish sb e : classList (finish sb e) = classList e.
Proof.
  unfold finish, upd, reset_control.
  destruct sb as [b|]; destruct (is_control e); cbn;
    try destruct (Nat.eqb _ _); reflexivity.
Qed.

Lemma contains_finish c sb e : contains c (finish sb e) = contains c e.
Proof. unfold contains. now rewrite classList_finish. Qed.

Lemma finish_reset sb e :
  is_control (finish sb e) = true -> value (finish sb e) = defaultValue (finish sb e).
Proof.
  assert (R : is_control (reset_control e) = true ->
              value (reset_control e) = defaultValue (reset_control e)).
  { unfold reset_control. destruct (is_control e) eqn:C; [reflexivity|congruence]. }
  unfold finish. destruct sb as [b|]; [|exact R].
  unfold upd. destruct (Nat.eqb _ _); [|exact R].
  exact R.
Qed.

End LateSend.

(** X17.  A failing submission does not cancel the timer of an earlier
    send.  When that timer fires on the page the failing submission left,
    the success banner is put above the error summary, so both banners are
    shown; the inline error nodes stay; and every control is back to its
    default value. *)
Theorem late_success_banner_joins_error_summary
  (p : Form.page) (k : nat) (d : N) (sb : option nat) :
  Form.errors_of p <> [] ->
  nth_error (Form.timers p) k = Some (d, Form.SendDone sb) ->
  exists p1 p2,
    Form.on_submit p = Form.Ok p1 /\
    Form.fire k p1 = Some p2 /\
    map classList (querySelectorAll (sel_class "form-alert") (Form.contactForm p2)) =
      [ ["form-alert"; "form-alert--success"]%string;
        ["form-alert"; "form-alert--error"]%string ] /\
    List.length (querySelectorAll (sel_class "field-error") (Form.contactForm p2)) =
      List.length (querySelectorAll (sel_class "field-error") (Form.contactForm p1)) /\
    (forall e, In e (flatten (Form.contactForm p2)) ->
       Form.is_control e = true -> value e = defaultValue e).
Proof.
  intros NE T. exists (Form.after_errors p).
  assert (S : Form.on_submit p = Form.Ok (Form.after_errors p)).
  { rewrite on_submit_cases. destruct (Form.errors_of p); congruence. }
  unfold Form.fire. rewrite (after_errors_timers p), T.
  eexists. split; [exact S|]. split; [reflexivity|].
  rewrite send_done_form. cbn [Form.contactForm Form.next_id].
  unfold querySelectorAll.
  rewrite !descendants_tmap, descendants_prepend.
  rewrite !filter_map_commute by (intros; apply contains_finish).
  split; [|split].
  - cbn [filter].
    change (sel_class "form-alert" (Form.createAlertMessage _ _ _)) with true.
    cbv iota.
    pose proof (after_errors_alerts p) as A. unfold querySelectorAll in A.
    rewrite A. cbn [map]. now rewrite !classList_finish.
  - rewrite length_map. cbn [filter].
    change (sel_class "field-error" (Form.createAlertMessage _ _ _)) with false.
    reflexivity.
  - intros e He. rewrite flatten_tmap in He.
    apply in_map_iff in He. destruct He as (e0 & <- & _).
    apply finish_reset.
Qed.

(* ================================================================== *)
(** ** Contact form: the [input] listener *)

Section Removal.

Variable j : nat.

(** The child list of a parent after [remove j]. *)
Let R (l : list node) : list node :=
  filter (fun k => negb (Nat.eqb (nid (elem k)) j)) (map (remove j) l).

Lemma childless_children e ks :
  childless j (Node e ks) = true -> forallb (childless j) ks = true.
Proof. cbn [childless]. intros H. apply andb_prop in H. tauto. Qed.

Lemma childless_leaf k :
  childless j k = true -> Nat.eqb (nid (elem k)) j = true -> childNodes k = [].
Proof.
  destruct k as [e ks]. cbn [childless elem childNodes]. intros H E.
  rewrite E in H. cbn [negb orb] in H. now destruct ks.
Qed.

Lemma childless_tmap F n :
  (forall e, nid (F e) = nid e) -> childless j (tmap F n) = childless j n.
Proof.
  intros H. induction n as [e ks IH] using node_ind. cbn [tmap childless].
  rewrite H. f_equal.
  - f_equal. now destruct ks.
  - induction IH as [|k ks Hk _ IHks]; cbn; [reflexivity|]. now rewrite Hk, IHks.
Qed.

Lemma descendants_remove_childless n :
  childless j n = true ->
  descendants (remove j n) =
  filter (fun e => negb (Nat.eqb (nid e) j)) (descendants n).
Proof.
  induction n as [r ks IH] using node_ind. intros C.
  apply childless_children in C.
  unfold descendants. cbn [remove childNodes].
  induction IH as [|k ks Hk _ IHks]; cbn [map filter flat_map]; [reflexivity|].
  cbn [forallb] in C. apply andb_prop in C. destruct C as [Ck Cks].
  rewrite filter_app, <- (IHks Cks), elem_remove.
  destruct (Nat.eqb (nid (elem k)) j) eqn:E; cbn [negb].
  - pose proof (childless_leaf k Ck E) as L. destruct k as [e l].
    cbn in L, E. subst l. cbn. now rewrite E.
  - cbn [flat_map]. f_equal.
    rewrite (flatten_eq (remove j k)), (flatten_eq k), elem_remove. cbn [filter].
    rewrite E. cbn [negb]. f_equal. exact (Hk Ck).
Qed.

Lemma after_remove i ks :
  i <> j -> after i (R ks) = option_map R (after i ks).
Proof.
  intros N. subst R. induction ks as [|k ks IH]; cbn [map filter after]; [reflexivity|].
  rewrite elem_remove.
  destruct (Nat.eqb (nid (elem k)) j) eqn:E; cbn [negb].
  - apply Nat.eqb_eq in E.
    assert (X : Nat.eqb (nid (elem k)) i = false) by (apply Nat.eqb_neq; lia).
    now rewrite X.
  - cbn [after]. rewrite elem_remove.
    destruct (Nat.eqb (nid (elem k)) i); [reflexivity|exact IH].
Qed.

Lemma following_remove i n :
  childless j n = true -> i <> j ->
  following i (remove j n) = option_map R (following i n).
Proof.
  intros C N. induction n as [r ks IH] using node_ind.
  apply childless_children in C.
  cbn [remove following]. fold (R ks).
  rewrite after_remove by exact N.
  destruct (after i ks) as [l|]; [reflexivity|]. cbn [option_map].
  subst R. cbv beta.
  induction IH as [|k ks Hk _ IHks]; cbn [map filter first_some]; [reflexivity|].
  cbn [forallb] in C. apply andb_prop in C. destruct C as [Ck Cks].
  rewrite elem_remove.
  destruct (Nat.eqb (nid (elem k)) j) eqn:E; cbn [negb].
  - pose proof (childless_leaf k Ck E) as L. destruct k as [e l].
    cbn in L. subst l. cbn [following after map first_some]. now apply IHks.
  - cbn [map first_some]. rewrite (Hk Ck).
    destruct (following i k) as [l|]; cbn [option_map]; [reflexivity|].
    now apply IHks.
Qed.

Lemma nextSibling_remove i n s :
  childless j n = true -> i <> j ->
  nextSibling i n = Some s -> nid (elem s) <> j ->
  nextSibling i (remove j n) = Some (remove j s).
Proof.
  intros C N S Ns. unfold nextSibling in *.
  rewrite following_remove by assumption.
  destruct (following i n) as [[|k l]|]; try discriminate.
  injection S as ->. cbn [option_map]. subst R. cbn [map filter].
  rewrite elem_remove.
  apply Nat.eqb_neq in Ns. now rewrite Ns.
Qed.

End Removal.

Lemma parentNode_tmap F i n :
  (forall e, nid (F e) = nid e) ->
  parentNode i (tmap F n) = option_map (tmap F) (parentNode i n).
Proof.
  intros H. induction n as [r ks IH] using node_ind.
  cbn [tmap parentNode].
  assert (E : existsb (fun k => Nat.eqb (nid (elem k)) i) (map (tmap F) ks) =
              existsb (fun k => Nat.eqb (nid (elem k)) i) ks).
  { clear IH. induction ks as [|k ks IHks]; cbn; [reflexivity|].
    now rewrite elem_tmap, H, IHks. }
  rewrite E. destruct (existsb _ ks); [reflexivity|].
  rewrite map_map, (map_ext_Forall_node _ _ IH), <- map_map.
  apply first_some_map_option.
Qed.

Section InputListener.

Import Form.

Let fe : element -> bool := sel_class "field-error".

Lemma fe_unmark e : fe (unmark e) = fe e.
Proof.
  unfold unmark. destruct (contains "input-error" e); [|reflexivity].
  apply contains_classList_remove_other. discriminate.
Qed.

Lemma unmark_clean e : contains "input-error" (unmark e) = false.
Proof.
  unfold unmark. destruct (contains "input-error" e) eqn:C; [|exact C].
  apply contains_classList_remove.
Qed.

Variables (p : page) (i : nat) (par : node).
Hypothesis Par : parentNode i (contactForm p) = Some par.

Let form : node := update i unmark (contactForm p).

(** The page the listener leaves. *)
Lemma on_input_eq :
  on_input i p =
  Some (mkPage
          (match querySelector fe par with
           | Some x => remove (nid x) form
           | None => form
           end)
          (activeElement p) (timers p) (next_id p)).
Proof.
  unfold on_input. fold form. subst form. unfold update.
  rewrite parentNode_tmap by (intros e; apply nid_upd, nid_unmark).
  rewrite Par. cbn [option_map].
  fold (update i unmark par).
  rewrite (querySelector_update (sel_class "field-error") i unmark par fe_unmark).
  fold fe. destruct (querySelector fe par) as [x|]; cbn [option_map]; [|reflexivity].
  now rewrite nid_upd by apply nid_unmark.
Qed.

Lemma In_flatten_form e' :
  In e' (flatten form) -> exists e, In e (flatten (contactForm p)) /\ e' = upd i unmark e.
Proof.
  subst form. unfold update. rewrite flatten_tmap. intros H.
  apply in_map_iff in H. destruct H as (e & <- & He). eauto.
Qed.

Lemma target_clean e : nid (upd i unmark e) = i -> contains "input-error" (upd i unmark e) = false.
Proof.
  rewrite nid_upd by apply nid_unmark. intros E. unfold upd.
  apply Nat.eqb_eq in E. rewrite E. apply unmark_clean.
Qed.

Lemma on_input_clean p' e' :
  on_input i p = Some p' ->
  In e' (flatten (contactForm p')) -> nid e' = i ->
  contains "input-error" e' = false.
Proof.
  rewrite on_input_eq. intros E. injection E as <-. cbn [contactForm].
  intros H.
  assert (H' : In e' (flatten form)).
  { destruct (querySelector fe par); [now apply In_flatten_remove in H|exact H]. }
  apply In_flatten_form in H'. destruct H' as (e & _ & ->). apply target_clean.
Qed.

Lemma on_input_gone p' x e' :
  querySelector fe par = Some x ->
  on_input i p = Some p' ->
  In e' (descendants (contactForm p')) -> nid e' <> nid x.
Proof.
  intros Q. rewrite on_input_eq, Q. intros E. injection E as <-.
  cbn [contactForm]. intros H. now apply In_descendants_remove in H.
Qed.

End InputListener.

(** X18.  An [input] event on a descendant [i] of the form: the listener
    returns; it leaves the focus, the timers and the allocator alone (there
    is no re-validation); it writes no element but the target, which ends
    without the class [input-error]; and it removes at most one node, the
    first [.field-error] among the descendants of the target's parent.
    When that node is a leaf, it is the only element that leaves the
    form. *)
Theorem input_listener_effect (p : Form.page) (i : nat) (par : node) :
  parentNode i (Form.contactForm p) = Some par ->
  exists p',
    Form.on_input i p = Some p' /\
    Form.activeElement p' = Form.activeElement p /\
    Form.timers p' = Form.timers p /\
    Form.next_id p' = Form.next_id p /\
    (forall e', In e' (flatten (Form.contactForm p')) ->
       (exists e, In e (flatten (Form.contactForm p)) /\ e' = upd i Form.unmark e) /\
       (nid e' = i -> contains "input-error" e' = false)) /\
    match querySelector (sel_class "field-error") par with
    | None => Form.contactForm p' = update i Form.unmark (Form.contactForm p)
    | Some x =>
        (forall e', In e' (descendants (Form.contactForm p')) -> nid e' <> nid x) /\
        (childless (nid x) (Form.contactForm p) = true ->
         descendants (Form.contactForm p') =
         map (upd i Form.unmark)
           (filter (fun e => negb (Nat.eqb (nid e) (nid x)))
              (descendants (Form.contactForm p))))
    end.
Proof.
  intros Par. eexists. split; [apply (@on_input_eq p i par Par)|].
  cbn [Form.activeElement Form.timers Form.next_id Form.contactForm].
  repeat (split; [reflexivity|]).
  split.
  - intros e' H.
    assert (H' : In e' (flatten (update i Form.unmark (Form.contactForm p)))).
    { destruct (querySelector _ par); [now apply In_flatten_remove in H|exact H]. }
    apply In_flatten_form in H'. split; [exact H'|].
    destruct H' as (e & _ & ->). apply target_clean.
  - destruct (querySelector _ par) as [x|]; [|reflexivity]. split.
    + intros e' H. now apply In_descendants_remove in H.
    + intros C. rewrite descendants_remove_childless.
      * unfold update. rewrite descendants_tmap.
        apply filter_map_commute.
        intros a _. now rewrite nid_upd by apply nid_unmark.
      * unfold update. rewrite childless_tmap; [exact C|].
        intros e. apply nid_upd, nid_unmark.
Qed.

(** X19.  The error node the listener removes need not be the one of the
    field that was typed in.  When the first [.field-error] under the
    parent of the field is another node than the field's own error node
    (the error of an earlier field with the same parent, or of a field
    nested in an earlier sibling), typing in the field takes the mark off
    the field and removes that other node, and the field's own error node
    stays its next sibling. *)
Theorem typing_can_remove_another_fields_error
  (p : Form.page) (f x y : element) (par : node) :
  parentNode (nid f) (Form.contactForm p) = Some par ->
  querySelector (sel_class "field-error") par = Some x ->
  childless (nid x) (Form.contactForm p) = true ->
  nextSibling (nid f) (Form.contactForm p) = Some (Node y []) ->
  nid y <> nid x -> nid y <> nid f -> nid f <> nid x ->
  exists p',
    Form.on_input (nid f) p = Some p' /\
    nextSibling (nid f) (Form.contactForm p') = Some (Node y []) /\
    (forall e', In e' (descendants (Form.contactForm p')) -> nid e' <> nid x) /\
    (forall e', In e' (flatten (Form.contactForm p')) -> nid e' = nid f ->
       contains "input-error" e' = false).
Proof.
  intros Par Q C S Nyx Nyf Nfx.
  pose proof (@on_input_eq p (nid f) par Par) as E. rewrite Q in E.
  eexists. split; [exact E|].
  split; [|split].
  - cbn [Form.contactForm].
    assert (U : forall e, nid (upd (nid f) Form.unmark e) = nid e)
      by (intros e; apply nid_upd, nid_unmark).
    rewrite (@nextSibling_remove (nid x) (nid f) _ (Node y [])).
    + reflexivity.
    + unfold update. now rewrite childless_tmap.
    + exact Nfx.
    + unfold update. rewrite nextSibling_tmap by exact U. rewrite S.
      cbn [option_map tmap map]. unfold upd.
      apply Nat.eqb_neq in Nyf. now rewrite Nyf.
    + exact Nyx.
  - intros e'. now apply (@on_input_gone p (nid f) par Par _ x e' Q E).
  - intros e'. now apply (@on_input_clean p (nid f) par Par _ e' E).
Qed.

(* ================================================================== *)
(** ** The properties of the form on the sample pages *)

(** The failing example leaves a well-formed page. *)
Lemma well_formed_after_submission_example :
  Form.well_formed_page Sample.shown_page.
Proof.
  destruct (@form_handlers_keep_pages_well_formed Sample.bad_page
              (sample_page_well_formed (lit "A") (lit "bad") (lit "short")))
    as (S & _).
  apply S. rewrite on_submit_cases. reflexivity.
Defined.

(** On the failing example the marked elements are the three fields. *)
Lemma input_error_marks_example :
  exists p',
    Form.on_submit Sample.bad_page = Form.Ok p' /\
    forall e', In e' (descendants (Form.contactForm p')) ->
      (contains "input-error" e' = true <->
       exists f, In f (Form.fields (Form.errors_of Sample.bad_page)) /\
                 nid e' = nid f).
Proof.
  apply input_error_marks_exactly_the_failing_fields.
  - apply sample_page_well_formed.
  - discriminate.
Defined.

(** The failing example submitted while a send is pending, and the timer
    of the send fires. *)
Lemma late_success_banner_example :
  exists p1 p2,
    Form.on_submit Sample.pending_page = Form.Ok p1 /\
    Form.fire 0 p1 = Some p2 /\
    map classList (querySelectorAll (sel_class "form-alert") (Form.contactForm p2)) =
      [ ["form-alert"; "form-alert--success"]%string;
        ["form-alert"; "form-alert--error"]%string ] /\
    List.length (querySelectorAll (sel_class "field-error") (Form.contactForm p2)) =
      List.length (querySelectorAll (sel_class "field-error") (Form.contactForm p1)) /\
    (forall e, In e (flatten (Form.contactForm p2)) ->
       Form.is_control e = true -> value e = defaultValue e).
Proof.
  apply (@late_success_banner_joins_error_summary
           Sample.pending_page 0 900%N (Some 5)).
  - discriminate.
  - reflexivity.
Defined.

(** Typing in the message field of the page the failing example left: the
    parent of the field is the form, the first error node under it is the
    one of the name field (6), inside the paragraph. *)
Lemma input_listener_example :
  exists p',
    Form.on_input 4 Sample.shown_page = Some p' /\
    Form.timers p' = [] /\
    (forall e', In e' (descendants (Form.contactForm p')) -> nid e' <> 6) /\
    List.length (descendants (Form.contactForm p')) =
      List.length (descendants (Form.contactForm Sample.shown_page)) - 1.
Proof.
  destruct (@input_listener_effect Sample.shown_page 4
              (Form.contactForm Sample.shown_page) eq_refl)
    as (p' & E & _ & T & _ & _ & M).
  change (querySelector (sel_class "field-error")
            (Form.contactForm Sample.shown_page))
    with (Some (Form.field_error Form.name_msg 6)) in M.
  destruct M as [Gone Exact].
  exists p'. split; [exact E|]. split; [exact T|]. split; [exact Gone|].
  rewrite (Exact eq_refl). reflexivity.
Defined.

Lemma typing_in_message_example :
  exists p',
    Form.on_input 4 Sample.shown_page = Some p' /\
    nextSibling 4 (Form.contactForm p') =
      Some (Node (Form.field_error Form.message_msg 8) []) /\
    (forall e', In e' (descendants (Form.contactForm p')) -> nid e' <> 6) /\
    (forall e', In e' (flatten (Form.contactForm p')) -> nid e' = 4 ->
       contains "input-error" e' = false).
Proof.
  apply (@typing_can_remove_another_fields_error Sample.shown_page
           (elem (Sample.textarea 4 "message" (lit "short")))
           (Form.field_error Form.name_msg 6)
           (Form.field_error Form.message_msg 8)
           (Form.contactForm Sample.shown_page));
    try reflexivity; cbn; lia.
Defined.

(* ================================================================== *)
(** ** Contact form: the timer of a banner that is already gone *)

Section StaleBanner.

Import Form.

Variable p : page.
Hypothesis WF : well_formed_page p.

(** No banner of the page survives [clearFormAlerts]. *)
Lemma cleared_descendants_not_alert e :
  In e (descendants (cleared p)) ->
  ~ In (nid e) (map nid (querySelectorAll (sel_class "form-alert") (contactForm p))).
Proof.
  unfold cleared, clearFormAlerts.
  rewrite (forEach_update_tmap (classList_remove "input-error")
             (nid_classList_remove "input-error")
             (classList_remove_twice "input-error")).
  rewrite descendants_tmap. intros H.
  apply in_map_iff in H. destruct H as (e1 & <- & H1).
  rewrite nid_marked by apply nid_classList_remove.
  now apply forEach_remove_descendants in H1.
Qed.

Lemma alert_is_old j :
  In j (map nid (querySelectorAll (sel_class "form-alert") (contactForm p))) ->
  j < next_id p.
Proof.
  intros H. apply in_map_iff in H. destruct H as (e & <- & He).
  unfold querySelectorAll in He. apply filter_In in He. destruct He as [He _].
  destruct WF as [_ B]. rewrite Forall_forall in B. apply B.
  unfold ids. now apply in_map, In_descendants_flatten.
Qed.

Lemma after_valid_descendants_not_alert e :
  In e (descendants (contactForm (after_valid p))) ->
  ~ In (nid e) (map nid (querySelectorAll (sel_class "form-alert") (contactForm p))).
Proof.
  unfold after_valid. cbn [contactForm].
  destruct (submitBtn p) as [b|]; [|apply cleared_descendants_not_alert].
  unfold update. rewrite descendants_tmap. intros H.
  apply in_map_iff in H. destruct H as (e1 & <- & H1).
  rewrite nid_upd by apply nid_sending.
  now apply cleared_descendants_not_alert.
Qed.

Lemma after_errors_descendants_not_alert e :
  In e (descendants (contactForm (after_errors p))) ->
  ~ In (nid e) (map nid (querySelectorAll (sel_class "form-alert") (contactForm p))).
Proof.
  intros H A. pose proof (alert_is_old _ A) as Old.
  apply (after_errors_descendants WF) in H.
  destruct H as [(_ & L & _)|(e1 & H1 & E)]; [lia|].
  assert (N : nid e = nid e1).
  { rewrite E. apply nid_marked. apply nid_classList_add. }
  apply cleared_descendants_not_alert in H1. apply H1.
  now rewrite <- N.
Qed.

End StaleBanner.

(** X20.  The timer that removes a success banner is harmless once a later
    submission has cleared the banner: whichever path that submission took,
    when the timer fires afterwards it finds the banner detached, and the
    form, the focus and the allocator are as the submission left them. *)
Theorem stale_banner_timer_changes_nothing
  (p : Form.page) (k : nat) (d : N) (banner : nat) :
  Form.well_formed_page p ->
  nth_error (Form.timers p) k = Some (d, Form.RemoveSuccess banner) ->
  In banner
    (map nid (querySelectorAll (sel_class "form-alert") (Form.contactForm p))) ->
  exists p1 p2,
    Form.on_submit p = Form.Ok p1 /\
    Form.fire k p1 = Some p2 /\
    Form.contactForm p2 = Form.contactForm p1 /\
    Form.activeElement p2 = Form.activeElement p1 /\
    Form.next_id p2 = Form.next_id p1.
Proof.
  intros W T A.
  eexists. eexists. split; [apply on_submit_cases|].
  assert (Gone : forall e,
             In e (descendants
                     (Form.contactForm
                        match Form.errors_of p with
                        | [] => Form.after_valid p
                        | _ :: _ => Form.after_errors p
                        end)) -> nid e <> banner).
  { intros e He E. subst banner. revert A.
    destruct (Form.errors_of p);
      [now apply after_valid_descendants_not_alert
      |now apply (after_errors_descendants_not_alert W)]. }
  assert (Timer : nth_error
                    (Form.timers
                       match Form.errors_of p with
                       | [] => Form.after_valid p
                       | _ :: _ => Form.after_errors p
                       end) k = Some (d, Form.RemoveSuccess banner)).
  { destruct (Form.errors_of p).
    - unfold Form.after_valid. cbn [Form.timers].
      rewrite nth_error_app1; [exact T|].
      apply nth_error_Some. congruence.
    - now rewrite after_errors_timers. }
  unfold Form.fire. rewrite Timer.
  split; [reflexivity|].
  cbn [Form.run_callback Form.contactForm Form.activeElement Form.next_id].
  split; [|split; reflexivity].
  now apply remove_absent.
Qed.

(** The passing example was sent and the banner 6 is shown; the form is
    submitted again (its fields are empty now) and then the timer of the
    banner fires. *)
Lemma stale_banner_example :
  exists p1 p2,
    Form.on_submit Sample.sent_page = Form.Ok p1 /\
    Form.fire 0 p1 = Some p2 /\
    Form.contactForm p2 = Form.contactForm p1 /\
    Form.activeElement p2 = Form.activeElement p1 /\
    Form.next_id p2 = Form.next_id p1.
Proof.
  apply (@stale_banner_timer_changes_nothing Sample.sent_page 0 8000%N 6).
  - split; cbn.
    + repeat (constructor; [simpl; intuition discriminate|]). constructor.
    + repeat constructor.
  - reflexivity.
  - cbn. auto.
Defined.

